(** * finp: SQL guard, virtual-table binder, chart-spec validator and agent stream

    A shallow embedding of the text-processing core of the finp backend
    ([backend/src/app/db.py], [backend/src/mcp_tools/db_server.py],
    [backend/src/app/agent.py]) and the properties of its specification.

    Python [str] values are modelled as lists of 8-bit characters.  The
    character classes ([str.isspace], [\w], [\d], [str.upper], [str.lower])
    are those of Python on ASCII text; a character above 127 is taken as a
    caseless symbol that is neither a space nor a word character. *)

From Stdlib Require Import Strings.Ascii Strings.Byte Lists.List Bool Arith ZArith Lia
  Sorting.Sorted.
From stdpp Require Import gmap strings list.

Set Warnings "-via-type-mismatch,-via-type-remapping,-register-all".

(** ** Strings *)

Definition str := list ascii.

Inductive str_lit := lit_nil | lit_cons (c : ascii) (l : str_lit).

Fixpoint lit_of_bytes (l : list Byte.byte) : str_lit :=
  match l with
  | nil => lit_nil
  | b :: t => lit_cons (ascii_of_byte b) (lit_of_bytes t)
  end.

Fixpoint bytes_of_lit (l : str_lit) : list Byte.byte :=
  match l with
  | lit_nil => nil
  | lit_cons c t => byte_of_ascii c :: bytes_of_lit t
  end.

Declare Scope str_scope.
Delimit Scope str_scope with str.
String Notation str lit_of_bytes bytes_of_lit
  (via str_lit mapping [[nil] => lit_nil, [cons] => lit_cons]) : str_scope.
Bind Scope str_scope with str.
Open Scope str_scope.

(** Characters that cannot be written inside a literal. *)
Definition nl : ascii := "010"%char.
Definition tab : ascii := "009"%char.
Definition dquote : ascii := "034"%char.
Definition squote : ascii := "039"%char.
Definition backslash : ascii := "092"%char.

Module PyStr.

Definition code (c : ascii) : nat := nat_of_ascii c.

Definition between (lo hi : nat) (c : ascii) : bool :=
  (lo <=? code c) && (code c <=? hi).

(** [str.isspace] on ASCII: TAB..CR, FS..US and the space. *)
Definition is_space (c : ascii) : bool := between 9 13 c || between 28 32 c.
Definition is_digit (c : ascii) : bool := between 48 57 c.
Definition is_upper_c (c : ascii) : bool := between 65 90 c.
Definition is_lower_c (c : ascii) : bool := between 97 122 c.

(** [\w]: letters, digits and the underscore. *)
Definition is_word (c : ascii) : bool :=
  is_digit c || is_upper_c c || is_lower_c c || Ascii.eqb c "_".

Definition upper_c (c : ascii) : ascii :=
  if is_lower_c c then ascii_of_nat (code c - 32) else c.
Definition lower_c (c : ascii) : ascii :=
  if is_upper_c c then ascii_of_nat (code c + 32) else c.

Definition upper (s : str) : str := map upper_c s.
Definition lower (s : str) : str := map lower_c s.

(** [s.lstrip(chars)], [s.rstrip(chars)] for a class of characters. *)
Fixpoint lstrip_of (p : ascii -> bool) (s : str) : str :=
  match s with
  | c :: t => if p c then lstrip_of p t else s
  | [] => []
  end.
Definition rstrip_of (p : ascii -> bool) (s : str) : str :=
  rev (lstrip_of p (rev s)).

Definition lstrip (s : str) : str := lstrip_of is_space s.
Definition rstrip (s : str) : str := rstrip_of is_space s.
Definition strip (s : str) : str := rstrip (lstrip s).

Fixpoint startswith (s p : str) {struct p} : bool :=
  match p with
  | [] => true
  | a :: p' =>
      match s with
      | b :: s' => Ascii.eqb a b && startswith s' p'
      | [] => false
      end
  end.

Definition endswith (s p : str) : bool := startswith (rev s) (rev p).

(** [sub in s]. *)
Fixpoint contains (sub s : str) : bool :=
  startswith s sub ||
  match s with
  | [] => false
  | _ :: t => contains sub t
  end.

Definition has_char (c : ascii) (s : str) : bool := existsb (Ascii.eqb c) s.

Definition str_eqb (a b : str) : bool := bool_decide (a = b).

Definition mem (a : str) (l : list str) : bool := existsb (str_eqb a) l.

(** [s.replace(old, new)] for a non-empty [old]: occurrences are replaced
    left to right and do not overlap; [skip] counts the characters of the
    occurrence under replacement that are still to be dropped. *)
Fixpoint replace_go (old new : str) (s : str) (skip : nat) : str :=
  match s with
  | [] => []
  | c :: t =>
      match skip with
      | S k => replace_go old new t k
      | O =>
          if startswith s old
          then new ++ replace_go old new t (length old - 1)
          else c :: replace_go old new t 0
      end
  end.
Definition replace (old new s : str) : str := replace_go old new s 0.

(** [s.split(sep)] for a one-character separator. *)
Fixpoint split (sep : ascii) (s : str) : list str :=
  match s with
  | [] => [[]]
  | c :: t =>
      if Ascii.eqb c sep then [] :: split sep t
      else match split sep t with
           | w :: ws => (c :: w) :: ws
           | [] => [[c]]
           end
  end.

(** [s.split(sep, 1)] when [sep] occurs in [s]: the text before the first
    separator and the text after it. *)
Fixpoint split1 (sep : ascii) (s : str) : str * str :=
  match s with
  | [] => ([], [])
  | c :: t =>
      if Ascii.eqb c sep then ([], t)
      else let '(a, b) := split1 sep t in (c :: a, b)
  end.

(** [sep.join(l)]. *)
Fixpoint join (sep : str) (l : list str) : str :=
  match l with
  | [] => []
  | [x] => x
  | x :: t => x ++ sep ++ join sep t
  end.

(** Code-point order of strings, as used by [sorted]. *)
Fixpoint str_ltb (a b : str) : bool :=
  match a, b with
  | [], [] => false
  | [], _ :: _ => true
  | _ :: _, [] => false
  | x :: a', y :: b' =>
      if code x <? code y then true
      else if code y <? code x then false
      else str_ltb a' b'
  end.

Fixpoint insert_sorted (x : str) (l : list str) : list str :=
  match l with
  | [] => [x]
  | y :: t => if str_ltb y x then y :: insert_sorted x t else x :: l
  end.

Fixpoint dedup (l : list str) : list str :=
  match l with
  | [] => []
  | x :: t => if mem x t then dedup t else x :: dedup t
  end.

(** [sorted(set(l))]: the distinct elements in increasing order. *)
Definition sorted_set (l : list str) : list str :=
  fold_right insert_sorted [] (dedup l).

(** [list(dict.fromkeys(l))]: first occurrences, in order. *)
Fixpoint uniq (l : list str) : list str :=
  match l with
  | [] => []
  | x :: t => x :: List.filter (fun y => negb (str_eqb x y)) (uniq t)
  end.

End PyStr.

(** ** Regular expressions

    The fragment of Python's [re] that the sources use, with the
    backtracking order of the real engine: alternatives left to right,
    greedy repetition longest first, lazy repetition shortest first.
    Every repetition in the sources is over a single character class. *)

Module Re.
Import PyStr.

Inductive re :=
| Eps
| Cls (p : ascii -> bool)
| Rep (greedy : bool) (p : ascii -> bool) (min : nat)
| Seq (r1 r2 : re)
| Alt (r1 r2 : re)
| Opt (r : re)
| Grp (n : nat) (r : re)
| WordB
| Bol
| Eol.

Definition captures := list (nat * str).

(** Matcher state: the character before the current position, the text
    from the current position on, and the groups captured so far. *)
Record mstate := MState {
  m_prev : option ascii;
  m_rest : str;
  m_caps : captures
}.

Definition is_word_opt (o : option ascii) : bool :=
  match o with
  | Some c => is_word c
  | None => false
  end.

Definition at_boundary (prev : option ascii) (rest : str) : bool :=
  xorb (is_word_opt prev) (is_word_opt (head rest)).

(** Text consumed between two positions of the same subject. *)
Definition consumed (from to : str) : str :=
  firstn (length from - length to) from.

Fixpoint rep_greedy (p : ascii -> bool) (n : nat) (prev : option ascii)
    (l : str) (caps : captures) (k : mstate -> option mstate) : option mstate :=
  let stop := match n with
              | O => k (MState prev l caps)
              | S _ => None
              end in
  match l with
  | c :: t =>
      if p c
      then match rep_greedy p (pred n) (Some c) t caps k with
           | Some r => Some r
           | None => stop
           end
      else stop
  | [] => stop
  end.

Fixpoint rep_lazy (p : ascii -> bool) (n : nat) (prev : option ascii)
    (l : str) (caps : captures) (k : mstate -> option mstate) : option mstate :=
  let more := match l with
              | c :: t => if p c then rep_lazy p (pred n) (Some c) t caps k else None
              | [] => None
              end in
  match n with
  | O => match k (MState prev l caps) with
         | Some r => Some r
         | None => more
         end
  | S _ => more
  end.

Fixpoint rmatch (r : re) (st : mstate) (k : mstate -> option mstate) : option mstate :=
  match r with
  | Eps => k st
  | Cls p =>
      match m_rest st with
      | c :: t => if p c then k (MState (Some c) t (m_caps st)) else None
      | [] => None
      end
  | Rep true p n => rep_greedy p n (m_prev st) (m_rest st) (m_caps st) k
  | Rep false p n => rep_lazy p n (m_prev st) (m_rest st) (m_caps st) k
  | Seq a b => rmatch a st (fun st' => rmatch b st' k)
  | Alt a b =>
      match rmatch a st k with
      | Some res => Some res
      | None => rmatch b st k
      end
  | Opt a =>
      match rmatch a st k with
      | Some res => Some res
      | None => k st
      end
  | Grp n a =>
      rmatch a st (fun st' =>
        k (MState (m_prev st') (m_rest st')
             ((n, consumed (m_rest st) (m_rest st')) :: m_caps st')))
  | WordB => if at_boundary (m_prev st) (m_rest st) then k st else None
  | Bol => match m_prev st with
           | None => k st
           | Some _ => None
           end
  | Eol => match m_rest st with
           | [] => k st
           | [c] => if Ascii.eqb c nl then k st else None
           | _ => None
           end
  end.

(** A match object: [group(0)] and the numbered groups. *)
Record rmatch_obj := MatchObj {
  group0 : str;
  groups : captures
}.

Fixpoint lookup_cap (n : nat) (caps : captures) : str :=
  match caps with
  | [] => []
  | (m, s) :: t => if Nat.eqb n m then s else lookup_cap n t
  end.

Definition group (n : nat) (m : rmatch_obj) : str := lookup_cap n (groups m).

(** The match that starts at the current position, if any. *)
Definition match_at (r : re) (prev : option ascii) (s : str) : option rmatch_obj :=
  match rmatch r (MState prev s []) Some with
  | Some st => Some (MatchObj (consumed s (m_rest st)) (m_caps st))
  | None => None
  end.

(** [re.match(r, s)]. *)
Definition re_match (r : re) (s : str) : option rmatch_obj := match_at r None s.

(** [re.search(r, s)]: the leftmost match. *)
Fixpoint search_from (r : re) (prev : option ascii) (s : str) : option rmatch_obj :=
  match match_at r prev s with
  | Some m => Some m
  | None =>
      match s with
      | [] => None
      | c :: t => search_from r (Some c) t
      end
  end.
Definition re_search (r : re) (s : str) : option rmatch_obj := search_from r None s.

(** [re.finditer(r, s)] for a pattern that matches no empty text: the
    successive non-overlapping matches, left to right.  [skip] counts the
    characters of the current match that are still to be passed. *)
Fixpoint finditer_go (r : re) (prev : option ascii) (s : str) (skip : nat)
    : list rmatch_obj :=
  match skip with
  | S k =>
      match s with
      | [] => []
      | c :: t => finditer_go r (Some c) t k
      end
  | O =>
      match match_at r prev s with
      | Some m =>
          m :: match s with
               | [] => []
               | c :: t => finditer_go r (Some c) t (length (group0 m) - 1)
               end
      | None =>
          match s with
          | [] => []
          | c :: t => finditer_go r (Some c) t 0
          end
      end
  end.
Definition finditer (r : re) (s : str) : list rmatch_obj := finditer_go r None s 0.

(** [re.sub(r, repl, s)] with [repl] a function of the match, for a
    pattern that matches no empty text. *)
Fixpoint sub_go (r : re) (repl : rmatch_obj -> str) (prev : option ascii)
    (s : str) (skip : nat) : str :=
  match skip with
  | S k =>
      match s with
      | [] => []
      | c :: t => sub_go r repl (Some c) t k
      end
  | O =>
      match match_at r prev s with
      | Some m =>
          repl m ++ match s with
                    | [] => []
                    | c :: t =>
                        match length (group0 m) with
                        | O => c :: sub_go r repl (Some c) t 0
                        | S k => sub_go r repl (Some c) t k
                        end
                    end
      | None =>
          match s with
          | [] => []
          | c :: t => c :: sub_go r repl (Some c) t 0
          end
      end
  end.
Definition sub (r : re) (repl : rmatch_obj -> str) (s : str) : str :=
  sub_go r repl None s 0.

(** *** Pattern syntax *)

Definition chr (c : ascii) : re := Cls (Ascii.eqb c).
(** A letter under [re.IGNORECASE]. *)
Definition chri (c : ascii) : re := Cls (fun x => Ascii.eqb (upper_c x) (upper_c c)).

Definition seq (l : list re) : re := fold_right Seq Eps l.
Definition lit (s : str) : re := seq (map chr s).
Definition liti (s : str) : re := seq (map chri s).
Fixpoint alts (l : list re) : re :=
  match l with
  | [] => Cls (fun _ => false)
  | [r] => r
  | r :: t => Alt r (alts t)
  end.

Definition any_of (s : str) (c : ascii) : bool := has_char c s.
Definition none_of (s : str) (c : ascii) : bool := negb (has_char c s).

Definition spaces0 : re := Rep true is_space 0.  (* \s* *)
Definition spaces1 : re := Rep true is_space 1.  (* \s+ *)
Definition digits1 : re := Rep true is_digit 1.  (* \d+ *)

End Re.

(** ** Shared data model *)

(** A table of the chart context: [{name, columns, base_sql?}].  An absent
    or empty name is the empty string. *)
Record TableRef := mkTable {
  t_name : str;
  t_columns : list str;
  t_base_sql : option str
}.

(** [chart_context["tables"]]; a missing context is the empty list. *)
Definition ChartContext := list TableRef.

(** Truth value of a string. *)
Definition truthy (s : str) : bool :=
  match s with
  | [] => false
  | _ :: _ => true
  end.

Definition truthy_list {A} (l : list A) : bool :=
  match l with
  | [] => false
  | _ :: _ => true
  end.

Definition truthy_opt (o : option str) : bool :=
  match o with
  | Some s => truthy s
  | None => false
  end.

(** [o is not None] *)
Definition is_some {A} (o : option A) : bool :=
  match o with
  | Some _ => true
  | None => false
  end.

(** Outcome of a guard: it returns, or raises [ValueError(msg)]. *)
Inductive outcome :=
| Allowed
| Rejected (msg : str).

(** [os.getenv(name, "false").strip().lower() in ("1", "true", "yes", "on")];
    [None] is the unset variable. *)
Definition env_flag (v : option str) : bool :=
  PyStr.mem (PyStr.lower (PyStr.strip (default "false" v))) ["1"; "true"; "yes"; "on"].

(** JSON values, as the tool arguments and results carry them.  Numbers
    are integers here; the keys of an object are distinct. *)
Inductive json :=
| JNull
| JBool (b : bool)
| JNum (n : Z)
| JStr (s : str)
| JList (l : list json)
| JDict (d : list (str * json)).

(** Truth value of a JSON value in a condition. *)
Definition json_truthy (j : json) : bool :=
  match j with
  | JNull => false
  | JBool b => b
  | JNum n => negb (Z.eqb n 0)
  | JStr s => truthy s
  | JList l => match l with [] => false | _ :: _ => true end
  | JDict d => match d with [] => false | _ :: _ => true end
  end.

(** [type(j).__name__] *)
Definition type_name (j : json) : str :=
  match j with
  | JNull => "NoneType"
  | JBool _ => "bool"
  | JNum _ => "int"
  | JStr _ => "str"
  | JList _ => "list"
  | JDict _ => "dict"
  end.

Fixpoint assoc {A} (k : str) (d : list (str * A)) : option A :=
  match d with
  | [] => None
  | (k', v) :: t => if PyStr.str_eqb k k' then Some v else assoc k t
  end.

(** [d.get(k)] on a dict: [None] for a missing key. *)
Definition dict_get (d : list (str * json)) (k : str) : json :=
  default JNull (assoc k d).

(** [a or b] *)
Definition py_or (a b : json) : json := if json_truthy a then a else b.

(** Exceptions that the validators catch; [exn_msg] is [str(e)]. *)
Inductive exn :=
| AttributeError (ty attr : str).

(** A value, or the exception raised instead. *)
Inductive result (A : Type) :=
| Ok (a : A)
| Raise (e : exn).
Arguments Ok {A} a.
Arguments Raise {A} e.

Definition exn_msg (e : exn) : str :=
  match e with
  | AttributeError ty attr => "'" ++ ty ++ "' object has no attribute '" ++ attr ++ "'"
  end.

(** ** backend/src/app/db.py *)

Module Db.
Import PyStr Re.

Definition BLOCKED : list str :=
  ["INSERT"; "UPDATE"; "DELETE"; "DROP"; "ALTER"; "CREATE"; "GRANT";
   "REVOKE"; "TRUNCATE"; "VACUUM"; "SET"; "COPY"].

(** [\b(INSERT|UPDATE|...|COPY)\b] *)
Definition RE_BLOCKED : re := seq [WordB; Grp 1 (alts (map lit BLOCKED)); WordB].

Definition enforce_readonly_mode (strict : bool) (sql : str) : outcome :=
  if negb (truthy sql) then Rejected "Query must be a non-empty string"
  else
    let s := strip sql in
    let su := upper s in
    if is_some (re_search RE_BLOCKED su)
    then Rejected "Only read-only queries are permitted"
    else if strict then
      if has_char ";" (rstrip_of (Ascii.eqb ";") (strip su))
      then Rejected "Multiple statements are not allowed in strict read-only mode"
      else if startswith su "(" then Allowed
      else if startswith su "SELECT" || startswith su "WITH" then Allowed
      else Rejected "Only SELECT/WITH statements are allowed in strict read-only mode"
    else
      if existsb (startswith su) ["SELECT"; "WITH"; "EXPLAIN"; "VALUES"]
         || startswith su "("
      then Allowed
      else if contains "SELECT" su then Allowed
      else Rejected "Only read-only SELECT/CTE statements are allowed".

(** [env] is the value of [DB_READONLY_STRICT]. *)
Definition enforce_readonly (env : option str) (sql : str) : outcome :=
  enforce_readonly_mode (env_flag env) sql.

Definition _strip_quotes (name0 : str) : str :=
  let name := strip name0 in
  if startswith name [dquote] && endswith name [dquote]
  then removelast (tl name)
  else if startswith name [squote] && endswith name [squote]
  then removelast (tl name)
  else name.

Definition ident_class (c : ascii) : bool :=
  is_word c || Ascii.eqb c "." || Ascii.eqb c dquote.

(** [\bfrom\s+([\w\.\"]+)] and [\bjoin\s+([\w\.\"]+)], IGNORECASE *)
Definition RE_FROM : re := seq [WordB; liti "from"; spaces1; Grp 1 (Rep true ident_class 1)].
Definition RE_JOIN : re := seq [WordB; liti "join"; spaces1; Grp 1 (Rep true ident_class 1)].

Definition table_of_match (m : rmatch_obj) : str :=
  lower (List.last (split "." (_strip_quotes (group 1 m))) []).

Definition _extract_tables (sql_text : str) : list str :=
  uniq (flat_map (fun pat => map table_of_match (finditer pat sql_text))
                 [RE_FROM; RE_JOIN]).

Definition allowed_tables (ctx : ChartContext) : list str :=
  map (fun t => lower (t_name t)) (List.filter (fun t => truthy (t_name t)) ctx).

Definition enforce_allowlist_mode (strict : bool) (sql : str) (ctx : ChartContext)
    : outcome :=
  match ctx with
  | [] => Allowed
  | _ :: _ =>
      let allowed := allowed_tables ctx in
      match allowed with
      | [] => Allowed
      | _ :: _ =>
          let s := sql in
          let sl := lower s in
          if negb strict then
            if negb (contains " from " (" " ++ sl ++ " ")) then Allowed
            else if negb (existsb (fun t => truthy t && contains t sl) allowed)
            then Rejected "Query must reference at least one allowed table from context"
            else Allowed
          else
            let referenced := _extract_tables s in
            match referenced with
            | [] => Rejected "A FROM/JOIN referencing allowed tables is required in strict allowlist mode"
            | _ :: _ =>
                match find (fun t => negb (mem t (map lower allowed))) referenced with
                | Some t => Rejected ("Referenced table '" ++ t ++ "' is not in the allowed context")
                | None => Allowed
                end
            end
      end
  end.

(** [env] is the value of [DB_ALLOWLIST_STRICT]. *)
Definition enforce_allowlist (env : option str) (sql : str) (ctx : ChartContext)
    : outcome :=
  enforce_allowlist_mode (env_flag env) sql ctx.

End Db.

(** ** backend/src/mcp_tools/db_server.py: normaliser and virtual tables *)

Module DbServer.
Import PyStr Re.

Definition _FMT_MAP : list (str * str) :=
  [("%Y", "YYYY"); ("%y", "YY"); ("%m", "MM"); ("%d", "DD");
   ("%H", "HH24"); ("%h", "HH12"); ("%i", "MI"); ("%s", "SS")].

Definition _map_datefmt (fmt : str) : str :=
  fold_left (fun out kv => replace (fst kv) (snd kv) out) _FMT_MAP fmt.

Definition UNITS : list str := ["YEAR"; "MONTH"; "DAY"; "HOUR"; "MINUTE"; "SECOND"].

(** [\bCURDATE\s*\(\s*\)\b] *)
Definition RE_CURDATE : re :=
  seq [WordB; liti "CURDATE"; spaces0; chr "("; spaces0; chr ")"; WordB].

(** [NAME\s*\(\s*(?P<expr>[^,]+?)\s*,\s*INTERVAL\s+(?P<num>\d+)\s+(?P<unit>YEAR|...|SECOND)\s*\)]
    with groups expr = 1, num = 2, unit = 3 *)
Definition RE_DATE_ARITH (fname : str) : re :=
  seq [liti fname; spaces0; chr "("; spaces0;
       Grp 1 (Rep false (none_of ",") 1); spaces0; chr ","; spaces0;
       liti "INTERVAL"; spaces1; Grp 2 digits1; spaces1;
       Grp 3 (alts (map liti UNITS)); spaces0; chr ")"].

Definition _date_arith (op : str) (m : rmatch_obj) : str :=
  let expr := strip (group 1 m) in
  let num := group 2 m in
  let unit := lower (group 3 m) in
  "(" ++ expr ++ ") " ++ op ++ " INTERVAL '" ++ num ++ " " ++ unit ++ "'".

Definition _date_sub : rmatch_obj -> str := _date_arith "-".
Definition _date_add : rmatch_obj -> str := _date_arith "+".

(** [UNIX_TIMESTAMP\s*\(\s*\)] *)
Definition RE_UNIX_NOW : re :=
  seq [liti "UNIX_TIMESTAMP"; spaces0; chr "("; spaces0; chr ")"].

(** [NAME\s*\(\s*([^\)]+)\s*\)] *)
Definition RE_CALL1 (fname : str) : re :=
  seq [liti fname; spaces0; chr "("; spaces0;
       Grp 1 (Rep true (none_of ")") 1); spaces0; chr ")"].

(** [\bIFNULL\s*\(] *)
Definition RE_IFNULL : re := seq [WordB; liti "IFNULL"; spaces0; chr "("].

(** [\bIF\s*\(\s*([^,]+)\s*,\s*([^,]+)\s*,\s*([^\)]+)\s*\)] *)
Definition RE_IF : re :=
  seq [WordB; liti "IF"; spaces0; chr "("; spaces0;
       Grp 1 (Rep true (none_of ",") 1); spaces0; chr ","; spaces0;
       Grp 2 (Rep true (none_of ",") 1); spaces0; chr ","; spaces0;
       Grp 3 (Rep true (none_of ")") 1); spaces0; chr ")"].

Definition _if_to_case (m : rmatch_obj) : str :=
  let cond := strip (group 1 m) in
  let a := strip (group 2 m) in
  let b := strip (group 3 m) in
  "CASE WHEN " ++ cond ++ " THEN " ++ a ++ " ELSE " ++ b ++ " END".

(** [NAME\s*\(\s*([^,]+?)\s*,\s*'([^']+)'\s*\)] *)
Definition RE_FMT_CALL (fname : str) : re :=
  seq [liti fname; spaces0; chr "("; spaces0;
       Grp 1 (Rep false (none_of ",") 1); spaces0; chr ","; spaces0;
       chr squote; Grp 2 (Rep true (none_of [squote]) 1); chr squote;
       spaces0; chr ")"].

Definition _fmt_call (target : str) (m : rmatch_obj) : str :=
  let expr := strip (group 1 m) in
  let fmt := group 2 m in
  let mapped := _map_datefmt fmt in
  target ++ "(" ++ expr ++ ", '" ++ mapped ++ "')".

Definition _date_format : rmatch_obj -> str := _fmt_call "to_char".
Definition _str_to_date : rmatch_obj -> str := _fmt_call "to_date".

(** [\bLIMIT\s+(\d+)\s*,\s*(\d+)] *)
Definition RE_LIMIT : re :=
  seq [WordB; liti "LIMIT"; spaces1; Grp 1 digits1; spaces0; chr ",";
       spaces0; Grp 2 digits1].

(** The rewrites of [normalize_sql] after the back-tick replacement, in
    source order: pattern and replacement. *)
Definition RULES : list (re * (rmatch_obj -> str)) :=
  [ (RE_CURDATE, fun _ => "CURRENT_DATE");
    (RE_DATE_ARITH "DATE_SUB", _date_sub);
    (RE_DATE_ARITH "DATE_ADD", _date_add);
    (RE_UNIX_NOW, fun _ => "EXTRACT(EPOCH FROM now())");
    (RE_CALL1 "UNIX_TIMESTAMP", fun m => "EXTRACT(EPOCH FROM " ++ group 1 m ++ ")");
    (RE_CALL1 "FROM_UNIXTIME", fun m => "to_timestamp(" ++ group 1 m ++ ")");
    (RE_IFNULL, fun _ => "COALESCE(");
    (RE_IF, _if_to_case);
    (RE_FMT_CALL "DATE_FORMAT", _date_format);
    (RE_FMT_CALL "STR_TO_DATE", _str_to_date);
    (Seq WordB (RE_CALL1 "YEAR"), fun m => "EXTRACT(YEAR FROM " ++ group 1 m ++ ")");
    (Seq WordB (RE_CALL1 "MONTH"), fun m => "EXTRACT(MONTH FROM " ++ group 1 m ++ ")");
    (RE_LIMIT, fun m => "LIMIT " ++ group 2 m ++ " OFFSET " ++ group 1 m) ].

Definition apply_rule (s : str) (rule : re * (rmatch_obj -> str)) : str :=
  sub (fst rule) (snd rule) s.

Definition normalize_sql (sql : str) : str :=
  let s := sql in
  let s := replace "`" [dquote] s in
  fold_left apply_rule RULES s.

(** [^query_result(_\d+)?$] *)
Definition RE_VIRTUAL_NAME : re :=
  seq [Bol; lit "query_result"; Opt (Grp 1 (seq [chr "_"; digits1])); Eol].

(** [\bquery_result(?:_\d+)?\b], IGNORECASE *)
Definition RE_ALIAS : re :=
  seq [WordB; liti "query_result"; Opt (seq [chr "_"; digits1]); WordB].

Definition is_virtual_name (name : str) : bool :=
  is_some (re_match RE_VIRTUAL_NAME name).

(** Tables with a truthy [base_sql] and a virtual name, as (alias, base_sql). *)
Fixpoint backed_virtuals (tables : ChartContext) : list (str * str) :=
  match tables with
  | [] => []
  | t :: rest =>
      match t_base_sql t with
      | Some base =>
          if truthy base && is_virtual_name (t_name t)
          then (t_name t, base) :: backed_virtuals rest
          else backed_virtuals rest
      | None => backed_virtuals rest
      end
  end.

Definition real_tables (tables : ChartContext) : list str :=
  map t_name
    (List.filter (fun t => truthy (t_name t) && negb (is_virtual_name (t_name t))) tables).

(** The replacement string given to [re.sub] is a template.  One without a
    backslash stands for itself; the expansion (or rejection) of one with a
    backslash escape is not modelled: [None]. *)
Definition expand_template (repl : str) : option str :=
  if has_char backslash repl then None else Some repl.

Definition _inject_virtual_table (sql : str) (tables : ChartContext) : option str :=
  let s := strip sql in
  let virtuals := backed_virtuals tables in
  match virtuals with
  | _ :: _ =>
      let prefix :=
        join ("," ++ [nl]) (map (fun ab => fst ab ++ " AS (" ++ snd ab ++ ")") virtuals) in
      if startswith (upper s) "WITH "
      then let after_with := lstrip (skipn 5 s) in
           Some ("WITH " ++ prefix ++ "," ++ [nl] ++ after_with)
      else Some ("WITH " ++ prefix ++ [nl] ++ s)
  | [] =>
      if is_some (re_search RE_ALIAS s)
      then match real_tables tables with
           | [target] =>
               match expand_template target with
               | Some text => Some (sub RE_ALIAS (fun _ => text) s)
               | None => None
               end
           | _ => Some s
           end
      else Some s
  end.

(** *** db_query *)

(** Calls that [db_query] makes to its collaborators, in order. *)
Inductive call :=
| CallLog (msg : str)
| CallEnforceReadonly (sql : str)
| CallEnforceAllowlist (sql : str)
| CallQuery (sql : str) (params : json).

Inductive query_result :=
| QMissing (error : str) (missingVirtuals availableVirtuals : list str) (hint sql : str)
| QRows (rows : json)
| QRaised (msg : str).

Definition MISSING_ERROR : str := "Missing virtual tables in chartContext".
Definition MISSING_HINT : str :=
  "When only a single table is available, avoid referencing query_result_2; use single-table techniques (self-join or conditional aggregation) or request additional context.".

Definition available_virtuals (tables : ChartContext) : list str :=
  map t_name
    (List.filter (fun t => truthy (t_name t) && is_virtual_name (t_name t)
                           && truthy_opt (t_base_sql t)) tables).

Definition used_virtuals (sql : str) : list str := map group0 (finditer RE_ALIAS sql).

Definition missing_virtuals (sql : str) (tables : ChartContext) : list str :=
  let used_norm := map lower (used_virtuals sql) in
  let avail_norm := map lower (available_virtuals tables) in
  sorted_set (List.filter (fun u => negb (mem u avail_norm)) used_norm).

Section Executor.
(** Values of [DB_READONLY_STRICT] and [DB_ALLOWLIST_STRICT]. *)
Variables env_ro env_allow : option str.
(** [app.db.query]: the rows, or the driver's exception. *)
Variable execute : str -> json -> json + str.

(** The pipeline after injection, shared by [db_query] and the agent's
    [_tool_db_query]. *)
Definition guarded_query (normalized : str) (tables : ChartContext) (params : json)
    : list call * query_result :=
  let missing := missing_virtuals normalized tables in
  if truthy_list missing && negb (length (real_tables tables) =? 1)
  then ([], QMissing MISSING_ERROR missing
               (sorted_set (map lower (available_virtuals tables)))
               MISSING_HINT normalized)
  else
    match Db.enforce_readonly env_ro normalized with
    | Rejected msg => ([CallEnforceReadonly normalized], QRaised msg)
    | Allowed =>
        match Db.enforce_allowlist env_allow normalized tables with
        | Rejected msg =>
            ([CallEnforceReadonly normalized; CallEnforceAllowlist normalized],
             QRaised msg)
        | Allowed =>
            let calls := [CallEnforceReadonly normalized;
                          CallEnforceAllowlist normalized;
                          CallQuery normalized params] in
            match execute normalized params with
            | inl rows => (calls, QRows rows)
            | inr msg => (calls, QRaised msg)
            end
        end
    end.

Definition db_query (sql : str) (chartContext : ChartContext) (params : json)
    : option (list call * query_result) :=
  let normalized := normalize_sql sql in
  let logged :=
    if negb (str_eqb sql normalized)
    then [CallLog ("Normalized SQL for Postgres:" ++ [nl] ++ "ORIG: " ++ sql
                   ++ [nl] ++ "NORM: " ++ normalized)]
    else [] in
  match _inject_virtual_table normalized chartContext with
  | None => None
  | Some injected =>
      let '(calls, res) := guarded_query injected chartContext params in
      Some (logged ++ calls, res)
  end.
End Executor.

(** *** plot_render *)

Inductive ValidationResult :=
| Checked (ok : bool) (issues : list str) (allowedColumns allowedAliases : list str)
          (allowedColumnsByTable : list (str * list str)) (referencedFields : list str)
| Crashed (issues : list str).

Definition vr_ok (r : ValidationResult) : bool :=
  match r with
  | Checked ok _ _ _ _ _ => ok
  | Crashed _ => false
  end.

Definition vr_issues (r : ValidationResult) : list str :=
  match r with
  | Checked _ issues _ _ _ _ => issues
  | Crashed issues => issues
  end.

Definition allowed_columns_union (tables : ChartContext) : list str :=
  flat_map (fun t => map lower (t_columns t)) tables.

(** The dict comprehension keyed by table name: a later table of the
    same name replaces an earlier one. *)
Definition allowed_by_alias (tables : ChartContext) : gmap str (list str) :=
  fold_left (fun m t => if truthy (t_name t)
                        then <[t_name t := map lower (t_columns t)]> m
                        else m)
            tables ∅.

Definition alias_names (tables : ChartContext) : list str :=
  map t_name (List.filter (fun t => truthy (t_name t)) tables).

Section Validator.
(** [str(v)] for a value that is not a string. *)
Variable str_of : json -> str.

Definition py_str (j : json) : str :=
  match j with
  | JStr s => s
  | _ => str_of j
  end.

Definition extract_field (v : json) : json :=
  match v with
  | JStr _ => v
  | JDict d => py_or (dict_get d "field") (dict_get d "channel")
  | _ => JNull
  end.

Definition field_issue (f : json) (name : str) : str :=
  "Field not in context: " ++ py_str f ++ " (encoding." ++ name ++ ")".

(** The validator's mutable state: [issues] and [used_fields]. *)
Definition vstate : Type := list str * list str.

Definition check_field (tables : ChartContext) (v : json) (name : str) (st : vstate)
    : vstate :=
  let f := extract_field v in
  if negb (json_truthy f) then st
  else
    let '(issues, used) := st in
    let used := used ++ [py_str f] in
    if has_char "." (py_str f) then
      let '(alias, col) := split1 "." (py_str f) in
      match allowed_by_alias tables !! alias with
      | Some cols =>
          if negb (mem (lower col) cols)
          then (issues ++ [field_issue f name], used)
          else (issues, used)
      | None => (issues ++ [field_issue f name], used)
      end
    else if negb (mem (lower (py_str f)) (allowed_columns_union tables))
    then (issues ++ [field_issue f name], used)
    else (issues, used).

Definition CANDLESTICK_KEYS : list str := ["x"; "open"; "high"; "low"; "close"].

Definition check_candlestick (tables : ChartContext) (enc : list (str * json))
    (st : vstate) : vstate :=
  fold_left (fun st k =>
               match assoc k enc with
               | None => (fst st ++ ["Missing encoding." ++ k ++ " for candlestick"], snd st)
               | Some v => check_field tables v k st
               end)
            CANDLESTICK_KEYS st.

Definition is_candlestick (mark : json) : bool :=
  match mark with
  | JStr m => str_eqb (lower m) "candlestick"
  | _ => false
  end.

(** [(spec or {}).get(key)]: a falsy [spec] stands for the empty dict, a
    truthy one that is no dict has no attribute [get]. *)
Definition or_empty_get (spec : json) (key : str) : result json :=
  if negb (json_truthy spec) then Ok JNull
  else match spec with
       | JDict d => Ok (dict_get d key)
       | _ => Raise (AttributeError (type_name spec) "get")
       end.

(** [spec.get(key)] *)
Definition plain_get (spec : json) (key : str) : result json :=
  match spec with
  | JDict d => Ok (dict_get d key)
  | _ => Raise (AttributeError (type_name spec) "get")
  end.

(** [(spec or {}).get("encoding", {}) or {}] followed by [enc.items()]. *)
Definition encoding_items (spec : json) : result (list (str * json)) :=
  match or_empty_get spec "encoding" with
  | Raise e => Raise e
  | Ok enc =>
      if negb (json_truthy enc) then Ok []
      else match enc with
           | JDict d => Ok d
           | _ => Raise (AttributeError (type_name enc) "items")
           end
  end.

(** The body of the [try] block; [get_mark] reads [spec["mark"]]. *)
Definition validate_body (get_mark : json -> str -> result json)
    (spec : json) (tables : ChartContext) : result ValidationResult :=
  match encoding_items spec with
  | Raise e => Raise e
  | Ok enc =>
      let st := fold_left (fun st kv => check_field tables (snd kv) (fst kv) st)
                          enc ([], []) in
      match get_mark spec "mark" with
      | Raise e => Raise e
      | Ok mark =>
          let st := if is_candlestick mark then check_candlestick tables enc st
                    else st in
          let issues := fst st in
          Ok (Checked (length issues =? 0) issues
                 (sorted_set (allowed_columns_union tables))
                 (sorted_set (alias_names tables))
                 (map (fun k => (k, sorted_set (default [] (allowed_by_alias tables !! k))))
                      (uniq (alias_names tables)))
                 (sorted_set (snd st)))
      end
  end.

Definition catch_all (r : result ValidationResult) : ValidationResult :=
  match r with
  | Ok v => v
  | Raise e => Crashed [exn_msg e]
  end.

Definition plot_render (spec : json) (chartContext : ChartContext) : ValidationResult :=
  catch_all (validate_body plain_get spec chartContext).
End Validator.

(** *** db_describe *)

(** The allowed schema of a chart context: its table list, or the one
    table of the legacy shape [{"query_result": {column: type, ...}}], or
    nothing. *)
Definition db_describe (chartContext : json) : json :=
  match chartContext with
  | JDict d =>
      let tbls := dict_get d "tables" in
      match tbls with
      | JList _ => tbls
      | _ =>
          let q := dict_get d "query_result" in
          match q with
          | JDict qd =>
              JList [JDict [("name", JStr "query_result");
                            ("columns", JList (map (fun kv => JStr (fst kv)) qd))]]
          | _ => JList []
          end
      end
  | _ => JList []
  end.

End DbServer.

(** ** backend/src/app/agent.py *)

Module Agent.
Import PyStr Re DbServer.

(** [\bquery_result(?:_\d+)?\b], IGNORECASE, compiled once. *)
Definition _ALIAS_RE : re := RE_ALIAS.

(** *** Local tools *)

Definition _tool_db_query (env_ro env_allow : option str)
    (execute : str -> json -> json + str)
    (sql : str) (chart_context : ChartContext) (params : json)
    : option (list call * query_result) :=
  let sqln := normalize_sql sql in
  match _inject_virtual_table sqln chart_context with
  | None => None
  | Some sqln =>
      Some (guarded_query env_ro env_allow execute sqln chart_context
              (py_or params (JList [])))
  end.

Definition _tool_plot_render (str_of : json -> str) (spec : json)
    (chart_context : ChartContext) : ValidationResult :=
  catch_all (validate_body str_of or_empty_get spec chart_context).

(** *** Dataset binding *)

(** An entry of [prior_queries]. *)
Record QueryRecord := mkQuery {
  q_sql : option str;
  q_normalized_sql : option str;
  q_injected_sql : option str;
  q_result : json
}.

(** [rows]: the list under [result["rows"]], when [result] is a dict that
    has one. *)
Definition rows_of (result : json) : option (list json) :=
  match py_or result (JDict []) with
  | JDict d =>
      match dict_get d "rows" with
      | JList rr => Some rr
      | _ => None
      end
  | _ => None
  end.

(** [a or b or c or ""] *)
Definition sql_text_of (q : QueryRecord) : str :=
  if truthy_opt (q_injected_sql q) then default "" (q_injected_sql q)
  else if truthy_opt (q_normalized_sql q) then default "" (q_normalized_sql q)
  else if truthy_opt (q_sql q) then default "" (q_sql q)
  else "".

Definition aliases_of (q : QueryRecord) : list str :=
  map group0 (finditer _ALIAS_RE (sql_text_of q)).

Definition bind_if_absent (rows : list json) (datasets : gmap str (list json)) (a : str)
    : gmap str (list json) :=
  match datasets !! a with
  | Some _ => datasets
  | None => <[a := rows]> datasets
  end.

(** One iteration of the loop over the prior queries. *)
Definition bind_record (datasets : gmap str (list json)) (q : QueryRecord)
    : gmap str (list json) :=
  match rows_of (q_result q) with
  | None => datasets
  | Some rows =>
      let aliases := aliases_of q in
      let datasets :=
        if negb (truthy_list aliases) then bind_if_absent rows datasets "query_result"
        else datasets in
      fold_left (bind_if_absent rows) aliases datasets
  end.

Definition accumulate (prior_queries : list QueryRecord) : gmap str (list json) :=
  fold_left bind_record (rev prior_queries) ∅.

Definition keep_referenced (datasets filtered : gmap str (list json)) (n : str)
    : gmap str (list json) :=
  match datasets !! n with
  | Some rows => <[n := rows]> filtered
  | None =>
      if str_eqb (lower n) "query_result"
      then match datasets !! "query_result" with
           | Some rows => <["query_result" := rows]> filtered
           | None => filtered
           end
      else filtered
  end.

Definition _build_datasets_from_prior_queries (referenced_names : list str)
    (prior_queries : list QueryRecord) : gmap str (list json) :=
  match prior_queries with
  | [] => ∅
  | _ :: _ =>
      let datasets := accumulate prior_queries in
      match referenced_names with
      | _ :: _ => fold_left (keep_referenced datasets) referenced_names ∅
      | [] => datasets
      end
  end.

(** *** Chart context of a tool call *)

(** [_ensure_chart_context(args_ctx, fallback_ctx)]: the context of the
    tool arguments when it has a table list, its legacy shape coerced, else
    the fallback context when that has a table list, else the empty
    context. *)
Definition _ensure_chart_context (args_ctx fallback_ctx : json) : json :=
  let fallback :=
    match fallback_ctx with
    | JDict fd =>
        match dict_get fd "tables" with
        | JList _ => fallback_ctx
        | _ => JDict [("tables", JList [])]
        end
    | _ => JDict [("tables", JList [])]
    end in
  match args_ctx with
  | JDict d =>
      match dict_get d "tables" with
      | JList _ => args_ctx
      | _ =>
          match dict_get d "query_result" with
          | JDict qd =>
              let cols := map (fun kv => JStr (fst kv)) qd in
              JDict [("tables",
                      JList [JDict [("name", JStr "query_result");
                                    ("columns", JList cols)]])]
          | _ => fallback
          end
      end
  | _ => fallback
  end.

(** [(chart_context or {}).get("tables", [])], or the error of a context
    without [get]. *)
Definition _tool_db_describe (chart_context : json) : json :=
  if negb (json_truthy chart_context) then JList []
  else match chart_context with
       | JDict d => default (JList []) (assoc "tables" d)
       | _ => JDict [("error",
                      JStr (exn_msg (AttributeError (type_name chart_context) "get")))]
       end.

(** *** Dataset names of a chart spec *)

(** [visit]: the name under [data.name] of a spec, then those of the
    specs of its [layer] list, in depth. *)
Fixpoint visit (s : json) : list str :=
  match s with
  | JDict d =>
      (match dict_get d "data" with
       | JDict dd =>
           match dict_get dd "name" with
           | JStr nm => [nm]
           | _ => []
           end
       | _ => []
       end)
      ++ (fix get_layer (entries : list (str * json)) : list str :=
            match entries with
            | [] => []
            | (k, v) :: rest =>
                if str_eqb "layer" k
                then match v with
                     | JList lyr =>
                         (fix each (subs : list json) : list str :=
                            match subs with
                            | [] => []
                            | sub :: more => visit sub ++ each more
                            end) lyr
                     | _ => []
                     end
                else get_layer rest
            end) d
  | _ => []
  end.

(** [list(names)] for the set that [visit(spec or {})] fills: distinct
    names, in an order that the language leaves open. *)
Definition _collect_dataset_names_from_spec (spec : json) : list str :=
  dedup (visit (py_or spec (JDict []))).

(** The datasets that the agent adds to the result of a [plot_render]
    call with the arguments [args]: those built for the names that the spec
    references, when the result is a dict and there is any; [None] leaves
    the result as it is. *)
Definition plot_datasets (args : list (str * json)) (result : json)
    (prior_queries : list QueryRecord) : option (gmap str (list json)) :=
  let spec := py_or (dict_get args "spec") (JDict []) in
  let referenced := _collect_dataset_names_from_spec spec in
  let datasets := _build_datasets_from_prior_queries referenced prior_queries in
  match result with
  | JDict _ => if bool_decide (datasets = ∅) then None else Some datasets
  | _ => None
  end.


(** *** Streaming run *)

(** Events that [run_agent_stream] yields.  The fallback events and the
    last-resort error carry no request id. *)
Inductive event :=
| Ev_tool_call_started (tool : option str) (arguments : json) (request_id : str)
                       (normalized_sql injected_sql : option str)
| Ev_tool_chunk (tool : option str) (delta : str) (request_id : str)
| Ev_tool_result (tool : option str) (result : json) (request_id : str)
| Ev_chunk (delta : str) (request_id : option str)
| Ev_done (answer : str) (request_id : option str)
| Ev_error (msg : str) (request_id : option str).

(** What the collaborators do during one run.  A tool call either raises
    before its first event (malformed arguments) or runs; the values its
    events carry (arguments with the coerced chart context, the SQL variants,
    the tool's result with its datasets, and its JSON text) are taken from
    the script. *)
Inductive tool_step :=
| ToolRuns (name : option str) (args : json) (norm_sql inj_sql : option str)
           (result : json) (result_str : str)
| ToolFails (msg : str).

(** One completion request: tool calls, no tool calls (then the token
    stream: the [delta.content] of each event and, if the stream breaks,
    its exception), or an exception. *)
Inductive completion :=
| WithToolCalls (calls : list tool_step)
| NoToolCalls (stream : list (option str)) (failure : option str)
| RequestFails (msg : str).

(** [result_str[i:i+size]] for [i] in [range(0, len(result_str), size)]:
    [cur] is the slice under construction, reversed, and [room] what it
    still admits. *)
Fixpoint slices_go (size : nat) (s : str) (cur : str) (room : nat) : list str :=
  match s with
  | [] => match cur with
          | [] => []
          | _ :: _ => [rev cur]
          end
  | c :: t =>
      match room with
      | O | S O => rev (c :: cur) :: slices_go size t [] size
      | S r => slices_go size t (c :: cur) r
      end
  end.
Definition slices (size : nat) (s : str) : list str := slices_go size s [] size.

Definition FAKE : list str :=
  ["AI agent is not available.";
   " Please configure your AI providers in the backend ";
   "environment to enable streaming responses."].

(** The fallback loop: [assembled += piece; yield chunk]. *)
Fixpoint fallback_loop (pieces : list str) (assembled : str) : list event * str :=
  match pieces with
  | [] => ([], assembled)
  | piece :: rest =>
      let '(evs, final) := fallback_loop rest (assembled ++ piece) in
      (Ev_chunk piece None :: evs, final)
  end.

(** The token loop: empty deltas are skipped. *)
Fixpoint stream_loop (rid : str) (stream : list (option str)) (assembled : str)
    : list event * str :=
  match stream with
  | [] => ([], assembled)
  | delta :: rest =>
      if negb (truthy_opt delta) then stream_loop rid rest assembled
      else
        let d := default "" delta in
        let '(evs, final) := stream_loop rid rest (assembled ++ d) in
        (Ev_chunk d (Some rid) :: evs, final)
  end.

(** Events of the tool calls of one round; [false] when a call raised. *)
Fixpoint run_tools (rid : str) (calls : list tool_step) : list event * bool :=
  match calls with
  | [] => ([], true)
  | ToolFails msg :: _ => ([Ev_error msg None], false)
  | ToolRuns name args norm_sql inj_sql result result_str :: rest =>
      let '(evs, ok) := run_tools rid rest in
      (Ev_tool_call_started name args rid norm_sql inj_sql
         :: map (fun d => Ev_tool_chunk name d rid) (slices 2048 result_str)
         ++ Ev_tool_result name result rid :: evs,
       ok)
  end.

(** The [while True] loop over the completions of the script.  A script
    that ends after a round of tool calls stands for a run observed up to
    that point. *)
Fixpoint run_rounds (rid : str) (script : list completion) : list event :=
  match script with
  | [] => []
  | RequestFails msg :: _ => [Ev_error msg None]
  | WithToolCalls calls :: rest =>
      let '(evs, ok) := run_tools rid calls in
      if ok then evs ++ run_rounds rid rest else evs
  | NoToolCalls stream failure :: _ =>
      let '(evs, assembled) := stream_loop rid stream "" in
      match failure with
      | Some msg => evs ++ [Ev_error msg (Some rid)]
      | None => evs ++ [Ev_done assembled (Some rid)]
      end
  end.

(** [configured]: whether a client was selected. *)
Definition run_agent_stream (configured : bool) (rid : str) (script : list completion)
    : list event :=
  if negb configured then
    let '(evs, assembled) := fallback_loop FAKE "" in
    evs ++ [Ev_done assembled None]
  else run_rounds rid script.

(** The text of the [chunk] events of a run, in order. *)
Fixpoint chunk_text (evs : list event) : str :=
  match evs with
  | [] => []
  | Ev_chunk d _ :: rest => d ++ chunk_text rest
  | _ :: rest => chunk_text rest
  end.

Definition is_done (e : event) : bool :=
  match e with
  | Ev_done _ _ => true
  | _ => false
  end.

End Agent.

Import PyStr Re.

(** ** Vocabulary of the specification *)

(** Character before the position reached after reading [w]. *)
Definition last_or (prev : option ascii) (w : str) : option ascii :=
  match last w with
  | Some c => Some c
  | None => prev
  end.

(** The character before a position and the one after it are no word
    characters (or there is none): a whole word lies between them. *)
Definition word_bounded (pre post : str) : Prop :=
  is_word_opt (last pre) = false /\ is_word_opt (head post) = false.

(** [sql] contains one of the blocked keywords as a whole word, in any
    letter case. *)
Definition has_keyword (sql : str) : Prop :=
  exists pre w post,
    sql = pre ++ w ++ post /\ In (upper w) Db.BLOCKED /\ word_bounded pre post.

(** The test of [enforce_readonly] for a blocked keyword. *)
Definition keyword_blocked (sql : str) : bool :=
  is_some (re_search Db.RE_BLOCKED (upper (strip sql))).

(** The statement, without the surrounding white space and in upper case,
    starts with [p]. *)
Definition leads (sql p : str) : bool := startswith (upper (strip sql)) p.

(** [sql] holds the letters of [word], in any case, somewhere. *)
Definition mentions (sql word : str) : Prop :=
  exists a w b, sql = a ++ w ++ b /\ upper w = word.

(** A semicolon with more than semicolons and white space after it. *)
Definition multi_statement (sql : str) : Prop :=
  exists a b c rest,
    sql = a ++ ";" ++ b ++ c :: rest /\ is_space c = false /\ c <> ";"%char.

(** The padded, lower-cased text in which the relaxed allowlist looks
    for [" from "]. *)
Definition padded_lower (sql : str) : str := " " ++ lower sql ++ " ".

(** A virtual table with a non-empty backing query. *)
Definition is_backed (t : TableRef) : bool :=
  DbServer.is_virtual_name (t_name t) && truthy_opt (t_base_sql t).

(** A named table that is not virtual. *)
Definition is_real (t : TableRef) : bool :=
  truthy (t_name t) && negb (DbServer.is_virtual_name (t_name t)).

(** [alias AS (base_sql)] for every backed virtual table, in context order,
    separated by a comma and a line break. *)
Definition cte_definitions (tables : ChartContext) : str :=
  join ("," ++ [nl])
    (map (fun t => t_name t ++ " AS (" ++ default "" (t_base_sql t) ++ ")")
         (List.filter is_backed tables)).

(** Code-point order: [a] is not after [b]. *)
Definition str_le (a b : str) : Prop := str_ltb b a = false.

(** A call to the logger, as opposed to a guard or the executor. *)
Definition is_log (c : DbServer.call) : bool :=
  match c with
  | DbServer.CallLog _ => true
  | _ => false
  end.



(** What [check_field] decides for the value of a channel; a value without
    a field reference is not checked. *)
Definition field_ok (str_of : json -> str) (tables : ChartContext) (v : json) : bool :=
  let f := DbServer.extract_field v in
  if negb (json_truthy f) then true
  else
    let name := DbServer.py_str str_of f in
    if has_char "." name then
      match DbServer.allowed_by_alias tables !! fst (split1 "." name) with
      | Some cols => mem (lower (snd (split1 "." name))) cols
      | None => false
      end
    else mem (lower name) (DbServer.allowed_columns_union tables).

(** The issue, if any, that a channel of the encoding adds. *)
Definition channel_issue (str_of : json -> str) (tables : ChartContext)
    (k : str) (v : json) : list str :=
  if field_ok str_of tables v then []
  else [DbServer.field_issue str_of (DbServer.extract_field v) k].

Definition encoding_issues (str_of : json -> str) (tables : ChartContext)
    (enc : list (str * json)) : list str :=
  flat_map (fun kv => channel_issue str_of tables (fst kv) (snd kv)) enc.

Definition candlestick_issues (str_of : json -> str) (tables : ChartContext)
    (enc : list (str * json)) : list str :=
  flat_map (fun k => match assoc k enc with
                     | None => ["Missing encoding." ++ k ++ " for candlestick"]
                     | Some v => channel_issue str_of tables k v
                     end)
           DbServer.CANDLESTICK_KEYS.

(** A spec with a mark and an encoding. *)
Definition chart_spec (mark : str) (enc : list (str * json)) : json :=
  JDict [("mark", JStr mark); ("encoding", JDict enc)].


(** The record has rows and binds the key [a]: [a] occurs in its SQL text
    as a query_result(_n) token, or the text has no such token and [a] is
    the bare [query_result]. *)
Definition binds (q : Agent.QueryRecord) (a : str) : bool :=
  is_some (Agent.rows_of (Agent.q_result q)) &&
  (mem a (Agent.aliases_of q)
   || (negb (truthy_list (Agent.aliases_of q)) && str_eqb a "query_result")).

(** The rows of the most recent record that binds [a]. *)
Definition latest_rows (prior_queries : list Agent.QueryRecord) (a : str)
    : option (list json) :=
  match find (fun q => binds q a) (rev prior_queries) with
  | Some q => Agent.rows_of (Agent.q_result q)
  | None => None
  end.

(** [k] is kept for the referenced names [l]: it is one of them, or it is
    [query_result] and one of them is an unbound spelling of it. *)
Definition kept_for (datasets : gmap str (list json)) (l : list str) (k : str) : Prop :=
  In k l \/
  (k = "query_result" /\
   exists n, In n l /\ lower n = "query_result" /\ datasets !! n = None).

(** The tool call runs: it does not raise before its first event. *)
Definition tool_runs (c : Agent.tool_step) : bool :=
  match c with
  | Agent.ToolRuns _ _ _ _ _ _ => true
  | Agent.ToolFails _ => false
  end.

(** A stream of events without [done], or one that ends with its only
    [done], whose answer is the text of the chunks. *)
Definition well_streamed (evs : list Agent.event) : Prop :=
  existsb Agent.is_done evs = false \/
  exists pre r, evs = pre ++ [Agent.Ev_done (Agent.chunk_text pre) r]
                /\ existsb Agent.is_done pre = false.


(** ** Example contexts *)

Definition ctx_prices : ChartContext := [mkTable "prices" ["symbol"; "close"] None].

Definition ctx_two_real : ChartContext :=
  [mkTable "prices" ["symbol"; "close"] None; mkTable "trades" ["symbol"; "qty"] None].

Definition ctx_ohlc : ChartContext :=
  [mkTable "candles" ["ts"; "open"; "high"; "low"; "close"] None].

Definition spec_candle_no_low : json :=
  chart_spec "candlestick"
    [("x", JStr "ts"); ("open", JStr "open"); ("high", JStr "high"); ("close", JStr "close")].

(** Two prior queries: one on a real table, one on [query_result_2]. *)
Definition query_plain : Agent.QueryRecord :=
  Agent.mkQuery (Some "SELECT symbol FROM prices") (Some "SELECT symbol FROM prices")
    (Some "SELECT symbol FROM prices") (JDict [("rows", JList [JStr "A"])]).

Definition query_second : Agent.QueryRecord :=
  Agent.mkQuery (Some "SELECT * FROM query_result_2") (Some "SELECT * FROM query_result_2")
    (Some "WITH query_result_2 AS (SELECT 2) SELECT * FROM query_result_2")
    (JDict [("rows", JList [JStr "B"])]).

(** A run with three rounds of one tool call, then two text deltas. *)
Definition script_three_tools : list Agent.completion :=
  [Agent.WithToolCalls
     [Agent.ToolRuns (Some "db_describe") (JDict []) None None (JList []) "[]"];
   Agent.WithToolCalls
     [Agent.ToolRuns (Some "db_query") (JDict [("sql", JStr "SELECT 1")])
        (Some "SELECT 1") (Some "SELECT 1") (JDict [("rows", JList [])]) "{}"];
   Agent.WithToolCalls
     [Agent.ToolRuns (Some "plot_render") (JDict []) None None (JDict []) "{}"];
   Agent.NoToolCalls [Some "final "; None; Some ""; Some "answer"] None].

(** ** Vocabulary of the further properties *)

(** [x] occurs in [s] as a contiguous piece. *)
Definition within (x s : str) : Prop := exists a b, s = a ++ x ++ b.

(** The words that a pattern can consume, its anchors apart. *)
Fixpoint lang (r : re) (w : str) : Prop :=
  match r with
  | Eps | WordB | Bol | Eol => w = []
  | Cls p => exists c, w = [c] /\ p c = true
  | Rep _ p n => n <= length w /\ forallb p w = true
  | Seq a b => exists w1 w2, w = w1 ++ w2 /\ lang a w1 /\ lang b w2
  | Alt a b => lang a w \/ lang b w
  | Opt a => w = [] \/ lang a w
  | Grp _ a => lang a w
  end.

(** The 256 characters. *)
Definition all_chars : list ascii := map ascii_of_nat (List.seq 0 256).

(** The class [p] admits no other character than [c]. *)
Definition only (c : ascii) (p : ascii -> bool) : bool :=
  forallb (fun x => implb (p x) (Ascii.eqb x c)) all_chars.

(** Every word of the pattern holds the character [c]. *)
Fixpoint must_have (c : ascii) (r : re) : bool :=
  match r with
  | Cls p => only c p
  | Rep _ p n => (0 <? n) && only c p
  | Seq a b => must_have c a || must_have c b
  | Alt a b => must_have c a && must_have c b
  | Grp _ a => must_have c a
  | Eps | Opt _ | WordB | Bol | Eol => false
  end.

(** A match of [r] somewhere in [s]: the matched text and its groups. *)
Definition matches_in (r : re) (s : str) (m : rmatch_obj) : Prop :=
  exists a rest prev, s = a ++ rest /\ match_at r prev rest = Some m.

(** The replacement of a match brings no back-tick that the match did
    not hold. *)
Definition clean (repl : rmatch_obj -> str) : Prop :=
  forall m, In "`"%char (repl m) -> exists n, In "`"%char (group n m).

(** A date format read as a sequence of directives [%k] and of other
    characters. *)
Inductive fmt_token :=
| Directive (k : ascii)
| Plain (c : ascii).

Definition token_text (t : fmt_token) : str :=
  match t with
  | Directive k => ["%"%char; k]
  | Plain c => [c]
  end.

Definition format_text (ts : list fmt_token) : str := concat (map token_text ts).

(** Neither the letter of a directive nor a plain character is [%]. *)
Definition token_ok (t : fmt_token) : bool :=
  match t with
  | Directive k => negb (Ascii.eqb k "%")
  | Plain c => negb (Ascii.eqb c "%")
  end.

(** The PostgreSQL text of a token: that of [_FMT_MAP] for a directive it
    lists, the token itself otherwise. *)
Definition token_mapped (t : fmt_token) : str :=
  match t with
  | Directive k => default (token_text t) (assoc ["%"%char; k] DbServer._FMT_MAP)
  | Plain c => [c]
  end.

(** One replacement of [_map_datefmt], on tokens. *)
Definition retoken (key new : str) (t : fmt_token) : list fmt_token :=
  if str_eqb (token_text t) key then map Plain new else [t].

(** A table of directives: every key is [%] and a letter, and no
    replacement text holds a [%]. *)
Definition directive_table (m : list (str * str)) : Prop :=
  Forall (fun kv => (exists x, fst kv = ["%"%char; x]) /\ has_char "%" (snd kv) = false) m.

(** [[s[i:i+size] for i in range(0, len(s), size)]] *)
Definition range_slices (size : nat) (s : str) : list str :=
  map (fun i => firstn size (skipn (i * size) s))
      (List.seq 0 ((length s + size - 1) / size)).

(** The text of the tool chunks of a run, in order. *)
Fixpoint tool_chunk_text (evs : list Agent.event) : str :=
  match evs with
  | [] => []
  | Agent.Ev_tool_chunk _ d _ :: rest => d ++ tool_chunk_text rest
  | _ :: rest => tool_chunk_text rest
  end.

(** The JSON text of the results of the tool calls of a round, up to the
    first call that raises. *)
Fixpoint results_text (calls : list Agent.tool_step) : str :=
  match calls with
  | Agent.ToolRuns _ _ _ _ _ result_str :: rest => result_str ++ results_text rest
  | _ => []
  end.

(** The tool calls of a round that run: those before the first that
    raises. *)
Fixpoint running (calls : list Agent.tool_step) : list Agent.tool_step :=
  match calls with
  | (Agent.ToolRuns _ _ _ _ _ _ as c) :: rest => c :: running rest
  | _ => []
  end.

(** The events of one tool call that runs: its start, the chunks of its
    JSON text, its result. *)
Definition call_events (rid : str) (c : Agent.tool_step) : list Agent.event :=
  match c with
  | Agent.ToolRuns name args norm_sql inj_sql result result_str =>
      Agent.Ev_tool_call_started name args rid norm_sql inj_sql
      :: map (fun d => Agent.Ev_tool_chunk name d rid) (range_slices 2048 result_str)
      ++ [Agent.Ev_tool_result name result rid]
  | Agent.ToolFails _ => []
  end.

(** An event that ends a run. *)
Definition is_terminal (e : Agent.event) : bool :=
  match e with
  | Agent.Ev_done _ _ | Agent.Ev_error _ _ => true
  | _ => false
  end.

(** A chart context of the shape that the tools read: a dict with a list
    under [tables]. *)
Definition valid_context (ctx : json) : Prop :=
  exists d tbls, ctx = JDict d /\ dict_get d "tables" = JList tbls.

(** [{"tables": []}] *)
Definition EMPTY_CONTEXT : json := JDict [("tables", JList [])].

(** [nm] is the string under [data.name] of the spec or of a spec of its
    [layer] list, at any depth. *)
Inductive names_in : json -> str -> Prop :=
| name_here d dd nm :
    dict_get d "data" = JDict dd -> dict_get dd "name" = JStr nm ->
    names_in (JDict d) nm
| name_in_layer d lyr sub nm :
    dict_get d "layer" = JList lyr -> In sub lyr -> names_in sub nm ->
    names_in (JDict d) nm.

(** A spec with a named dataset and layers. *)
Definition layered_spec (nm : str) (layers : list json) : json :=
  JDict [("data", JDict [("name", JStr nm)]); ("layer", JList layers)].

(** [query_result], or [query_result_] and digits. *)
Definition virtual_base (n : str) : Prop :=
  n = "query_result" \/
  exists ds, n = "query_result_" ++ ds /\ ds <> [] /\ forallb is_digit ds = true.

(** A text event carries text; a tool chunk carries between one and 2048
    characters. *)
Definition delta_ok (e : Agent.event) : Prop :=
  match e with
  | Agent.Ev_chunk d _ => d <> []
  | Agent.Ev_tool_chunk _ d _ => 1 <= length d <= 2048
  | _ => True
  end.

(** The longest prefix of [s] made of word characters. *)
Fixpoint word_prefix (s : str) : str :=
  match s with
  | c :: t => if is_word c then c :: word_prefix t else []
  | [] => []
  end.

(** The longest prefix of [s] made of digits. *)
Fixpoint digit_prefix (s : str) : str :=
  match s with
  | c :: t => if is_digit c then c :: digit_prefix t else []
  | [] => []
  end.

(** The letters of [query_result] in any case, alone or followed by an
    underscore and one digit or more. *)
Definition alias_word (w : str) : bool :=
  startswith (upper w) "QUERY_RESULT" &&
  match skipn 12 w with
  | [] => true
  | c :: ds => Ascii.eqb c "_" && (1 <=? length ds) && forallb is_digit ds
  end.

(** No alias is found in [x] read after the character [prev]. *)
Definition alias_free (prev : option ascii) (x : str) : Prop :=
  finditer_go DbServer.RE_ALIAS prev x 0 = [].

(** The end of the alias pattern: a word boundary. *)
Definition at_end (st : mstate) : option mstate :=
  if at_boundary (m_prev st) (m_rest st) then Some st else None.

(** * Properties *)

(** ** Characters *)

Lemma upper_c_word c : is_word (upper_c c) = is_word c.
Proof. destruct c as [[] [] [] [] [] [] [] []]; reflexivity. Qed.

Lemma lower_c_word c : is_word (lower_c c) = is_word c.
Proof. destruct c as [[] [] [] [] [] [] [] []]; reflexivity. Qed.

Lemma upper_c_space c : is_space (upper_c c) = is_space c.
Proof. destruct c as [[] [] [] [] [] [] [] []]; reflexivity. Qed.

Lemma space_not_word c : is_space c = true -> is_word c = false.
Proof. destruct c as [[] [] [] [] [] [] [] []]; simpl; intros H; try reflexivity; discriminate H. Qed.

Lemma upper_c_idem c : upper_c (upper_c c) = upper_c c.
Proof. destruct c as [[] [] [] [] [] [] [] []]; reflexivity. Qed.

Lemma upper_c_semicolon c : upper_c c = ";"%char -> c = ";"%char.
Proof. destruct c as [[] [] [] [] [] [] [] []]; simpl; intros H; try reflexivity; discriminate H. Qed.

Lemma lower_c_blank c : lower_c c = " "%char -> c = " "%char.
Proof. destruct c as [[] [] [] [] [] [] [] []]; simpl; intros H; try reflexivity; discriminate H. Qed.

(** ** Strings *)

Lemma upper_app a b : upper (a ++ b) = upper a ++ upper b.
Proof. apply map_app. Qed.

Lemma lower_app a b : lower (a ++ b) = lower a ++ lower b.
Proof. apply map_app. Qed.

Lemma lstrip_of_nonclass p l x m :
  p x = false -> lstrip_of p (l ++ x :: m) = lstrip_of p l ++ x :: m.
Proof.
  intros Hx. induction l as [|c l IH]; simpl.
  - now rewrite Hx.
  - destruct (p c); [exact IH | reflexivity].
Qed.

Lemma rstrip_of_nonclass p l x m :
  p x = false -> rstrip_of p (l ++ x :: m) = l ++ x :: rstrip_of p m.
Proof.
  intros Hx. unfold rstrip_of.
  rewrite rev_app_distr. simpl. rewrite <- app_assoc. simpl.
  rewrite lstrip_of_nonclass by exact Hx.
  rewrite rev_app_distr. simpl. rewrite rev_involutive, <- app_assoc. reflexivity.
Qed.

Lemma lstrip_of_suffix p s : exists l, s = l ++ lstrip_of p s /\ forallb p l = true.
Proof.
  induction s as [|c s IH]; simpl.
  - exists []. split; reflexivity.
  - destruct (p c) eqn:Hc.
    + destruct IH as (l & Hl & Hall). exists (c :: l). simpl. rewrite Hc.
      split; [now f_equal | exact Hall].
    + exists []. split; reflexivity.
Qed.

Lemma rstrip_of_prefix p s : exists r, s = rstrip_of p s ++ r /\ forallb p r = true.
Proof.
  unfold rstrip_of. destruct (lstrip_of_suffix p (rev s)) as (l & Hl & Hall).
  exists (rev l). split.
  - rewrite <- rev_app_distr, <- Hl. now rewrite rev_involutive.
  - rewrite forallb_forall in *. intros x Hx. apply Hall. now apply in_rev.
Qed.

Lemma strip_decompose s :
  exists l r, s = l ++ strip s ++ r /\ forallb is_space l = true /\ forallb is_space r = true.
Proof.
  unfold strip, lstrip, rstrip.
  destruct (lstrip_of_suffix is_space s) as (l & Hl & Hall).
  destruct (rstrip_of_prefix is_space (lstrip_of is_space s)) as (r & Hr & Halr).
  exists l, r. split; [|split]; try assumption.
  rewrite <- Hr. exact Hl.
Qed.

Lemma last_lstrip_of p s :
  lstrip_of p s <> [] -> last (lstrip_of p s) = last s.
Proof.
  intros Hne. destruct (lstrip_of_suffix p s) as (l & Hl & _).
  rewrite Hl at 2. destruct (lstrip_of p s) as [|c t] eqn:E; [congruence|].
  now rewrite last_app_cons.
Qed.

Lemma head_rstrip_of p s :
  rstrip_of p s <> [] -> head (rstrip_of p s) = head s.
Proof.
  intros Hne. destruct (rstrip_of_prefix p s) as (r & Hr & _).
  rewrite Hr at 2. destruct (rstrip_of p s) as [|c t] eqn:E; [congruence|].
  reflexivity.
Qed.

Lemma is_word_opt_last_upper s : is_word_opt (last (upper s)) = is_word_opt (last s).
Proof.
  unfold upper. induction s as [|c s IH]; [reflexivity|].
  destruct s as [|d s]; simpl in *.
  - apply upper_c_word.
  - exact IH.
Qed.

Lemma is_word_opt_head_upper s : is_word_opt (head (upper s)) = is_word_opt (head s).
Proof. destruct s as [|c s]; simpl; [reflexivity | apply upper_c_word]. Qed.

Lemma startswith_app s p : startswith (p ++ s) p = true.
Proof.
  induction p as [|a p IH]; simpl; [reflexivity|].
  now rewrite Ascii.eqb_refl, IH.
Qed.

Lemma startswith_spec s p : startswith s p = true <-> exists t, s = p ++ t.
Proof.
  revert s. induction p as [|a p IH]; intros s; simpl.
  - split; [intros _; now exists s | reflexivity].
  - destruct s as [|b s].
    + split; [discriminate | intros (t & Ht); discriminate].
    + rewrite andb_true_iff, IH. split.
      * intros (Hab & t & ->). apply Ascii.eqb_eq in Hab. subst. now exists t.
      * intros (t & Ht). injection Ht as -> ->. split; [apply Ascii.eqb_refl | now exists t].
Qed.

Lemma contains_spec p s : contains p s = true <-> exists a b, s = a ++ p ++ b.
Proof.
  induction s as [|c s IH]; simpl.
  - rewrite orb_false_r, startswith_spec. split.
    + intros (t & Ht). now exists [], t.
    + intros (a & b & Hab). destruct a; [now exists b|discriminate].
  - rewrite orb_true_iff, IH, startswith_spec. split.
    + intros [(t & Ht) | (a & b & ->)]; [now exists [], t | now exists (c :: a), b].
    + intros (a & b & Hab). destruct a as [|x a]; simpl in Hab.
      * left. now exists b.
      * right. injection Hab as -> ->. now exists a, b.
Qed.

Lemma has_char_spec c s : has_char c s = true <-> In c s.
Proof.
  unfold has_char. rewrite existsb_exists. split.
  - intros (x & Hx & He). apply Ascii.eqb_eq in He. now subst.
  - intros H. exists c. split; [exact H | apply Ascii.eqb_refl].
Qed.

Lemma str_eqb_spec a b : str_eqb a b = true <-> a = b.
Proof. unfold str_eqb. apply bool_decide_eq_true. Qed.

Lemma mem_spec a l : mem a l = true <-> In a l.
Proof.
  unfold mem. rewrite existsb_exists. split.
  - intros (x & Hx & He). apply str_eqb_spec in He. now subst.
  - intros H. exists a. split; [exact H | now apply str_eqb_spec].
Qed.

(** ** The matcher *)

Lemma last_or_cons prev c w : last_or prev (c :: w) = last_or (Some c) w.
Proof.
  unfold last_or. destruct w as [|d w]; [reflexivity|].
  change (last (c :: d :: w)) with (last (d :: w)).
  destruct (last (d :: w)) eqn:E; [reflexivity|].
  now apply last_None in E.
Qed.

Lemma last_or_app prev a b : last_or prev (a ++ b) = last_or (last_or prev a) b.
Proof.
  revert prev. induction a as [|c a IH]; intros prev; [reflexivity|].
  simpl. now rewrite !last_or_cons, IH.
Qed.

Lemma rmatch_seq_cons r l st k :
  rmatch (seq (r :: l)) st k = rmatch r st (fun st' => rmatch (seq l) st' k).
Proof. reflexivity. Qed.

Lemma rmatch_lit w prev rest caps k :
  rmatch (lit w) (MState prev rest caps) k =
  if startswith rest w
  then k (MState (last_or prev w) (skipn (length w) rest) caps)
  else None.
Proof.
  revert prev rest. induction w as [|a w IH]; intros prev rest.
  - reflexivity.
  - unfold lit. simpl map. rewrite rmatch_seq_cons. simpl rmatch at 1.
    destruct rest as [|b rest]; [reflexivity|]. simpl m_rest.
    simpl startswith. destruct (Ascii.eqb a b) eqn:Hab; [|reflexivity].
    simpl. apply Ascii.eqb_eq in Hab. subst b.
    fold (lit w). rewrite IH. now rewrite last_or_cons.
Qed.

Lemma rmatch_alts_some l st k :
  is_some (rmatch (alts l) st k) = existsb (fun r => is_some (rmatch r st k)) l.
Proof.
  induction l as [|r l IH]; simpl.
  - destruct (m_rest st); reflexivity.
  - destruct l as [|r' l].
    + simpl. now rewrite orb_false_r.
    + change (alts (r :: r' :: l)) with (Alt r (alts (r' :: l))).
      simpl rmatch. destruct (rmatch r st k); simpl; [reflexivity | exact IH].
Qed.

Lemma last_or_nil prev : last_or prev [] = prev.
Proof. reflexivity. Qed.

Lemma search_from_some r prev s :
  is_some (search_from r prev s) = true <->
  exists a b, s = a ++ b /\ is_some (match_at r (last_or prev a) b) = true.
Proof.
  revert prev. induction s as [|c s IH]; intros prev; cbn [search_from].
  - destruct (match_at r prev []) eqn:E; cbn [is_some].
    + split; [intros _|reflexivity]. exists [], []. now rewrite last_or_nil, E.
    + split; [discriminate|]. intros (a & b & Hab & Hm).
      symmetry in Hab. apply app_eq_nil in Hab as [-> ->].
      now rewrite last_or_nil, E in Hm.
  - destruct (match_at r prev (c :: s)) eqn:E; cbn [is_some].
    + split; [intros _|reflexivity]. exists [], (c :: s). now rewrite last_or_nil, E.
    + rewrite IH. split.
      * intros (a & b & -> & Hm). exists (c :: a), b. now rewrite last_or_cons.
      * intros (a & b & Hab & Hm). destruct a as [|x a]; cbn [app] in Hab.
        -- subst b. now rewrite last_or_nil, E in Hm.
        -- injection Hab as -> ->. exists a, b. now rewrite last_or_cons in Hm.
Qed.

Lemma existsb_map_comp {A B} (f : B -> bool) (g : A -> B) l :
  existsb f (map g l) = existsb (fun x => f (g x)) l.
Proof. induction l as [|x l IH]; simpl; [reflexivity | now rewrite IH]. Qed.

Lemma existsb_ext_in {A} (f g : A -> bool) l :
  (forall x, In x l -> f x = g x) -> existsb f l = existsb g l.
Proof.
  induction l as [|x l IH]; intros H; simpl; [reflexivity|].
  rewrite H by now left. rewrite IH; [reflexivity|]. intros y Hy. apply H. now right.
Qed.

(** ** C1: the read-only guard *)

(** Where the blocked-keyword pattern matches at a position. *)
Lemma blocked_match_at prev s :
  is_some (match_at Db.RE_BLOCKED prev s) =
  at_boundary prev s &&
  existsb (fun kw => startswith s kw &&
                     at_boundary (last_or prev kw) (skipn (length kw) s)) Db.BLOCKED.
Proof.
  unfold match_at, Db.RE_BLOCKED.
  rewrite rmatch_seq_cons. cbn [rmatch m_prev m_rest].
  destruct (at_boundary prev s); [|reflexivity]. cbn [andb].
  rewrite rmatch_seq_cons. cbn [rmatch m_prev m_rest m_caps].
  match goal with
  | |- is_some (match ?x with Some _ => _ | None => _ end) = _ =>
      transitivity (is_some x); [destruct x; reflexivity|]
  end.
  rewrite rmatch_alts_some, existsb_map_comp.
  apply existsb_ext_in. intros kw _.
  rewrite rmatch_lit. destruct (startswith s kw); [|reflexivity].
  cbn [andb]. rewrite rmatch_seq_cons. cbn [rmatch m_prev m_rest].
  destruct (at_boundary _ _); reflexivity.
Qed.

Lemma blocked_words : Forall (fun kw => kw <> [] /\ forallb is_word kw = true) Db.BLOCKED.
Proof. repeat constructor; discriminate. Qed.

Lemma forallb_word_upper w : forallb is_word (upper w) = forallb is_word w.
Proof.
  induction w as [|c w IH]; simpl; [reflexivity|].
  now rewrite upper_c_word, IH.
Qed.

Lemma word_head w : w <> [] -> forallb is_word w = true -> is_word_opt (head w) = true.
Proof.
  destruct w as [|c w]; [congruence|]. simpl. intros _ H.
  now apply andb_true_iff in H as [H _].
Qed.

Lemma word_last w : w <> [] -> forallb is_word w = true -> is_word_opt (last w) = true.
Proof.
  intros Hne Hall. destruct (last w) as [c|] eqn:E.
  - simpl. rewrite forallb_forall in Hall. apply Hall.
    apply last_Some in E as (l & ->). apply in_or_app. right. now left.
  - now apply last_None in E.
Qed.

Lemma at_boundary_word_r prev w post :
  w <> [] -> forallb is_word w = true ->
  at_boundary prev (w ++ post) = negb (is_word_opt prev).
Proof.
  intros Hne Hall. unfold at_boundary.
  destruct w as [|c w]; [congruence|]. simpl in *.
  apply andb_true_iff in Hall as [-> _]. now destruct (is_word_opt prev).
Qed.

Lemma at_boundary_word_l prev w post :
  w <> [] -> forallb is_word w = true ->
  at_boundary (last_or prev w) post = negb (is_word_opt (head post)).
Proof.
  intros Hne Hall. unfold at_boundary, last_or.
  pose proof (word_last w Hne Hall) as Hl.
  destruct (last w); [|discriminate]. simpl in Hl. simpl. rewrite Hl.
  reflexivity.
Qed.

Lemma skipn_length_app {A} (a b : list A) : skipn (length a) (a ++ b) = b.
Proof. induction a; simpl; auto. Qed.

Lemma last_or_none a : last_or None a = last a.
Proof. unfold last_or. now destruct (last a). Qed.

Lemma last_app_ne {A} (l1 l2 : list A) : l2 <> [] -> last (l1 ++ l2) = last l2.
Proof.
  intros Hne. destruct l2 as [|x l2]; [congruence|]. apply last_app_cons.
Qed.

Lemma spaces_last_nonword l : forallb is_space l = true -> is_word_opt (last l) = false.
Proof.
  intros Hall. destruct (last l) as [c|] eqn:E; [|reflexivity].
  simpl. apply space_not_word. rewrite forallb_forall in Hall. apply Hall.
  apply last_Some in E as (l' & ->). apply in_or_app. right. now left.
Qed.

Lemma spaces_head_nonword l : forallb is_space l = true -> is_word_opt (head l) = false.
Proof.
  destruct l as [|c l]; [reflexivity|]. simpl. intros H.
  apply andb_true_iff in H as [H _]. now apply space_not_word.
Qed.

Lemma word_not_space c : is_word c = true -> is_space c = false.
Proof.
  intros H. destruct (is_space c) eqn:E; [|reflexivity].
  apply space_not_word in E. congruence.
Qed.

(** Stripping keeps a text that begins and ends with word characters. *)
Lemma strip_around_word pre w post :
  w <> [] -> forallb is_word w = true ->
  strip (pre ++ w ++ post) = lstrip pre ++ w ++ rstrip post.
Proof.
  intros Hne Hall. unfold strip, lstrip, rstrip.
  destruct w as [|x w']; [congruence|].
  assert (Hx : is_space x = false).
  { apply word_not_space. simpl in Hall. now apply andb_true_iff in Hall as [H _]. }
  cbn [app]. rewrite lstrip_of_nonclass by exact Hx.
  destruct (exists_last (l := x :: w')) as (wi & y & Hw); [discriminate|].
  assert (Hy : is_space y = false).
  { apply word_not_space. rewrite forallb_forall in Hall. apply Hall.
    rewrite Hw. apply in_or_app. right. now left. }
  assert (Hsplit : forall t, x :: w' ++ t = wi ++ y :: t).
  { intros t. change (x :: w' ++ t) with ((x :: w') ++ t).
    rewrite Hw, <- app_assoc. reflexivity. }
  rewrite !Hsplit, app_assoc.
  rewrite rstrip_of_nonclass by exact Hy.
  now rewrite <- app_assoc.
Qed.

Lemma blocked_search su :
  is_some (re_search Db.RE_BLOCKED su) = true <->
  exists a kw post, su = a ++ kw ++ post /\ In kw Db.BLOCKED /\ word_bounded a post.
Proof.
  unfold re_search. rewrite search_from_some. split.
  - intros (a & b & -> & Hm). rewrite blocked_match_at, last_or_none in Hm.
    apply andb_true_iff in Hm as [Hb Hex].
    apply existsb_exists in Hex as (kw & Hin & Hkw).
    apply andb_true_iff in Hkw as [Hsw Hb2].
    apply startswith_spec in Hsw as (post & ->).
    pose proof blocked_words as HW. rewrite List.Forall_forall in HW.
    destruct (HW kw Hin) as [Hne Hall].
    rewrite skipn_length_app in Hb2.
    rewrite at_boundary_word_l in Hb2 by assumption.
    rewrite at_boundary_word_r in Hb by assumption.
    exists a, kw, post. split; [reflexivity|]. split; [exact Hin|].
    split; [now apply negb_true_iff in Hb | now apply negb_true_iff in Hb2].
  - intros (a & kw & post & -> & Hin & Ha & Hp).
    pose proof blocked_words as HW. rewrite List.Forall_forall in HW.
    destruct (HW kw Hin) as [Hne Hall].
    exists a, (kw ++ post). split; [reflexivity|].
    rewrite blocked_match_at, last_or_none.
    rewrite at_boundary_word_r by assumption. rewrite Ha. cbn [negb andb].
    apply existsb_exists. exists kw. split; [exact Hin|].
    rewrite startswith_app, skipn_length_app. cbn [andb].
    rewrite at_boundary_word_l by assumption. now rewrite Hp.
Qed.

Lemma keyword_blocked_spec sql : keyword_blocked sql = true <-> has_keyword sql.
Proof.
  unfold keyword_blocked. rewrite blocked_search. split.
  - intros (a & kw & post & Hsu & Hin & Ha & Hp).
    destruct (strip_decompose sql) as (l & r & Hsql & Hl & Hr).
    unfold upper in Hsu.
    apply map_eq_app in Hsu as (s1 & s23 & Hs & H1 & H23).
    apply map_eq_app in H23 as (s2 & s3 & -> & H2 & H3).
    exists (l ++ s1), s2, (s3 ++ r). split; [|split; [|split]].
    + rewrite Hsql, Hs. now rewrite <- !app_assoc.
    + unfold upper. now rewrite H2.
    + destruct s1 as [|c s1].
      * rewrite app_nil_r. now apply spaces_last_nonword.
      * rewrite last_app_ne by discriminate.
        rewrite <- is_word_opt_last_upper. unfold upper. now rewrite H1.
    + destruct s3 as [|c s3].
      * now apply spaces_head_nonword.
      * change (head ((c :: s3) ++ r)) with (head (c :: s3)).
        rewrite <- is_word_opt_head_upper. unfold upper. now rewrite H3.
  - intros (pre & w & post & -> & Hin & Ha & Hp).
    pose proof blocked_words as HW. rewrite List.Forall_forall in HW.
    destruct (HW _ Hin) as [Hne Hall].
    rewrite forallb_word_upper in Hall.
    assert (Hw : w <> []) by (intros ->; now apply Hne).
    rewrite strip_around_word by assumption.
    exists (upper (lstrip pre)), (upper w), (upper (rstrip post)).
    split; [now rewrite !upper_app|]. split; [exact Hin|]. split.
    + rewrite is_word_opt_last_upper. unfold lstrip.
      destruct (lstrip_of is_space pre) eqn:E; [reflexivity|].
      rewrite <- E, last_lstrip_of by (rewrite E; discriminate). exact Ha.
    + rewrite is_word_opt_head_upper. unfold rstrip.
      destruct (rstrip_of is_space post) eqn:E; [reflexivity|].
      rewrite <- E, head_rstrip_of by (rewrite E; discriminate). exact Hp.
Qed.

Lemma multi_statement_lstrip s : multi_statement s -> multi_statement (lstrip s).
Proof.
  intros (a & b & c & rest & -> & Hc & Hne). unfold lstrip.
  cbn [app]. rewrite lstrip_of_nonclass by reflexivity.
  now exists (lstrip_of is_space a), b, c, rest.
Qed.

Lemma rstrip_of_keeps p a b c rest :
  p c = false ->
  rstrip_of p (a ++ ";" ++ b ++ c :: rest) = a ++ ";" ++ b ++ c :: rstrip_of p rest.
Proof.
  intros Hc.
  replace (a ++ ";" ++ b ++ c :: rest) with ((a ++ ";" ++ b) ++ c :: rest)
    by now rewrite <- !app_assoc.
  rewrite rstrip_of_nonclass by exact Hc. now rewrite <- !app_assoc.
Qed.

Lemma multi_statement_rstrip s : multi_statement s -> multi_statement (rstrip s).
Proof.
  intros (a & b & c & rest & -> & Hc & Hne). unfold rstrip.
  rewrite rstrip_of_keeps by exact Hc.
  now exists a, b, c, (rstrip_of is_space rest).
Qed.

Lemma multi_statement_strip s : multi_statement s -> multi_statement (strip s).
Proof. intros H. now apply multi_statement_rstrip, multi_statement_lstrip. Qed.

Lemma multi_statement_upper s : multi_statement s -> multi_statement (upper s).
Proof.
  intros (a & b & c & rest & -> & Hc & Hne).
  exists (upper a), (upper b), (upper_c c), (upper rest).
  split; [|split].
  - now rewrite !upper_app.
  - now rewrite upper_c_space.
  - intros H. now apply upper_c_semicolon in H.
Qed.

Lemma multi_statement_semicolon s :
  multi_statement s -> has_char ";" (rstrip_of (Ascii.eqb ";") s) = true.
Proof.
  intros (a & b & c & rest & -> & Hc & Hne).
  rewrite rstrip_of_keeps by (apply Ascii.eqb_neq; congruence).
  apply has_char_spec. apply in_or_app. right. now left.
Qed.

Lemma in_strip c s : In c (strip s) -> In c s.
Proof.
  intros H. destruct (strip_decompose s) as (l & r & Hs & _ & _).
  rewrite Hs. apply in_or_app. right. apply in_or_app. now left.
Qed.

Lemma in_rstrip_of p c s : In c (rstrip_of p s) -> In c s.
Proof.
  intros H. destruct (rstrip_of_prefix p s) as (r & Hs & _).
  rewrite Hs. apply in_or_app. now left.
Qed.

Lemma in_upper_semicolon s : In ";"%char (upper s) -> In ";"%char s.
Proof.
  unfold upper. intros H. apply in_map_iff in H as (c & Hc & Hin).
  apply upper_c_semicolon in Hc. now subst.
Qed.

Lemma no_semicolon_kept s :
  has_char ";" s = false ->
  has_char ";" (rstrip_of (Ascii.eqb ";") (strip (upper (strip s)))) = false.
Proof.
  intros H. destruct (has_char ";" (rstrip_of _ _)) eqn:E; [|reflexivity].
  apply has_char_spec in E.
  apply in_rstrip_of, in_strip, in_upper_semicolon, in_strip in E.
  apply has_char_spec in E. congruence.
Qed.

Lemma mentions_select_kept sql :
  mentions sql "SELECT" -> contains "SELECT" (upper (strip sql)) = true.
Proof.
  intros (a & w & b & -> & Hw).
  assert (Hall : forallb is_word w = true).
  { rewrite <- forallb_word_upper, Hw. reflexivity. }
  assert (Hne : w <> []) by (intros ->; discriminate).
  rewrite strip_around_word by assumption.
  rewrite !upper_app, Hw. apply contains_spec. eauto.
Qed.

Lemma leads_nonempty sql p : p <> [] -> leads sql p = true -> truthy sql = true.
Proof.
  intros Hp H. destruct sql as [|c sql]; [|reflexivity].
  unfold leads in H. cbn in H. destruct p; [congruence | discriminate].
Qed.

Lemma mentions_nonempty sql word : word <> [] -> mentions sql word -> truthy sql = true.
Proof.
  intros Hne (a & w & b & -> & Hw). destruct w as [|c w].
  - cbn in Hw. congruence.
  - destruct a; reflexivity.
Qed.

(** C1 -- [enforce_readonly]: a blocked keyword as a whole word, in any
    letter case, is rejected in both modes, so is any text with
    [DROP TABLE x] at a word start; [SELECT 1] passes in both modes; relaxed
    mode, the default, accepts a keyword-free statement that starts with
    SELECT, WITH, EXPLAIN, VALUES or a parenthesis or holds SELECT anywhere;
    strict mode rejects a semicolon followed by a further statement, as in
    [SELECT 1; SELECT 2], and accepts only what starts with SELECT, WITH or
    a parenthesis. *)
Theorem enforce_readonly_spec (env : option str) (sql : str) :
  (keyword_blocked sql = true <-> has_keyword sql) /\
  (has_keyword sql -> exists msg, Db.enforce_readonly env sql = Rejected msg) /\
  (forall pre post, is_word_opt (last pre) = false ->
     exists msg, Db.enforce_readonly env (pre ++ "DROP TABLE x" ++ post) = Rejected msg) /\
  Db.enforce_readonly env "SELECT 1" = Allowed /\
  Db.enforce_readonly None sql = Db.enforce_readonly_mode false sql /\
  (env_flag env = false -> ~ has_keyword sql ->
     existsb (leads sql) ["SELECT"; "WITH"; "EXPLAIN"; "VALUES"; "("] = true
     \/ mentions sql "SELECT" ->
     Db.enforce_readonly env sql = Allowed) /\
  (env_flag env = true -> multi_statement sql ->
     exists msg, Db.enforce_readonly env sql = Rejected msg) /\
  (env_flag env = true ->
     Db.enforce_readonly env "SELECT 1; SELECT 2"
     = Rejected "Multiple statements are not allowed in strict read-only mode") /\
  (env_flag env = true -> Db.enforce_readonly env sql = Allowed ->
     ~ has_keyword sql /\
     (leads sql "SELECT" = true \/ leads sql "WITH" = true \/ leads sql "(" = true)) /\
  (env_flag env = true -> ~ has_keyword sql -> has_char ";" sql = false ->
     leads sql "SELECT" = true \/ leads sql "WITH" = true \/ leads sql "(" = true ->
     Db.enforce_readonly env sql = Allowed).
Proof.
  assert (Hkw : forall s, has_keyword s ->
            exists msg, Db.enforce_readonly env s = Rejected msg).
  { intros s H. apply keyword_blocked_spec in H.
    unfold Db.enforce_readonly, Db.enforce_readonly_mode.
    destruct (truthy s); cbn [negb]; [|eauto].
    unfold keyword_blocked in H. rewrite H. eauto. }
  assert (Hnk : forall s, ~ has_keyword s ->
            is_some (re_search Db.RE_BLOCKED (upper (strip s))) = false).
  { intros s H. destruct (is_some _) eqn:E; [|reflexivity].
    exfalso. apply H. now apply keyword_blocked_spec. }
  split; [apply keyword_blocked_spec|].
  split; [apply Hkw|].
  split.
  { intros pre post Hpre. apply Hkw.
    exists pre, "DROP", (" TABLE x" ++ post).
    split; [reflexivity|]. split; [cbn; tauto|].
    split; [exact Hpre | reflexivity]. }
  split.
  { unfold Db.enforce_readonly, Db.enforce_readonly_mode.
    destruct (env_flag env); reflexivity. }
  split; [reflexivity|].
  split.
  { intros Hrelaxed Hno Hlead.
    unfold Db.enforce_readonly, Db.enforce_readonly_mode. rewrite Hrelaxed.
    assert (Ht : truthy sql = true).
    { destruct Hlead as [H|H].
      - apply existsb_exists in H as (p & Hp & H).
        apply (leads_nonempty sql p); [|exact H].
        cbn in Hp. intuition (subst; discriminate).
      - now apply (mentions_nonempty sql "SELECT"). }
    rewrite Ht, (Hnk _ Hno). cbn [negb].
    destruct Hlead as [H|H].
    - unfold leads in H. cbn [existsb] in H. cbn [existsb].
      rewrite orb_false_r in *.
      repeat rewrite <- orb_assoc in H. repeat rewrite <- orb_assoc.
      now rewrite H.
    - rewrite (mentions_select_kept _ H).
      now destruct (_ || _). }
  split.
  { intros Hstrict Hmulti.
    unfold Db.enforce_readonly, Db.enforce_readonly_mode. rewrite Hstrict.
    destruct (truthy sql); cbn [negb]; [|eauto].
    destruct (is_some _); [eauto|].
    rewrite multi_statement_semicolon; [eauto|].
    now apply multi_statement_strip, multi_statement_upper, multi_statement_strip. }
  split.
  { intros Hstrict. unfold Db.enforce_readonly. now rewrite Hstrict. }
  split.
  { intros Hstrict. unfold Db.enforce_readonly, Db.enforce_readonly_mode.
    rewrite Hstrict. destruct (truthy sql); cbn [negb]; [|discriminate].
    destruct (is_some _) eqn:Hb; [discriminate|].
    destruct (has_char _ _); [discriminate|].
    intros H. split.
    { intros Hk. apply keyword_blocked_spec in Hk.
      unfold keyword_blocked in Hk. congruence. }
    unfold leads.
    destruct (startswith _ "("); [tauto|].
    destruct (startswith _ "SELECT"); [tauto|].
    destruct (startswith _ "WITH"); [tauto|]. discriminate. }
  intros Hstrict Hno Hsemi Hlead.
  unfold Db.enforce_readonly, Db.enforce_readonly_mode. rewrite Hstrict.
  assert (Ht : truthy sql = true).
  { destruct Hlead as [H|[H|H]]; eapply leads_nonempty; try exact H; discriminate. }
  rewrite Ht, (Hnk _ Hno), (no_semicolon_kept _ Hsemi). cbn [negb].
  unfold leads in Hlead.
  destruct (startswith _ "("); [reflexivity|].
  destruct (startswith _ "SELECT"); [reflexivity|].
  destruct (startswith _ "WITH"); [reflexivity|].
  intuition discriminate.
Qed.

Lemma enforce_readonly_spec_witness :
  (exists msg, Db.enforce_readonly None "select 1; drop table x" = Rejected msg) /\
  Db.enforce_readonly None "EXPLAIN SELECT 1" = Allowed /\
  (exists msg, Db.enforce_readonly (Some "true") "SELECT 1; SELECT 2" = Rejected msg) /\
  Db.enforce_readonly (Some "1") "VALUES (1)" <> Allowed /\
  Db.enforce_readonly (Some "on") "(SELECT 1)" = Allowed.
Proof.
  split.
  { apply (proj1 (proj2 (enforce_readonly_spec None "select 1; drop table x"))).
    exists "select 1; ", "drop", " table x". repeat split. cbn. tauto. }
  split.
  { apply (proj1 (proj2 (proj2 (proj2 (proj2 (proj2
             (enforce_readonly_spec None "EXPLAIN SELECT 1"))))))).
    - reflexivity.
    - intros H. apply keyword_blocked_spec in H. vm_compute in H. discriminate H.
    - left. reflexivity. }
  split.
  { apply (proj1 (proj2 (proj2 (proj2 (proj2 (proj2 (proj2
             (enforce_readonly_spec (Some "true") "SELECT 1; SELECT 2")))))))).
    - reflexivity.
    - exists "SELECT 1", " ", "S"%char, "ELECT 2". repeat split. discriminate. }
  split.
  { intros Hacc.
    destruct (proj1 (proj2 (proj2 (proj2 (proj2 (proj2 (proj2 (proj2 (proj2
                (enforce_readonly_spec (Some "1") "VALUES (1)")))))))))
                eq_refl Hacc) as [_ [H|[H|H]]];
      vm_compute in H; discriminate H. }
  apply (proj2 (proj2 (proj2 (proj2 (proj2 (proj2 (proj2 (proj2 (proj2
           (enforce_readonly_spec (Some "on") "(SELECT 1)")))))))))).
  - reflexivity.
  - intros H. apply keyword_blocked_spec in H. vm_compute in H. discriminate H.
  - reflexivity.
  - right. right. reflexivity.
Defined.

(** A keyword inside a longer word is no keyword: the guard reads whole
    words only. *)
Example readonly_keyword_inside_word :
  keyword_blocked "SELECT 1 AS aDROP TABLE x" = false /\
  Db.enforce_readonly None "SELECT 1 AS aDROP TABLE x" = Allowed /\
  Db.enforce_readonly None "SELECT 1 AS a;DROP TABLE x"
  = Rejected "Only read-only queries are permitted".
Proof. repeat split; vm_compute; reflexivity. Qed.

(** ** C2 and C9: the table allowlist *)

Lemma contains_cons_false p c s : contains p (c :: s) = false -> contains p s = false.
Proof. cbn [contains]. intros H. now apply orb_false_iff in H as [_ H]. Qed.

(** In a text that holds [from] once, the occurrence is where it is. *)
Lemma from_unique a b X Y :
  a ++ "from" ++ b = X ++ "from" ++ Y ->
  contains "from" X = false -> contains "from" Y = false ->
  a = X /\ b = Y.
Proof.
  revert X. induction a as [|c a IH]; intros X Heq HX HY.
  - destruct X as [|x1 [|x2 [|x3 [|x4 X]]]]; cbn in Heq.
    + injection Heq as ->. now split.
    + injection Heq as <- Heq _. discriminate Heq.
    + injection Heq as <- <- Heq _. discriminate Heq.
    + injection Heq as <- <- <- Heq. discriminate Heq.
    + injection Heq as <- <- <- <- _.
      assert (H : contains "from" ("f"%char :: "r"%char :: "o"%char :: "m"%char :: X) = true)
        by (apply contains_spec; exists [], X; reflexivity).
      congruence.
  - destruct X as [|x X].
    + exfalso. cbn in Heq. injection Heq as -> Heq.
      destruct a as [|y1 [|y2 [|y3 a]]]; cbn in Heq.
      * injection Heq as Heq _. discriminate Heq.
      * injection Heq as _ Heq _. discriminate Heq.
      * injection Heq as _ _ Heq _. discriminate Heq.
      * injection Heq as _ _ _ Heq.
        assert (contains "from" Y = true)
          by (apply contains_spec; exists a, b; now symmetry).
        congruence.
    + cbn in Heq. injection Heq as -> Heq.
      destruct (IH X Heq) as [-> ->]; [now apply contains_cons_false in HX | exact HY|].
      now split.
Qed.

Lemma contains_from_blank Y : contains "from" Y = false -> contains "from" (Y ++ " ") = false.
Proof.
  intros HY. destruct (contains "from" (Y ++ " ")) eqn:E; [|reflexivity].
  apply contains_spec in E as (a & b & Hab). exfalso.
  assert (Hb : b <> []).
  { intros ->. rewrite app_nil_r in Hab.
    change (a ++ "from") with (a ++ "fro" ++ ["m"%char]) in Hab.
    rewrite !app_assoc in Hab. apply app_inj_tail in Hab as [_ Hab]. discriminate Hab. }
  destruct (exists_last Hb) as (b' & z & ->).
  change (a ++ "from" ++ b' ++ [z]) with (a ++ ("from" ++ b') ++ [z]) in Hab.
  rewrite app_assoc in Hab. apply app_inj_tail in Hab as [Hab _].
  assert (contains "from" Y = true)
    by (apply contains_spec; exists a, b'; exact Hab).
  congruence.
Qed.

Lemma last_lower pre c : last pre = Some c -> last (" " ++ lower pre) = Some (lower_c c).
Proof.
  intros H. apply last_Some in H as (l & ->).
  rewrite lower_app. cbn [lower map]. rewrite app_assoc. apply last_snoc.
Qed.

(** A [from] whose neighbour is not a blank is not seen by the relaxed test. *)
Lemma padded_from_unseen pre kw post :
  lower kw = "from" ->
  contains "from" (lower pre) = false -> contains "from" (lower post) = false ->
  (exists c, last pre = Some c /\ c <> " "%char) \/
  (exists d, head post = Some d /\ d <> " "%char) ->
  contains " from " (padded_lower (pre ++ kw ++ post)) = false.
Proof.
  intros Hkw Hpre Hpost Hdelim.
  destruct (contains " from " _) eqn:E; [|reflexivity]. exfalso.
  apply contains_spec in E as (a & b & Hab).
  unfold padded_lower in Hab. rewrite !lower_app, Hkw in Hab.
  assert (Heq : (a ++ " ") ++ "from" ++ (" " ++ b)
                = (" " ++ lower pre) ++ "from" ++ (lower post ++ " ")).
  { rewrite <- !app_assoc. symmetry. rewrite <- !app_assoc in Hab.
    etransitivity; [exact Hab|]. reflexivity. }
  apply from_unique in Heq as [Ha Hb].
  - destruct Hdelim as [(c & Hc & Hne) | (d & Hd & Hne)].
    + apply last_lower in Hc. rewrite <- Ha, last_snoc in Hc.
      injection Hc as Hc. symmetry in Hc. now apply lower_c_blank in Hc.
    + destruct post as [|d' post]; [discriminate|]. injection Hd as ->.
      cbn in Hb. injection Hb as Hb _. symmetry in Hb. now apply lower_c_blank in Hb.
  - cbn [app contains startswith Ascii.eqb]. exact Hpre.
  - now apply contains_from_blank.
Qed.

(** C9 -- relaxed [enforce_allowlist] with a non-empty table context: the
    allowed-table test runs only when the lower-cased SQL, padded with one
    blank on each side, holds [" from "]; a FROM with another character than
    a blank next to it (a line break, a tab, an opening parenthesis) is not
    seen, and the statement passes unchecked. *)
Theorem allowlist_relaxed_from_test (env : option str) (sql : str) (ctx : ChartContext) :
  env_flag env = false -> Db.allowed_tables ctx <> [] ->
  (contains " from " (padded_lower sql) = false ->
     Db.enforce_allowlist env sql ctx = Allowed) /\
  (contains " from " (padded_lower sql) = true ->
     (Db.enforce_allowlist env sql ctx = Allowed <->
      exists t, In t (Db.allowed_tables ctx) /\ contains t (lower sql) = true) /\
     (Db.enforce_allowlist env sql ctx <> Allowed ->
      Db.enforce_allowlist env sql ctx
      = Rejected "Query must reference at least one allowed table from context")) /\
  (forall pre kw post,
     sql = pre ++ kw ++ post -> lower kw = "from" ->
     contains "from" (lower pre) = false -> contains "from" (lower post) = false ->
     (exists c, last pre = Some c /\ c <> " "%char) \/
     (exists d, head post = Some d /\ d <> " "%char) ->
     Db.enforce_allowlist env sql ctx = Allowed).
Proof.
  intros Hrelaxed Hallowed.
  assert (Hshape : Db.enforce_allowlist env sql ctx =
            if negb (contains " from " (padded_lower sql)) then Allowed
            else if negb (existsb (fun t => truthy t && contains t (lower sql))
                            (Db.allowed_tables ctx))
                 then Rejected "Query must reference at least one allowed table from context"
                 else Allowed).
  { unfold Db.enforce_allowlist, Db.enforce_allowlist_mode. rewrite Hrelaxed.
    destruct ctx as [|t ctx]; [now contradiction Hallowed|].
    destruct (Db.allowed_tables (t :: ctx)); [now contradiction Hallowed|].
    reflexivity. }
  assert (Hnames : forall t, In t (Db.allowed_tables ctx) -> truthy t = true).
  { intros t Ht. unfold Db.allowed_tables in Ht.
    apply in_map_iff in Ht as (tb & <- & Htb).
    apply List.filter_In in Htb as [_ Htb].
    destruct (t_name tb); [discriminate|reflexivity]. }
  split; [|split].
  - intros H. now rewrite Hshape, H.
  - intros H. rewrite Hshape, H. cbn [negb]. split.
    + split.
      * destruct (existsb _ _) eqn:E; [|discriminate]. intros _.
        apply existsb_exists in E as (t & Ht & Hc).
        apply andb_true_iff in Hc as [_ Hc]. eauto.
      * intros (t & Ht & Hc).
        assert (E : existsb (fun t => truthy t && contains t (lower sql))
                      (Db.allowed_tables ctx) = true).
        { apply existsb_exists. exists t. split; [exact Ht|].
          now rewrite (Hnames t Ht), Hc. }
        now rewrite E.
    + destruct (existsb _ _); cbn [negb]; [congruence|reflexivity].
  - intros pre kw post -> Hkw Hpre Hpost Hdelim.
    now rewrite Hshape, padded_from_unseen.
Qed.

Lemma allowlist_relaxed_from_test_witness :
  Db.enforce_allowlist None ("SELECT * FROM" ++ [nl] ++ "secrets") ctx_prices = Allowed /\
  Db.enforce_allowlist None "SELECT * FROM(secrets)" ctx_prices = Allowed.
Proof.
  split.
  - apply (proj2 (proj2 (allowlist_relaxed_from_test None
             ("SELECT * FROM" ++ [nl] ++ "secrets") ctx_prices eq_refl
             ltac:(discriminate)))
             "SELECT * " "FROM" (nl :: "secrets")); try reflexivity.
    right. exists nl. split; [reflexivity | discriminate].
  - apply (proj2 (proj2 (allowlist_relaxed_from_test None
             "SELECT * FROM(secrets)" ctx_prices eq_refl
             ltac:(discriminate)))
             "SELECT * " "FROM" "(secrets)"); try reflexivity.
    right. exists "("%char. split; [reflexivity | discriminate].
Defined.

(** C2 -- [enforce_allowlist] in relaxed mode on a statement whose FROM is
    followed by a line break: the table is not in the context, yet the
    statement passes; with a blank after FROM it is rejected, and the strict
    path, which reads [from\s+], rejects both. *)
Theorem allowlist_relaxed_misses_from_newline :
  Db.enforce_allowlist None ("SELECT * FROM" ++ [nl] ++ "other_table") ctx_prices = Allowed /\
  Db.enforce_allowlist None "SELECT * FROM other_table" ctx_prices
  = Rejected "Query must reference at least one allowed table from context" /\
  Db.enforce_allowlist (Some "true") ("SELECT * FROM" ++ [nl] ++ "other_table") ctx_prices
  = Rejected "Referenced table 'other_table' is not in the allowed context" /\
  Db.enforce_allowlist (Some "true") "SELECT * FROM other_table" ctx_prices
  = Rejected "Referenced table 'other_table' is not in the allowed context".
Proof. repeat split; vm_compute; reflexivity. Qed.

(** ** C2: what holds of the allowlist *)

Lemma lower_c_idem c : lower_c (lower_c c) = lower_c c.
Proof. destruct c as [[] [] [] [] [] [] [] []]; reflexivity. Qed.

Lemma lower_idem s : lower (lower s) = lower s.
Proof.
  unfold lower. rewrite map_map. apply map_ext. intros c. apply lower_c_idem.
Qed.

Lemma allowed_tables_lower ctx : map lower (Db.allowed_tables ctx) = Db.allowed_tables ctx.
Proof.
  unfold Db.allowed_tables. rewrite map_map. apply map_ext. intros t. apply lower_idem.
Qed.

(** The parts of C2 that the code keeps: no check without tables; in
    relaxed mode a statement without [" from "] passes and so does one that
    names an allowed table; in strict mode the statement passes iff a table
    follows some FROM or JOIN and every such table is allowed. *)
Lemma allowlist_other_parts (env : option str) (sql : str) (ctx : ChartContext) :
  Db.enforce_allowlist env sql [] = Allowed /\
  (Db.allowed_tables ctx = [] -> Db.enforce_allowlist env sql ctx = Allowed) /\
  Db.enforce_allowlist None "SELECT * FROM prices" ctx_prices = Allowed /\
  Db.enforce_allowlist None "SELECT 1" ctx_prices = Allowed /\
  (env_flag env = true -> Db.allowed_tables ctx <> [] ->
   (Db.enforce_allowlist env sql ctx = Allowed <->
    Db._extract_tables sql <> [] /\
    forall t, In t (Db._extract_tables sql) -> In t (Db.allowed_tables ctx))) /\
  (env_flag env = true ->
   Db.enforce_allowlist env "SELECT 1" ctx_prices
   = Rejected "A FROM/JOIN referencing allowed tables is required in strict allowlist mode" /\
   Db.enforce_allowlist env "SELECT * FROM other_table" ctx_prices
   = Rejected "Referenced table 'other_table' is not in the allowed context" /\
   Db.enforce_allowlist env "SELECT * FROM public.Prices p" ctx_prices = Allowed /\
   Db.enforce_allowlist env ("SELECT * FROM " ++ [dquote] ++ "prices" ++ [dquote])
     ctx_prices = Allowed).
Proof.
  split; [reflexivity|]. split.
  { intros H. unfold Db.enforce_allowlist, Db.enforce_allowlist_mode.
    destruct ctx; [reflexivity|]. now rewrite H. }
  split; [reflexivity|]. split; [reflexivity|]. split.
  - intros Hstrict Hallowed.
    unfold Db.enforce_allowlist, Db.enforce_allowlist_mode. rewrite Hstrict.
    destruct ctx as [|t0 ctx]; [now contradiction Hallowed|].
    destruct (Db.allowed_tables (t0 :: ctx)) as [|a0 al] eqn:Ea; [now contradiction Hallowed|].
    cbn [negb]. rewrite <- Ea, allowed_tables_lower.
    destruct (Db._extract_tables sql) as [|r0 rl] eqn:Er.
    + split; [discriminate | intros [H _]; now contradiction H].
    + destruct (find _ (r0 :: rl)) as [bad|] eqn:Ef.
      * split; [discriminate|]. intros [_ Hall]. exfalso.
        apply find_some in Ef as [Hin Hbad]. apply negb_true_iff in Hbad.
        specialize (Hall bad Hin). apply mem_spec in Hall. congruence.
      * split; [|reflexivity]. intros _. split; [discriminate|].
        intros t Ht. pose proof (find_none _ _ Ef t Ht) as Hn.
        apply negb_false_iff in Hn. now apply mem_spec.
  - intros Hstrict. unfold Db.enforce_allowlist. rewrite Hstrict.
    repeat split; vm_compute; reflexivity.
Qed.

(** ** C3: the virtual-table binder *)

Lemma virtual_name_truthy name : DbServer.is_virtual_name name = true -> truthy name = true.
Proof. destruct name; [discriminate | reflexivity]. Qed.

Lemma backed_virtuals_filter tables :
  DbServer.backed_virtuals tables
  = map (fun t => (t_name t, default "" (t_base_sql t))) (List.filter is_backed tables).
Proof.
  induction tables as [|t tables IH]; [reflexivity|].
  cbn [DbServer.backed_virtuals List.filter]. unfold is_backed at 1.
  destruct (t_base_sql t) as [base|] eqn:Eb; cbn [truthy_opt].
  - rewrite (andb_comm (truthy base)).
    destruct (DbServer.is_virtual_name (t_name t) && truthy base);
      cbn [map default]; now rewrite ?Eb, IH.
  - rewrite andb_false_r. exact IH.
Qed.

Lemma backed_virtuals_nil tables :
  DbServer.backed_virtuals tables = [] <-> existsb is_backed tables = false.
Proof.
  rewrite backed_virtuals_filter. induction tables as [|t tables IH]; [easy|].
  cbn [List.filter existsb]. destruct (is_backed t); cbn [map orb]; [easy | exact IH].
Qed.

Lemma real_tables_filter tables :
  DbServer.real_tables tables = map t_name (List.filter is_real tables).
Proof. reflexivity. Qed.

(** C3, amended -- [_inject_virtual_table] works on the statement stripped
    of surrounding white space.  With a backed virtual table in the context
    it returns WITH and [alias AS (base_sql)] for every backed virtual in
    context order, then the stripped statement, merged into its leading
    WITH when it starts with WITH and a blank; the fallback is not applied.
    Otherwise, when the stripped statement holds a query_result(_n) token
    and the context has exactly one real table, every token is replaced by
    the name of that table (a name without backslash); otherwise the
    stripped statement is returned. *)
Theorem inject_three_cases (sql : str) (tables : ChartContext) :
  let s := strip sql in
  let result := DbServer._inject_virtual_table sql tables in
  (existsb is_backed tables = true -> startswith (upper s) "WITH " = true ->
     result = Some ("WITH " ++ cte_definitions tables ++ "," ++ [nl] ++ lstrip (skipn 5 s))) /\
  (existsb is_backed tables = true -> startswith (upper s) "WITH" = false ->
     result = Some ("WITH " ++ cte_definitions tables ++ [nl] ++ s)) /\
  (existsb is_backed tables = false ->
     is_some (re_search DbServer.RE_ALIAS s) = true ->
     forall target, map t_name (List.filter is_real tables) = [target] ->
     has_char backslash target = false ->
     result = Some (sub DbServer.RE_ALIAS (fun _ => target) s)) /\
  (existsb is_backed tables = false ->
     is_some (re_search DbServer.RE_ALIAS s) = false
     \/ length (List.filter is_real tables) <> 1 ->
     result = Some s) /\
  DbServer._inject_virtual_table "SELECT * FROM query_result_3" ctx_prices
  = Some "SELECT * FROM prices".
Proof.
  intros s result. subst result. unfold DbServer._inject_virtual_table. fold s.
  assert (Hprefix : join ("," ++ [nl])
            (map (fun ab => fst ab ++ " AS (" ++ snd ab ++ ")")
                 (DbServer.backed_virtuals tables)) = cte_definitions tables).
  { rewrite backed_virtuals_filter, map_map. reflexivity. }
  split; [|split; [|split; [|split]]].
  - intros Hb Hw. destruct (DbServer.backed_virtuals tables) eqn:E.
    + apply backed_virtuals_nil in E. congruence.
    + now rewrite Hprefix, Hw.
  - intros Hb Hw. destruct (DbServer.backed_virtuals tables) eqn:E.
    + apply backed_virtuals_nil in E. congruence.
    + rewrite Hprefix.
      assert (Hw' : startswith (upper s) "WITH " = false).
      { destruct (startswith (upper s) "WITH ") eqn:E'; [|reflexivity].
        apply startswith_spec in E' as (t & Ht).
        assert (startswith (upper s) "WITH" = true)
          by (apply startswith_spec; exists (" " ++ t); exact Ht).
        congruence. }
      now rewrite Hw'.
  - intros Hb Hre target Hreal Hbs. apply backed_virtuals_nil in Hb.
    rewrite Hb, Hre, real_tables_filter, Hreal.
    unfold DbServer.expand_template. now rewrite Hbs.
  - intros Hb Hcase. apply backed_virtuals_nil in Hb. rewrite Hb.
    destruct Hcase as [Hre | Hlen]; [now rewrite Hre|].
    destruct (is_some _); [|reflexivity].
    rewrite real_tables_filter.
    destruct (List.filter is_real tables) as [|t1 [|t2 l]]; try reflexivity.
    now contradiction Hlen.
  - reflexivity.
Qed.

Lemma inject_three_cases_witness :
  DbServer._inject_virtual_table " with x AS (SELECT 1) SELECT * FROM x"
    [mkTable "query_result" ["a"] (Some "SELECT 1 AS a")]
  = Some ("WITH query_result AS (SELECT 1 AS a)," ++ [nl] ++ "x AS (SELECT 1) SELECT * FROM x") /\
  DbServer._inject_virtual_table "SELECT a FROM query_result "
    [mkTable "query_result" ["a"] (Some "SELECT 1 AS a")]
  = Some ("WITH query_result AS (SELECT 1 AS a)" ++ [nl] ++ "SELECT a FROM query_result") /\
  DbServer._inject_virtual_table "SELECT * FROM Query_Result_2 q JOIN query_result r" ctx_prices
  = Some "SELECT * FROM prices q JOIN prices r" /\
  DbServer._inject_virtual_table " SELECT * FROM query_result " [] = Some "SELECT * FROM query_result".
Proof.
  split; [|split; [|split]].
  - apply (proj1 (inject_three_cases " with x AS (SELECT 1) SELECT * FROM x"
                    [mkTable "query_result" ["a"] (Some "SELECT 1 AS a")]));
      reflexivity.
  - apply (proj1 (proj2 (inject_three_cases "SELECT a FROM query_result "
                    [mkTable "query_result" ["a"] (Some "SELECT 1 AS a")])));
      reflexivity.
  - apply (proj1 (proj2 (proj2 (inject_three_cases
                    "SELECT * FROM Query_Result_2 q JOIN query_result r" ctx_prices)))
             eq_refl eq_refl "prices"); reflexivity.
  - apply (proj1 (proj2 (proj2 (proj2 (inject_three_cases
                    " SELECT * FROM query_result " []))))).
    + reflexivity.
    + right. cbn. discriminate.
Defined.

(** C3 as stated fails: with no backed virtual table and no virtual token
    in the statement, the statement does not come back unchanged when it has
    white space around it. *)
Lemma inject_returns_stripped :
  existsb is_backed [] = false /\
  re_search DbServer.RE_ALIAS " SELECT 1" = None /\
  DbServer._inject_virtual_table " SELECT 1" [] = Some "SELECT 1" /\
  DbServer._inject_virtual_table " SELECT 1" [] <> Some " SELECT 1".
Proof. repeat split; try reflexivity. discriminate. Qed.

(** A leading WITH that is followed by a line break is not merged. *)
Example inject_with_line_break :
  DbServer._inject_virtual_table
    ("WITH" ++ [nl] ++ "x AS (SELECT 2) SELECT * FROM x, query_result")
    [mkTable "query_result" ["a"] (Some "SELECT 1 AS a")]
  = Some ("WITH query_result AS (SELECT 1 AS a)" ++ [nl] ++ "WITH" ++ [nl]
          ++ "x AS (SELECT 2) SELECT * FROM x, query_result").
Proof. vm_compute. reflexivity. Qed.

(** ** Sorted sets of strings *)

Lemma str_ltb_asym a b : str_ltb a b = true -> str_ltb b a = false.
Proof.
  revert b. induction a as [|x a IH]; intros [|y b]; cbn [str_ltb]; try easy.
  destruct (code x <? code y) eqn:E1; destruct (code y <? code x) eqn:E2; try easy.
  - apply Nat.ltb_lt in E1, E2. lia.
  - apply IH.
Qed.

Lemma in_insert_sorted y x l : In y (insert_sorted x l) <-> y = x \/ In y l.
Proof.
  induction l as [|z l IH]; cbn [insert_sorted].
  - cbn. intuition.
  - destruct (str_ltb z x); cbn [In]; [rewrite IH|]; intuition.
Qed.

Lemma in_dedup y l : In y (dedup l) <-> In y l.
Proof.
  induction l as [|x l IH]; cbn [dedup]; [easy|].
  destruct (mem x l) eqn:E; cbn [In]; rewrite IH.
  - apply mem_spec in E. split; [tauto|]. intros [<-|H]; tauto.
  - tauto.
Qed.

Lemma nodup_dedup l : List.NoDup (dedup l).
Proof.
  induction l as [|x l IH]; cbn [dedup]; [constructor|].
  destruct (mem x l) eqn:E; [exact IH|].
  apply List.NoDup_cons; [|exact IH]. rewrite in_dedup. intros H.
  apply mem_spec in H. congruence.
Qed.

Lemma in_sorted_set y l : In y (sorted_set l) <-> In y l.
Proof.
  unfold sorted_set. rewrite <- (in_dedup y l).
  induction (dedup l) as [|x d IH]; cbn [fold_right]; [easy|].
  rewrite in_insert_sorted, IH. cbn. intuition.
Qed.

Lemma hdrel_insert_sorted y x l :
  HdRel str_le y l -> str_le y x -> HdRel str_le y (insert_sorted x l).
Proof.
  intros Hl Hx. destruct l as [|z l]; cbn [insert_sorted].
  - now constructor.
  - destruct (str_ltb z x); constructor; [now inversion Hl | exact Hx].
Qed.

Lemma sorted_insert_sorted x l : Sorted str_le l -> Sorted str_le (insert_sorted x l).
Proof.
  induction l as [|y l IH]; intros Hs; cbn [insert_sorted].
  - repeat constructor.
  - inversion Hs as [|? ? Hl Hhd]; subst.
    destruct (str_ltb y x) eqn:E.
    + constructor; [now apply IH|].
      apply hdrel_insert_sorted; [exact Hhd|]. now apply str_ltb_asym.
    + constructor; [exact Hs|]. constructor. exact E.
Qed.

Lemma nodup_insert_sorted x l : ~ In x l -> List.NoDup l -> List.NoDup (insert_sorted x l).
Proof.
  induction l as [|y l IH]; intros Hx Hn; cbn [insert_sorted].
  - repeat constructor. easy.
  - destruct (str_ltb y x).
    + inversion Hn; subst. apply List.NoDup_cons.
      * rewrite in_insert_sorted. intros [->|H]; [apply Hx; now left | easy].
      * apply IH; [|assumption]. intros H. apply Hx. now right.
    + now apply List.NoDup_cons.
Qed.

Lemma sorted_set_sorted l : Sorted str_le (sorted_set l) /\ List.NoDup (sorted_set l).
Proof.
  unfold sorted_set. pose proof (nodup_dedup l) as Hn.
  induction (dedup l) as [|x d IH]; cbn [fold_right].
  - split; constructor.
  - inversion Hn; subst. destruct (IH ltac:(assumption)) as [Hs Hd]. split.
    + now apply sorted_insert_sorted.
    + apply nodup_insert_sorted; [|exact Hd].
      intros H. assert (In x d); [|easy].
      clear -H. induction d as [|z d IHd]; cbn [fold_right] in H; [easy|].
      apply in_insert_sorted in H as [->|H]; [now left | right; now apply IHd].
Qed.

Lemma truthy_list_in {A} (l : list A) x : In x l -> truthy_list l = true.
Proof. destruct l; [easy | reflexivity]. Qed.

(** ** C4: the missing-virtual guard of db_query *)

Lemma available_virtuals_backed tables :
  DbServer.available_virtuals tables = map t_name (List.filter is_backed tables).
Proof.
  unfold DbServer.available_virtuals. f_equal. apply List.filter_ext. intros t.
  unfold is_backed. destruct (DbServer.is_virtual_name (t_name t)) eqn:E.
  - now rewrite (virtual_name_truthy _ E).
  - now rewrite andb_false_r.
Qed.

Lemma inject_total_without_single_real s tables :
  length (DbServer.real_tables tables) <> 1 ->
  exists injected, DbServer._inject_virtual_table s tables = Some injected.
Proof.
  intros Hlen. unfold DbServer._inject_virtual_table.
  destruct (DbServer.backed_virtuals tables).
  - destruct (is_some _); [|eauto].
    destruct (DbServer.real_tables tables) as [|t1 [|t2 l]]; eauto.
    now contradiction Hlen.
  - destruct (startswith _ _); eauto.
Qed.

Lemma missing_virtuals_spec sql tables m :
  In m (DbServer.missing_virtuals sql tables) <->
  exists u, In u (DbServer.used_virtuals sql) /\ m = lower u /\
            ~ In m (map lower (DbServer.available_virtuals tables)).
Proof.
  unfold DbServer.missing_virtuals. rewrite in_sorted_set, List.filter_In, in_map_iff.
  rewrite negb_true_iff. split.
  - intros ((u & <- & Hu) & Hm). exists u. repeat split; [exact Hu|].
    intros H. apply mem_spec in H. congruence.
  - intros (u & Hu & -> & Hm). split; [eauto|].
    destruct (mem _ _) eqn:E; [|reflexivity]. apply mem_spec in E. easy.
Qed.

(** C4 -- [db_query] normalises and injects the SQL; when the injected SQL
    holds a query_result(_n) token that is no backed virtual table of the
    context (names compared in lower case) and the context does not have
    exactly one real table, it returns the structured error with the sorted
    missing aliases, the available ones, the hint and the injected SQL, and
    calls neither guard nor the executor.  The agent's [_tool_db_query]
    does the same. *)
Theorem db_query_missing_virtual_guard
    (env_ro env_allow : option str) (execute : str -> json -> json + str)
    (sql : str) (ctx : ChartContext) (params : json) :
  length (DbServer.real_tables ctx) <> 1 ->
  exists injected,
    DbServer._inject_virtual_table (DbServer.normalize_sql sql) ctx = Some injected /\
    ((exists u, In u (DbServer.used_virtuals injected) /\
                ~ In (lower u) (map lower (DbServer.available_virtuals ctx))) ->
     exists missing available calls,
       DbServer.db_query env_ro env_allow execute sql ctx params
       = Some (calls, DbServer.QMissing "Missing virtual tables in chartContext"
                        missing available DbServer.MISSING_HINT injected) /\
       forallb is_log calls = true /\
       Agent._tool_db_query env_ro env_allow execute sql ctx params
       = Some ([], DbServer.QMissing "Missing virtual tables in chartContext"
                     missing available DbServer.MISSING_HINT injected) /\
       (forall m, In m missing <->
          exists u, In u (DbServer.used_virtuals injected) /\ m = lower u /\
                    ~ In m (map lower (DbServer.available_virtuals ctx))) /\
       Sorted str_le missing /\ List.NoDup missing /\
       (forall a, In a available <-> In a (map lower (DbServer.available_virtuals ctx))) /\
       Sorted str_le available /\ List.NoDup available).
Proof.
  intros Hlen.
  destruct (inject_total_without_single_real (DbServer.normalize_sql sql) ctx Hlen)
    as (injected & Hinj).
  exists injected. split; [exact Hinj|].
  intros (u & Hu & Habsent).
  assert (Hm : In (lower u) (DbServer.missing_virtuals injected ctx))
    by (apply missing_virtuals_spec; eauto).
  assert (Hguard : forall p, DbServer.guarded_query env_ro env_allow execute injected ctx p
            = ([], DbServer.QMissing DbServer.MISSING_ERROR
                     (DbServer.missing_virtuals injected ctx)
                     (sorted_set (map lower (DbServer.available_virtuals ctx)))
                     DbServer.MISSING_HINT injected)).
  { intros p. unfold DbServer.guarded_query.
    rewrite (truthy_list_in _ _ Hm).
    destruct (length (DbServer.real_tables ctx) =? 1) eqn:E; [|reflexivity].
    apply Nat.eqb_eq in E. congruence. }
  eexists _, _, _. split; [|split; [|split; [|split; [|split; [|split; [|split; [|split]]]]]]].
  - unfold DbServer.db_query. rewrite Hinj, Hguard. rewrite app_nil_r. reflexivity.
  - now destruct (negb _).
  - unfold Agent._tool_db_query. rewrite Hinj, Hguard. reflexivity.
  - intros m. apply missing_virtuals_spec.
  - apply sorted_set_sorted.
  - apply sorted_set_sorted.
  - intros a. apply in_sorted_set.
  - apply sorted_set_sorted.
  - apply sorted_set_sorted.
Qed.

Lemma db_query_missing_virtual_guard_witness :
  exists calls,
    DbServer.db_query None None (fun _ _ => inl (JList []))
      "SELECT * FROM query_result_2 LIMIT 0, 5" ctx_two_real JNull
    = Some (calls, DbServer.QMissing "Missing virtual tables in chartContext"
                     ["query_result_2"] [] DbServer.MISSING_HINT
                     "SELECT * FROM query_result_2 LIMIT 5 OFFSET 0") /\
    forallb is_log calls = true.
Proof.
  destruct (db_query_missing_virtual_guard None None (fun _ _ => inl (JList []))
              "SELECT * FROM query_result_2 LIMIT 0, 5" ctx_two_real JNull
              ltac:(cbn; discriminate)) as (injected & Hinj & Hguard).
  assert (Hi : injected = "SELECT * FROM query_result_2 LIMIT 5 OFFSET 0").
  { vm_compute in Hinj. now injection Hinj as <-. }
  subst injected.
  destruct Hguard as (missing & available & calls & Hq & Hlog & _).
  { exists "query_result_2". split; [vm_compute; now left | vm_compute; tauto]. }
  exists calls. split; [|exact Hlog].
  rewrite Hq. vm_compute in Hq. injection Hq as _ <- <-. reflexivity.
Defined.

(** ** C5 and C10: the chart-spec validator *)

Lemma allowed_by_alias_snoc tables t alias :
  DbServer.allowed_by_alias (tables ++ [t]) !! alias =
  if truthy (t_name t) && str_eqb (t_name t) alias
  then Some (map lower (t_columns t))
  else DbServer.allowed_by_alias tables !! alias.
Proof.
  unfold DbServer.allowed_by_alias. rewrite fold_left_app. cbn [fold_left].
  destruct (truthy (t_name t)); cbn [andb]; [|reflexivity].
  destruct (str_eqb (t_name t) alias) eqn:E.
  - apply str_eqb_spec in E. subst. apply lookup_insert_eq.
  - apply lookup_insert_ne. intros H. apply str_eqb_spec in H. congruence.
Qed.

Lemma allowed_by_alias_some tables alias cols :
  DbServer.allowed_by_alias tables !! alias = Some cols ->
  exists t, In t tables /\ t_name t = alias /\ alias <> [] /\
            cols = map lower (t_columns t).
Proof.
  induction tables as [|t tables IH] using rev_ind.
  - unfold DbServer.allowed_by_alias. cbn. now rewrite lookup_empty.
  - rewrite allowed_by_alias_snoc.
    destruct (truthy (t_name t)) eqn:Et; cbn [andb].
    + destruct (str_eqb (t_name t) alias) eqn:E.
      * apply str_eqb_spec in E. intros [= <-]. exists t.
        repeat split; [apply in_or_app; right; now left | exact E |].
        intros ->. rewrite E in Et. discriminate.
      * intros H. destruct (IH H) as (t' & Hin & Hrest). exists t'.
        split; [apply in_or_app; now left | exact Hrest].
    + intros H. destruct (IH H) as (t' & Hin & Hrest). exists t'.
      split; [apply in_or_app; now left | exact Hrest].
Qed.

Lemma allowed_by_alias_unique tables t :
  List.NoDup (map t_name tables) -> In t tables -> t_name t <> [] ->
  DbServer.allowed_by_alias tables !! t_name t = Some (map lower (t_columns t)).
Proof.
  induction tables as [|t' tables IH] using rev_ind; [easy|].
  intros Hnd Hin Hne. rewrite allowed_by_alias_snoc.
  rewrite map_app in Hnd. cbn [map] in Hnd.
  apply in_app_or in Hin as [Hin | [-> | []]].
  - destruct (str_eqb (t_name t') (t_name t)) eqn:E.
    + apply str_eqb_spec in E. exfalso.
      apply List.NoDup_remove_2 in Hnd. apply Hnd. rewrite app_nil_r, E.
      now apply in_map.
    + rewrite andb_false_r. apply IH; [|assumption..].
      apply List.NoDup_remove_1 in Hnd. now rewrite app_nil_r in Hnd.
  - assert (Et : truthy (t_name t) = true) by (destruct (t_name t); easy).
    rewrite Et. cbn [andb].
    assert (E : str_eqb (t_name t) (t_name t) = true) by now apply str_eqb_spec.
    now rewrite E.
Qed.

Lemma in_columns_union tables x :
  In x (DbServer.allowed_columns_union tables) <->
  exists t c, In t tables /\ In c (t_columns t) /\ lower c = x.
Proof.
  unfold DbServer.allowed_columns_union. rewrite in_flat_map. split.
  - intros (t & Ht & Hx). apply in_map_iff in Hx as (c & Hc & Hin). eauto.
  - intros (t & c & Ht & Hc & Hx). exists t. split; [exact Ht|].
    apply in_map_iff. eauto.
Qed.

Lemma split1_qualified alias col :
  has_char "." alias = false -> split1 "." (alias ++ "." ++ col) = (alias, col).
Proof.
  induction alias as [|c alias IH]; intros H; [reflexivity|].
  cbn [has_char existsb] in H. apply orb_false_iff in H as [Hc H].
  change ((c :: alias) ++ "." ++ col) with (c :: (alias ++ "." ++ col)).
  cbn [split1]. rewrite Ascii.eqb_sym, Hc. now rewrite IH.
Qed.

Lemma has_char_qualified alias col : has_char "." (alias ++ "." ++ col) = true.
Proof. apply has_char_spec. apply in_or_app. right. now left. Qed.

Lemma check_field_issue str_of tables v name issues used :
  fst (DbServer.check_field str_of tables v name (issues, used))
  = issues ++ channel_issue str_of tables name v.
Proof.
  unfold DbServer.check_field, channel_issue, field_ok.
  destruct (negb (json_truthy (DbServer.extract_field v))); [now rewrite app_nil_r|].
  destruct (has_char "." _).
  - destruct (split1 "." _) as [alias col]. cbn [fst snd].
    destruct (DbServer.allowed_by_alias tables !! alias) as [cols|]; [|reflexivity].
    destruct (mem (lower col) cols); cbn [negb fst]; [now rewrite app_nil_r | reflexivity].
  - destruct (mem _ _); cbn [negb fst]; [now rewrite app_nil_r | reflexivity].
Qed.

Lemma fold_check_field_issues str_of tables enc st :
  fst (fold_left (fun st kv => DbServer.check_field str_of tables (snd kv) (fst kv) st) enc st)
  = fst st ++ encoding_issues str_of tables enc.
Proof.
  revert st. induction enc as [|[k v] enc IH]; intros st; cbn [fold_left].
  - now rewrite app_nil_r.
  - rewrite IH. destruct st as [issues used]. cbn [fst snd].
    rewrite check_field_issue. unfold encoding_issues. cbn [flat_map fst snd].
    now rewrite (app_assoc issues).
Qed.

Lemma check_candlestick_issues str_of tables enc st :
  fst (DbServer.check_candlestick str_of tables enc st)
  = fst st ++ candlestick_issues str_of tables enc.
Proof.
  unfold DbServer.check_candlestick, candlestick_issues.
  revert st. induction DbServer.CANDLESTICK_KEYS as [|k keys IH]; intros st; cbn [fold_left].
  - now rewrite app_nil_r.
  - rewrite IH. cbn [flat_map]. destruct st as [issues used]. cbn [fst].
    rewrite (app_assoc issues). f_equal.
    destruct (assoc k enc) as [v|]; [apply check_field_issue | reflexivity].
Qed.

Lemma validate_issues str_of get_mark spec tables enc mark :
  DbServer.encoding_items spec = Ok enc -> get_mark spec "mark" = Ok mark ->
  exists cols aliases by_table fields,
    DbServer.validate_body str_of get_mark spec tables
    = Ok (DbServer.Checked
            (length (encoding_issues str_of tables enc ++
                     (if DbServer.is_candlestick mark
                      then candlestick_issues str_of tables enc else [])) =? 0)
            (encoding_issues str_of tables enc ++
             (if DbServer.is_candlestick mark
              then candlestick_issues str_of tables enc else []))
            cols aliases by_table fields).
Proof.
  intros Henc Hmark. unfold DbServer.validate_body. rewrite Henc, Hmark.
  set (st := fold_left _ enc _).
  assert (Hst : fst st = encoding_issues str_of tables enc)
    by (subst st; now rewrite fold_check_field_issues).
  destruct (DbServer.is_candlestick mark).
  - rewrite check_candlestick_issues, Hst. eauto.
  - rewrite Hst, app_nil_r. eauto.
Qed.

Lemma vr_ok_issues str_of spec tables :
  DbServer.vr_ok (DbServer.plot_render str_of spec tables) = true <->
  DbServer.vr_issues (DbServer.plot_render str_of spec tables) = [].
Proof.
  unfold DbServer.plot_render, DbServer.validate_body.
  destruct (DbServer.encoding_items spec); [|easy].
  destruct (DbServer.plain_get spec "mark"); [|easy].
  cbn [DbServer.catch_all DbServer.vr_ok DbServer.vr_issues].
  rewrite Nat.eqb_eq. apply length_zero_iff_nil.
Qed.











(** C10 -- in an [alias.column] reference the alias is compared with the
    table names as written, the column case apart: with table [prices] and
    column [close], [PRICES.close] is an issue while [prices.CLOSE] and the
    bare [CLOSE] pass, in [plot_render] and in the agent's
    [_tool_plot_render] alike. *)
Theorem alias_case_sensitive_column_not (str_of : json -> str) :
  let render f := DbServer.plot_render str_of (chart_spec "line" [("y", JStr f)]) ctx_prices in
  let tool f := Agent._tool_plot_render str_of (chart_spec "line" [("y", JStr f)]) ctx_prices in
  DbServer.vr_issues (render "PRICES.close")
  = ["Field not in context: PRICES.close (encoding.y)"] /\
  DbServer.vr_ok (render "PRICES.close") = false /\
  DbServer.vr_issues (render "prices.CLOSE") = [] /\
  DbServer.vr_ok (render "prices.CLOSE") = true /\
  DbServer.vr_issues (render "CLOSE") = [] /\
  DbServer.vr_ok (render "CLOSE") = true /\
  (forall f, tool f = render f).
Proof.
  cbv zeta. repeat split; try (vm_compute; reflexivity).
Qed.

(** ** C6: the normaliser *)

Lemma replace_absent c new s :
  has_char c s = false -> replace [c] new s = s.
Proof.
  unfold replace. induction s as [|x s IH]; intros H; [reflexivity|].
  cbn [has_char existsb] in H. apply orb_false_iff in H as [Hx H].
  cbn [replace_go startswith]. rewrite Hx. cbn [andb]. now rewrite IH.
Qed.

Lemma sub_no_match r repl prev s :
  search_from r prev s = None -> sub_go r repl prev s 0 = s.
Proof.
  revert prev. induction s as [|c s IH]; intros prev H; cbn [search_from sub_go] in *.
  - now destruct (match_at r prev []).
  - destruct (match_at r prev (c :: s)); [discriminate|]. now rewrite IH.
Qed.






Example normalize_nested_year :
  DbServer.normalize_sql "SELECT YEAR(YEAR(d))" = "SELECT EXTRACT(YEAR FROM YEAR(d))" /\
  DbServer.normalize_sql "SELECT EXTRACT(YEAR FROM YEAR(d))"
  = "SELECT EXTRACT(YEAR FROM EXTRACT(YEAR FROM d))".
Proof. split; vm_compute; reflexivity. Qed.

(** ** C7: the dataset binder *)

Lemma bind_if_absent_lookup (rows : list json) (ds : gmap str (list json)) (b a : str) :
  Agent.bind_if_absent rows ds b !! a =
  match ds !! a with
  | Some v => Some v
  | None => if str_eqb a b then Some rows else None
  end.
Proof.
  unfold Agent.bind_if_absent. destruct (str_eqb a b) eqn:E.
  - apply str_eqb_spec in E. subst b.
    destruct (ds !! a) eqn:Ea; [exact Ea | apply lookup_insert_eq].
  - assert (Hne : b <> a) by (intros ->; now rewrite (proj2 (str_eqb_spec a a) eq_refl) in E).
    destruct (ds !! b); [now destruct (ds !! a)|].
    rewrite lookup_insert_ne by exact Hne. now destruct (ds !! a).
Qed.

Lemma fold_bind_if_absent (rows : list json) (l : list str) (ds : gmap str (list json))
    (a : str) :
  fold_left (Agent.bind_if_absent rows) l ds !! a =
  match ds !! a with
  | Some v => Some v
  | None => if mem a l then Some rows else None
  end.
Proof.
  revert ds. induction l as [|b l IH]; intros ds; cbn [fold_left].
  - now destruct (ds !! a).
  - rewrite IH, bind_if_absent_lookup. destruct (ds !! a); [reflexivity|].
    unfold mem. cbn [existsb]. fold (mem a l).
    now destruct (str_eqb a b).
Qed.

Lemma bind_record_lookup (ds : gmap str (list json)) (q : Agent.QueryRecord) (a : str) :
  Agent.bind_record ds q !! a =
  match ds !! a with
  | Some v => Some v
  | None => if binds q a then Agent.rows_of (Agent.q_result q) else None
  end.
Proof.
  unfold Agent.bind_record, binds.
  destruct (Agent.rows_of (Agent.q_result q)) as [rows|]; cbn [is_some andb].
  - rewrite fold_bind_if_absent.
    destruct (Agent.aliases_of q) as [|x l] eqn:E; cbn [truthy_list negb].
    + rewrite bind_if_absent_lookup. cbn [mem existsb orb andb].
      destruct (ds !! a); [reflexivity|]. now destruct (str_eqb a "query_result").
    + cbn [andb]. rewrite orb_false_r. reflexivity.
  - now destruct (ds !! a).
Qed.

Lemma find_app_first {A} (f : A -> bool) l1 l2 :
  find f (l1 ++ l2) = match find f l1 with
                      | Some x => Some x
                      | None => find f l2
                      end.
Proof.
  induction l1 as [|x l1 IH]; [reflexivity|]. cbn [app find].
  destruct (f x); [reflexivity | exact IH].
Qed.

Lemma fold_bind_record (l : list Agent.QueryRecord) (ds : gmap str (list json)) (a : str) :
  fold_left Agent.bind_record l ds !! a =
  match ds !! a with
  | Some v => Some v
  | None => match find (fun q => binds q a) l with
            | Some q => Agent.rows_of (Agent.q_result q)
            | None => None
            end
  end.
Proof.
  revert ds. induction l as [|q l IH]; intros ds; cbn [fold_left find].
  - now destruct (ds !! a).
  - rewrite IH, bind_record_lookup. destruct (ds !! a); [reflexivity|].
    destruct (binds q a) eqn:Eb; [|reflexivity].
    destruct (Agent.rows_of (Agent.q_result q)) eqn:Er; [reflexivity|].
    unfold binds in Eb. rewrite Er in Eb. discriminate.
Qed.

Lemma accumulate_latest prior a : Agent.accumulate prior !! a = latest_rows prior a.
Proof.
  unfold Agent.accumulate, latest_rows. rewrite fold_bind_record.
  now rewrite lookup_empty.
Qed.

Lemma keep_referenced_lookup (ds acc : gmap str (list json)) (n k : str) :
  (forall k v, acc !! k = Some v -> ds !! k = Some v) ->
  (forall v, Agent.keep_referenced ds acc n !! k = Some v <->
             ds !! k = Some v /\ (is_Some (acc !! k) \/ kept_for ds [n] k)) /\
  (forall k v, Agent.keep_referenced ds acc n !! k = Some v -> ds !! k = Some v).
Proof.
  intros Hinv.
  assert (Hstep : forall k v, Agent.keep_referenced ds acc n !! k = Some v <->
             ds !! k = Some v /\ (is_Some (acc !! k) \/ kept_for ds [n] k)).
  { clear k. intros k v. unfold Agent.keep_referenced, kept_for.
    destruct (ds !! n) as [rows|] eqn:En.
    - destruct (decide (n = k)) as [->|Hne].
      + rewrite lookup_insert_eq. split.
        * intros [= <-]. split; [exact En|]. right. left. now left.
        * intros [Hk _]. congruence.
      + rewrite lookup_insert_ne by exact Hne. split.
        * intros H. split; [now apply Hinv|]. left. now exists v.
        * intros [Hk [[w Hw] | [[Hin | []] | (_ & m & [<- | []] & _ & Hm)]]].
          -- apply Hinv in Hw as Hw'. congruence.
          -- congruence.
          -- congruence.
    - destruct (str_eqb (lower n) "query_result") eqn:El.
      + apply str_eqb_spec in El.
        destruct (ds !! "query_result") as [rows|] eqn:Eq.
        * destruct (decide ("query_result" = k)) as [<-|Hne].
          -- rewrite lookup_insert_eq. split.
             ++ intros [= <-]. split; [exact Eq|]. right. right.
                split; [reflexivity|]. exists n. repeat split; [now left | exact El | exact En].
             ++ intros [Hk _]. exact (eq_trans (eq_sym Eq) Hk).
          -- rewrite lookup_insert_ne by exact Hne. split.
             ++ intros H. split; [now apply Hinv|]. left. now exists v.
             ++ intros [Hk [[w Hw] | [[Hin | []] | (Hq & _)]]].
                ** apply Hinv in Hw as Hw'. congruence.
                ** congruence.
                ** congruence.
        * split.
          -- intros H. split; [now apply Hinv|]. left. now exists v.
          -- intros [Hk [[w Hw] | [[Hin | []] | (Hq & _)]]].
             ++ apply Hinv in Hw as Hw'. congruence.
             ++ congruence.
             ++ subst k. discriminate (eq_trans (eq_sym Eq) Hk).
      + split.
        * intros H. split; [now apply Hinv|]. left. now exists v.
        * intros [Hk [[w Hw] | [[Hin | []] | (Hq & m & [<- | []] & Hl & _)]]].
          -- apply Hinv in Hw as Hw'. congruence.
          -- congruence.
          -- apply str_eqb_spec in Hl. congruence. }
  split; [apply Hstep|]. intros k' v' H. now apply Hstep in H.
Qed.

Lemma kept_for_cons (ds : gmap str (list json)) (n : str) (l : list str) (k : str) :
  kept_for ds (n :: l) k <-> kept_for ds [n] k \/ kept_for ds l k.
Proof.
  unfold kept_for. cbn [In]. split.
  - intros [[->|H] | (Hk & m & [->|Hm] & Hrest)].
    + left. left. now left.
    + right. now left.
    + left. right. split; [exact Hk|]. exists m. split; [now left | exact Hrest].
    + right. right. split; [exact Hk|]. exists m. split; [exact Hm | exact Hrest].
  - intros [[[->|[]] | (Hk & m & [->|[]] & Hrest)] | [H | (Hk & m & Hm & Hrest)]].
    + left. now left.
    + right. split; [exact Hk|]. exists m. split; [now left | exact Hrest].
    + left. now right.
    + right. split; [exact Hk|]. exists m. split; [now right | exact Hrest].
Qed.

Lemma fold_keep_referenced (ds : gmap str (list json)) (l : list str)
    (acc : gmap str (list json)) :
  (forall k v, acc !! k = Some v -> ds !! k = Some v) ->
  forall k v, fold_left (Agent.keep_referenced ds) l acc !! k = Some v <->
              ds !! k = Some v /\ (is_Some (acc !! k) \/ kept_for ds l k).
Proof.
  revert acc. induction l as [|n l IH]; intros acc Hinv k v; cbn [fold_left].
  - split.
    + intros H. split; [now apply Hinv|]. left. now exists v.
    + intros [Hk [[w Hw] | [[] | (_ & m & [] & _)]]].
      apply Hinv in Hw as Hw'. congruence.
  - destruct (keep_referenced_lookup ds acc n k Hinv) as [Hstep Hinv'].
    rewrite (IH _ Hinv'). rewrite kept_for_cons. split.
    + intros [Hk [[w Hw] | Hl]].
      * apply Hstep in Hw as [_ Hw]. split; [exact Hk | tauto].
      * split; [exact Hk | tauto].
    + intros [Hk [Ha | [Hn | Hl]]].
      * split; [exact Hk|]. left. exists v. apply Hstep. tauto.
      * split; [exact Hk|]. left. exists v. apply Hstep. tauto.
      * split; [exact Hk | tauto].
Qed.



(** ** C8: the streaming run *)

Lemma chunk_text_app a b : Agent.chunk_text (a ++ b) = Agent.chunk_text a ++ Agent.chunk_text b.
Proof.
  induction a as [|e a IH]; [reflexivity|].
  destruct e; cbn [app Agent.chunk_text]; try exact IH.
  now rewrite IH, app_assoc.
Qed.

Lemma fallback_loop_text pieces assembled :
  snd (Agent.fallback_loop pieces assembled)
  = assembled ++ Agent.chunk_text (fst (Agent.fallback_loop pieces assembled)) /\
  existsb Agent.is_done (fst (Agent.fallback_loop pieces assembled)) = false.
Proof.
  revert assembled. induction pieces as [|p pieces IH]; intros assembled;
    cbn [Agent.fallback_loop].
  - cbn. now rewrite app_nil_r.
  - destruct (Agent.fallback_loop pieces (assembled ++ p)) as [evs final] eqn:E.
    destruct (IH (assembled ++ p)) as [Ht Hd]. rewrite E in Ht, Hd.
    cbn [fst snd] in *. cbn [Agent.chunk_text existsb Agent.is_done orb].
    split; [now rewrite Ht, <- app_assoc | exact Hd].
Qed.

Lemma stream_loop_text rid stream assembled :
  snd (Agent.stream_loop rid stream assembled)
  = assembled ++ Agent.chunk_text (fst (Agent.stream_loop rid stream assembled)) /\
  existsb Agent.is_done (fst (Agent.stream_loop rid stream assembled)) = false /\
  Agent.chunk_text (fst (Agent.stream_loop rid stream assembled))
  = concat (map (default "") stream).
Proof.
  revert assembled. induction stream as [|d stream IH]; intros assembled;
    cbn [Agent.stream_loop].
  - cbn. now rewrite app_nil_r.
  - destruct (truthy_opt d) eqn:Ed; cbn [negb].
    + destruct (Agent.stream_loop rid stream (assembled ++ default "" d))
        as [evs final] eqn:E.
      destruct (IH (assembled ++ default "" d)) as (Ht & Hd & Hc).
      rewrite E in Ht, Hd, Hc. cbn [fst snd] in *.
      cbn [Agent.chunk_text existsb Agent.is_done orb map concat].
      split; [now rewrite Ht, <- app_assoc|]. split; [exact Hd | now rewrite Hc].
    + destruct (IH assembled) as (Ht & Hd & Hc).
      split; [exact Ht|]. split; [exact Hd|]. rewrite Hc. cbn [map concat].
      destruct d as [[|c s]|]; [reflexivity | discriminate | reflexivity].
Qed.

Lemma run_tools_silent rid calls :
  Agent.chunk_text (fst (Agent.run_tools rid calls)) = [] /\
  existsb Agent.is_done (fst (Agent.run_tools rid calls)) = false.
Proof.
  induction calls as [|c calls IH]; [now split|].
  destruct c as [name args norm inj result result_str | msg]; cbn [Agent.run_tools].
  - destruct (Agent.run_tools rid calls) as [evs ok]. cbn [fst] in *.
    destruct IH as [Ht Hd].
    cbn [Agent.chunk_text existsb Agent.is_done orb].
    rewrite chunk_text_app, existsb_app. cbn [Agent.chunk_text existsb Agent.is_done orb].
    rewrite Ht, Hd.
    assert (Hs : forall l, Agent.chunk_text (map (fun d => Agent.Ev_tool_chunk name d rid) l) = []
                        /\ existsb Agent.is_done
                             (map (fun d => Agent.Ev_tool_chunk name d rid) l) = false).
    { induction l as [|x l [IH1 IH2]]; [now split|]. now split. }
    destruct (Hs (Agent.slices 2048 result_str)) as [-> ->]. now split.
  - now split.
Qed.

Lemma well_streamed_prefix pre evs :
  Agent.chunk_text pre = [] -> existsb Agent.is_done pre = false ->
  well_streamed evs -> well_streamed (pre ++ evs).
Proof.
  intros Ht Hd [Hn | (p & r & -> & Hp)].
  - left. now rewrite existsb_app, Hd, Hn.
  - right. exists (pre ++ p), r. rewrite chunk_text_app, Ht. cbn [app].
    split; [now rewrite app_assoc | now rewrite existsb_app, Hd, Hp].
Qed.

Lemma run_rounds_well_streamed rid script : well_streamed (Agent.run_rounds rid script).
Proof.
  induction script as [|c script IH]; [now left|].
  destruct c as [calls | stream failure | msg]; cbn [Agent.run_rounds].
  - pose proof (run_tools_silent rid calls) as [Ht Hd].
    destruct (Agent.run_tools rid calls) as [evs ok]. cbn [fst] in *.
    destruct ok; [now apply well_streamed_prefix | now left].
  - pose proof (stream_loop_text rid stream "") as (Ht & Hd & _).
    destruct (Agent.stream_loop rid stream "") as [evs assembled]. cbn [fst snd] in *.
    destruct failure as [msg|].
    + left. rewrite existsb_app, Hd. reflexivity.
    + right. exists evs, (Some rid). now rewrite Ht.
  - now left.
Qed.

Lemma run_agent_stream_well_streamed configured rid script :
  well_streamed (Agent.run_agent_stream configured rid script).
Proof.
  unfold Agent.run_agent_stream. destruct configured; cbn [negb].
  - apply run_rounds_well_streamed.
  - pose proof (fallback_loop_text Agent.FAKE "") as [Ht Hd].
    destruct (Agent.fallback_loop Agent.FAKE "") as [evs assembled]. cbn [fst snd] in *.
    right. exists evs, None. now rewrite Ht.
Qed.

Lemma done_is_last pre d r pre' d' r' post :
  existsb Agent.is_done pre = false ->
  pre ++ [Agent.Ev_done d r] = pre' ++ Agent.Ev_done d' r' :: post ->
  pre' = pre /\ d' = d /\ r' = r /\ post = [].
Proof.
  revert pre'. induction pre as [|e pre IH]; intros pre' Hd Heq.
  - destruct pre' as [|e' pre']; cbn in Heq.
    + now injection Heq as -> -> ->.
    + injection Heq as _ Heq. now destruct pre'.
  - cbn [existsb] in Hd. apply orb_false_iff in Hd as [He Hd].
    destruct pre' as [|e' pre']; cbn in Heq.
    + injection Heq as -> _. discriminate He.
    + injection Heq as -> Heq. destruct (IH pre' Hd Heq) as (-> & Hrest). easy.
Qed.

Lemma run_tools_all_run rid calls :
  forallb tool_runs calls = true -> snd (Agent.run_tools rid calls) = true.
Proof.
  induction calls as [|c calls IH]; [reflexivity|].
  destruct c; cbn [forallb tool_runs andb Agent.run_tools]; [|discriminate].
  intros H. destruct (Agent.run_tools rid calls). now apply IH.
Qed.

Lemma run_rounds_completes rid rounds stream rest :
  forallb (forallb tool_runs) rounds = true ->
  exists pre,
    Agent.run_rounds rid (map Agent.WithToolCalls rounds ++ Agent.NoToolCalls stream None :: rest)
    = pre ++ [Agent.Ev_done (concat (map (default "") stream)) (Some rid)]
    /\ Agent.chunk_text pre = concat (map (default "") stream).
Proof.
  induction rounds as [|calls rounds IH]; intros Hall.
  - cbn [map app Agent.run_rounds].
    pose proof (stream_loop_text rid stream "") as (Ht & _ & Hc).
    destruct (Agent.stream_loop rid stream "") as [evs assembled]. cbn [fst snd] in *.
    exists evs. now rewrite Ht, Hc.
  - cbn [forallb] in Hall. apply andb_true_iff in Hall as [Hc Hall].
    destruct (IH Hall) as (pre & Hpre & Htext).
    cbn [map app Agent.run_rounds].
    pose proof (run_tools_all_run rid calls Hc) as Hok.
    pose proof (run_tools_silent rid calls) as [Ht _].
    destruct (Agent.run_tools rid calls) as [evs ok]. cbn [fst snd] in *. subst ok.
    exists (evs ++ pre). rewrite Hpre, chunk_text_app, Ht, Htext.
    split; [now rewrite app_assoc | reflexivity].
Qed.

(** C8 -- in every run of [run_agent_stream] a [done] event is the last
    event and the only one of its kind, and its [answer] is, character for
    character, the concatenation of the [delta] of the chunk events: on the
    fallback path, which always ends so, and on the normal path, which ends
    so once a round without tool calls has its token stream end without an
    exception. *)
Theorem stream_chunks_equal_answer (configured : bool) (rid : str)
    (script : list Agent.completion) :
  let evs := Agent.run_agent_stream configured rid script in
  (forall pre answer r post,
     evs = pre ++ Agent.Ev_done answer r :: post ->
     post = [] /\ existsb Agent.is_done pre = false /\
     Agent.chunk_text evs = answer) /\
  (configured = false ->
     exists pre, evs = pre ++ [Agent.Ev_done (Agent.chunk_text pre) None]
                 /\ Agent.chunk_text pre = concat Agent.FAKE) /\
  (configured = true ->
   forall rounds stream rest,
     script = map Agent.WithToolCalls rounds ++ Agent.NoToolCalls stream None :: rest ->
     forallb (forallb tool_runs) rounds = true ->
     exists pre, evs = pre ++ [Agent.Ev_done (Agent.chunk_text pre) (Some rid)]
                 /\ Agent.chunk_text pre = concat (map (default "") stream)).
Proof.
  intros evs. split; [|split].
  - intros pre answer r post Heq.
    destruct (run_agent_stream_well_streamed configured rid script) as [Hn | (p & r' & Hp & Hd)].
    + fold evs in Hn. rewrite Heq, existsb_app in Hn.
      cbn [existsb Agent.is_done] in Hn. now rewrite orb_true_r in Hn.
    + fold evs in Hp. rewrite Hp in Heq.
      destruct (done_is_last _ _ _ _ _ _ _ Hd Heq) as (-> & -> & -> & ->).
      split; [reflexivity|]. split; [exact Hd|].
      rewrite Hp, chunk_text_app. cbn [Agent.chunk_text]. now rewrite app_nil_r.
  - intros ->. subst evs. unfold Agent.run_agent_stream. cbn [negb].
    pose proof (fallback_loop_text Agent.FAKE "") as [Ht _].
    destruct (Agent.fallback_loop Agent.FAKE "") as [pre assembled] eqn:E.
    cbn [fst snd] in Ht. exists pre. rewrite Ht. split; [reflexivity|].
    vm_compute in E. injection E as <- _. reflexivity.
  - intros -> rounds stream rest -> Hall. subst evs.
    unfold Agent.run_agent_stream. cbn [negb].
    destruct (run_rounds_completes rid rounds stream rest Hall) as (pre & Hpre & Ht).
    exists pre. now rewrite Hpre, Ht.
Qed.

Lemma stream_chunks_equal_answer_witness :
  Agent.chunk_text (Agent.run_agent_stream true "r1" script_three_tools) = "final answer" /\
  exists pre,
    Agent.run_agent_stream true "r1" script_three_tools
    = pre ++ [Agent.Ev_done "final answer" (Some "r1")].
Proof.
  destruct (proj2 (proj2 (stream_chunks_equal_answer true "r1" script_three_tools)) eq_refl
              [[Agent.ToolRuns (Some "db_describe") (JDict []) None None (JList []) "[]"];
               [Agent.ToolRuns (Some "db_query") (JDict [("sql", JStr "SELECT 1")])
                  (Some "SELECT 1") (Some "SELECT 1") (JDict [("rows", JList [])])
                  "{}"];
               [Agent.ToolRuns (Some "plot_render") (JDict []) None None (JDict []) "{}"]]
              [Some "final "; None; Some ""; Some "answer"] [] eq_refl eq_refl)
    as (pre & Hpre & Ht).
  split.
  - apply (proj1 (stream_chunks_equal_answer true "r1" script_three_tools)
             pre "final answer" (Some "r1") []).
    rewrite Hpre, Ht. reflexivity.
  - exists pre. rewrite Hpre, Ht. reflexivity.
Defined.

(** * Further properties of the code *)

(** ** The matcher and the words of a pattern *)

Lemma within_refl (w : str) : within w w.
Proof. exists [], []. now rewrite app_nil_r. Qed.

Lemma within_nil (w : str) : within [] w.
Proof. now exists [], w. Qed.

Lemma within_trans (x y z : str) : within x y -> within y z -> within x z.
Proof.
  intros (a & b & ->) (a' & b' & ->). exists (a' ++ a), (b ++ b').
  now rewrite <- !app_assoc.
Qed.

Lemma within_app_l (x w1 w2 : str) : within x w1 -> within x (w1 ++ w2).
Proof. intros (a & b & ->). exists a, (b ++ w2). now rewrite <- !app_assoc. Qed.

Lemma within_app_r (x w1 w2 : str) : within x w2 -> within x (w1 ++ w2).
Proof. intros (a & b & ->). exists (w1 ++ a), b. now rewrite <- !app_assoc. Qed.

Lemma within_in (x w : str) c : within x w -> In c x -> In c w.
Proof. intros (a & b & ->) H. rewrite !in_app_iff. tauto. Qed.

Lemma within_contains (x s : str) : within x s <-> contains x s = true.
Proof. symmetry. apply contains_spec. Qed.

Lemma rep_greedy_sound p l : forall n prev caps k res,
  rep_greedy p n prev l caps k = Some res ->
  exists w rest, l = w ++ rest /\ n <= length w /\ forallb p w = true /\
                 k (MState (last_or prev w) rest caps) = Some res.
Proof.
  induction l as [|c t IH]; intros n prev caps k res H; cbn [rep_greedy] in H.
  - destruct n; [|discriminate]. exists [], []. repeat split; [lia | exact H].
  - assert (Hstop : match n with
                    | O => k (MState prev (c :: t) caps)
                    | S _ => None
                    end = Some res ->
              exists w rest, c :: t = w ++ rest /\ n <= length w /\ forallb p w = true /\
                             k (MState (last_or prev w) rest caps) = Some res).
    { intros Hs. destruct n; [|discriminate].
      exists [], (c :: t). repeat split; [lia | exact Hs]. }
    destruct (p c) eqn:Hp; [|now apply Hstop].
    destruct (rep_greedy p (pred n) (Some c) t caps k) eqn:E; [|now apply Hstop].
    injection H as <-. apply IH in E as (w & rest & -> & Hn & Hall & Hk).
    exists (c :: w), rest. rewrite last_or_cons. cbn [forallb length app].
    rewrite Hp, Hall. repeat split; [lia | exact Hk].
Qed.

Lemma rep_lazy_sound p l : forall n prev caps k res,
  rep_lazy p n prev l caps k = Some res ->
  exists w rest, l = w ++ rest /\ n <= length w /\ forallb p w = true /\
                 k (MState (last_or prev w) rest caps) = Some res.
Proof.
  induction l as [|c t IH]; intros n prev caps k res H; cbn [rep_lazy] in H.
  - destruct n; [|discriminate].
    destruct (k (MState prev [] caps)) eqn:E; [|discriminate].
    exists [], []. repeat split; [lia|]. cbn. now rewrite E.
  - assert (Hmore : (if p c then rep_lazy p (pred n) (Some c) t caps k else None) = Some res ->
              exists w rest, c :: t = w ++ rest /\ n <= length w /\ forallb p w = true /\
                             k (MState (last_or prev w) rest caps) = Some res).
    { intros Hm. destruct (p c) eqn:Hp; [|discriminate].
      apply IH in Hm as (w & rest & -> & Hn & Hall & Hk).
      exists (c :: w), rest. rewrite last_or_cons. cbn [forallb length app].
      rewrite Hp, Hall. repeat split; [lia | exact Hk]. }
    destruct n; [|now apply Hmore].
    destruct (k (MState prev (c :: t) caps)) eqn:E; [|now apply Hmore].
    exists [], (c :: t). repeat split; [lia|]. cbn. now rewrite E.
Qed.

Lemma consumed_app (w rest : str) : consumed (w ++ rest) rest = w.
Proof.
  unfold consumed. rewrite length_app.
  replace (length w + length rest - length rest) with (length w) by lia.
  rewrite firstn_app, firstn_all, Nat.sub_diag. cbn. now rewrite app_nil_r.
Qed.

(** A successful run of the matcher consumed a word of the pattern, and
    what it captured on the way lies within that word. *)
Lemma rmatch_sound r : forall st k res,
  rmatch r st k = Some res ->
  exists st' w new,
    k st' = Some res /\ m_rest st = w ++ m_rest st' /\ lang r w /\
    m_prev st' = last_or (m_prev st) w /\
    m_caps st' = new ++ m_caps st /\ Forall (fun nc => within (snd nc) w) new.
Proof.
  induction r as [|p|g p n|a IHa b IHb|a IHa b IHb|a IHa|n a IHa| | |];
    intros st k res H; cbn [rmatch] in H.
  - exists st, [], []. repeat split; [exact H | constructor].
  - destruct st as [prev [|c t] caps]; cbn [m_rest m_caps m_prev] in *; [discriminate|].
    destruct (p c) eqn:Hp; [|discriminate].
    exists (MState (Some c) t caps), [c], []. cbn.
    repeat split; [exact H | now exists c | constructor].
  - assert (Hrep : exists w rest, m_rest st = w ++ rest /\ n <= length w /\
                     forallb p w = true /\
                     k (MState (last_or (m_prev st) w) rest (m_caps st)) = Some res).
    { destruct g; [now apply rep_greedy_sound in H | now apply rep_lazy_sound in H]. }
    destruct Hrep as (w & rest & Hw & Hn & Hall & Hk).
    exists (MState (last_or (m_prev st) w) rest (m_caps st)), w, []. cbn.
    repeat split; [exact Hk | exact Hw | exact Hn | exact Hall | constructor].
  - apply IHa in H as (st1 & w1 & new1 & Hk1 & Hr1 & Hl1 & Hp1 & Hc1 & Hf1).
    apply IHb in Hk1 as (st2 & w2 & new2 & Hk2 & Hr2 & Hl2 & Hp2 & Hc2 & Hf2).
    exists st2, (w1 ++ w2), (new2 ++ new1). split; [exact Hk2|].
    split; [now rewrite Hr1, Hr2, app_assoc|].
    split; [now exists w1, w2|].
    split; [now rewrite Hp2, Hp1, last_or_app|].
    split; [now rewrite Hc2, Hc1, app_assoc|].
    apply Forall_app; split.
    + eapply List.Forall_impl; [|exact Hf2]. intros nc Hnc. now apply within_app_r.
    + eapply List.Forall_impl; [|exact Hf1]. intros nc Hnc. now apply within_app_l.
  - destruct (rmatch a st k) eqn:E.
    + injection H as <-. apply IHa in E as (st' & w & new & Hk & Hr & Hl & Hrest).
      exists st', w, new. repeat split; try tauto. now left.
    + apply IHb in H as (st' & w & new & Hk & Hr & Hl & Hrest).
      exists st', w, new. repeat split; try tauto. now right.
  - destruct (rmatch a st k) eqn:E.
    + injection H as <-. apply IHa in E as (st' & w & new & Hk & Hr & Hl & Hrest).
      exists st', w, new. repeat split; try tauto. now right.
    + exists st, [], []. repeat split; [exact H | now left | constructor].
  - apply IHa in H as (st1 & w & new1 & Hk & Hr & Hl & Hp & Hc & Hf).
    exists (MState (m_prev st1) (m_rest st1)
              ((n, consumed (m_rest st) (m_rest st1)) :: m_caps st1)), w, ((n, w) :: new1).
    cbn [m_prev m_rest m_caps]. split; [exact Hk|]. split; [exact Hr|].
    split; [exact Hl|]. split; [exact Hp|]. split.
    + rewrite Hr, consumed_app, Hc. reflexivity.
    + constructor; [apply within_refl | exact Hf].
  - destruct (at_boundary _ _); [|discriminate].
    exists st, [], []. repeat split; [exact H | constructor].
  - destruct (m_prev st) eqn:Ep; [discriminate|].
    exists st, [], []. rewrite Ep. repeat split; [exact H | constructor].
  - assert (Hk : k st = Some res).
    { destruct (m_rest st) as [|c [|d t]]; [exact H | | discriminate].
      destruct (Ascii.eqb c nl); [exact H | discriminate]. }
    exists st, [], []. repeat split; [exact Hk | constructor].
Qed.

Lemma match_at_sound r prev s m :
  match_at r prev s = Some m ->
  (exists rest, s = group0 m ++ rest) /\ lang r (group0 m) /\
  Forall (fun nc => within (snd nc) (group0 m)) (groups m).
Proof.
  unfold match_at. destruct (rmatch r (MState prev s []) Some) as [st|] eqn:E; [|discriminate].
  intros [= <-]. apply rmatch_sound in E as (st' & w & new & Hk & Hr & Hl & _ & Hc & Hf).
  injection Hk as ->. cbn [m_rest m_caps group0 groups] in *.
  rewrite Hr, consumed_app, Hc, app_nil_r.
  split; [now exists (m_rest st)|]. split; [exact Hl | exact Hf].
Qed.

Lemma lookup_cap_within n caps w :
  Forall (fun nc => within (snd nc) w) caps -> within (lookup_cap n caps) w.
Proof.
  induction 1 as [|[i x] caps Hx _ IH]; cbn [lookup_cap]; [apply within_nil|].
  destruct (n =? i); [exact Hx | exact IH].
Qed.

(** A group of a match lies within the matched text, which lies within
    the subject. *)
Lemma matches_in_sound r s m :
  matches_in r s m ->
  within (group0 m) s /\ lang r (group0 m) /\ forall n, within (group n m) (group0 m).
Proof.
  intros (a & rest & prev & -> & Hm).
  apply match_at_sound in Hm as ((rest' & ->) & Hl & Hf).
  split; [now exists a, rest'|]. split; [exact Hl|].
  intros n. now apply lookup_cap_within.
Qed.

Lemma matches_in_cons r c s m : matches_in r s m -> matches_in r (c :: s) m.
Proof. intros (a & rest & prev & -> & Hm). now exists (c :: a), rest, prev. Qed.

Lemma finditer_go_matches r s : forall prev skip m,
  In m (finditer_go r prev s skip) -> matches_in r s m.
Proof.
  induction s as [|c t IH]; intros prev skip m H.
  - destruct skip; cbn [finditer_go] in H; [|destruct H].
    destruct (match_at r prev []) as [m0|] eqn:E; [|destruct H].
    destruct H as [<- | []]. now exists [], [], prev.
  - destruct skip as [|j]; cbn [finditer_go] in H.
    + destruct (match_at r prev (c :: t)) as [m0|] eqn:E.
      * destruct H as [<- | H]; [now exists [], (c :: t), prev|].
        apply matches_in_cons. now apply IH in H.
      * apply matches_in_cons. now apply IH in H.
    + apply matches_in_cons. now apply IH in H.
Qed.

Lemma finditer_matches r s m : In m (finditer r s) -> matches_in r s m.
Proof. apply finditer_go_matches. Qed.

(** The text that [re.sub] returns is made of the characters of the
    subject and of the replacements of matches. *)
Lemma sub_go_chars r repl s : forall prev skip c,
  In c (sub_go r repl prev s skip) ->
  In c s \/ exists m, matches_in r s m /\ In c (repl m).
Proof.
  induction s as [|x t IH]; intros prev skip c H.
  - destruct skip; cbn [sub_go] in H; [|destruct H].
    destruct (match_at r prev []) as [m0|] eqn:E; [|destruct H].
    rewrite app_nil_r in H. right. exists m0. split; [now exists [], [], prev | exact H].
  - assert (Htail : forall prev' skip', In c (sub_go r repl prev' t skip') ->
              In c (x :: t) \/ exists m, matches_in r (x :: t) m /\ In c (repl m)).
    { intros prev' skip' Hc. apply IH in Hc as [Hc | (m & Hm & Hc)]; [left; now right|].
      right. exists m. split; [now apply matches_in_cons | exact Hc]. }
    destruct skip as [|j]; cbn [sub_go] in H; [|now apply Htail in H].
    destruct (match_at r prev (x :: t)) as [m0|] eqn:E.
    + apply in_app_iff in H as [H | H].
      * right. exists m0. split; [now exists [], (x :: t), prev | exact H].
      * destruct (length (group0 m0)); [|now apply Htail in H].
        destruct H as [<- | H]; [left; now left | now apply Htail in H].
    + destruct H as [<- | H]; [left; now left | now apply Htail in H].
Qed.

Lemma search_from_none r s : forall prev,
  (forall m, ~ matches_in r s m) -> search_from r prev s = None.
Proof.
  induction s as [|c t IH]; intros prev H; cbn [search_from].
  - destruct (match_at r prev []) as [m|] eqn:E; [|reflexivity].
    exfalso. apply (H m). now exists [], [], prev.
  - destruct (match_at r prev (c :: t)) as [m|] eqn:E.
    + exfalso. apply (H m). now exists [], (c :: t), prev.
    + apply IH. intros m Hm. apply (H m). now apply matches_in_cons.
Qed.

Lemma in_all_chars x : In x all_chars.
Proof.
  unfold all_chars. apply in_map_iff. exists (nat_of_ascii x).
  split; [apply ascii_nat_embedding|]. apply in_seq. pose proof (nat_ascii_bounded x). lia.
Qed.

Lemma only_spec c p x : only c p = true -> p x = true -> x = c.
Proof.
  unfold only. rewrite forallb_forall. intros H Hp.
  specialize (H x (in_all_chars x)). rewrite Hp in H. now apply Ascii.eqb_eq.
Qed.

Lemma must_have_spec c r : forall w, must_have c r = true -> lang r w -> In c w.
Proof.
  induction r as [|p|g p n|a IHa b IHb|a IHa b IHb|a IHa|n a IHa| | |];
    intros w Hm Hl; cbn [must_have lang] in *; try discriminate.
  - destruct Hl as (x & -> & Hp). left. now apply (only_spec c p).
  - apply andb_true_iff in Hm as [Hn Ho]. apply Nat.ltb_lt in Hn.
    destruct Hl as [Hlen Hall]. destruct w as [|x w]; [cbn in Hlen; lia|].
    cbn [forallb] in Hall. apply andb_true_iff in Hall as [Hp _].
    left. now apply (only_spec c p).
  - destruct Hl as (w1 & w2 & -> & H1 & H2). apply in_app_iff.
    apply orb_true_iff in Hm as [Hm | Hm]; [left; now apply IHa | right; now apply IHb].
  - apply andb_true_iff in Hm as [Ha Hb].
    destruct Hl as [Hl | Hl]; [now apply IHa | now apply IHb].
  - now apply IHa.
Qed.

(** A subject without a character that every word of the pattern holds
    has no match, and [re.sub] returns it as it is. *)
Lemma sub_without r repl c s :
  must_have c r = true -> has_char c s = false -> sub r repl s = s.
Proof.
  intros Hm Hc. unfold sub. apply sub_no_match. apply search_from_none.
  intros m Hmatch. apply matches_in_sound in Hmatch as (Hw & Hl & _).
  apply (must_have_spec c r _ Hm) in Hl. apply (within_in _ _ _ Hw) in Hl.
  apply has_char_spec in Hl. congruence.
Qed.

(** ** The normaliser: what it leaves alone *)

Lemma lower_c_backtick c : lower_c c = "`"%char -> c = "`"%char.
Proof. destruct c as [[] [] [] [] [] [] [] []]; simpl; intros H; try reflexivity; discriminate H. Qed.

Lemma in_lower_backtick s : In "`"%char (lower s) -> In "`"%char s.
Proof.
  unfold lower. intros H. apply in_map_iff in H as (c & Hc & Hin).
  apply lower_c_backtick in Hc. now subst.
Qed.

Lemma replace_go_chars old new c s : forall skip,
  In c (replace_go old new s skip) -> In c s \/ In c new.
Proof.
  induction s as [|x t IH]; intros skip H; cbn [replace_go] in H; [destruct H|].
  destruct skip as [|j].
  - destruct (startswith (x :: t) old).
    + apply in_app_iff in H as [H | H]; [now right|].
      apply IH in H as [H | H]; [left; now right | now right].
    + destruct H as [<- | H]; [left; now left|].
      apply IH in H as [H | H]; [left; now right | now right].
  - apply IH in H as [H | H]; [left; now right | now right].
Qed.

Lemma replace_char_gone c new s :
  ~ In c new -> ~ In c (replace [c] new s).
Proof.
  intros Hnew. unfold replace. induction s as [|x t IH]; [easy|].
  cbn [replace_go startswith length Nat.sub]. destruct (Ascii.eqb c x) eqn:E; cbn [andb].
  - rewrite in_app_iff. tauto.
  - intros [<- | H]; [now rewrite Ascii.eqb_refl in E | now apply IH].
Qed.

Lemma map_datefmt_backtick fmt :
  In "`"%char (DbServer._map_datefmt fmt) -> In "`"%char fmt.
Proof.
  unfold DbServer._map_datefmt.
  assert (Hfold : forall l x,
            Forall (fun kv => ~ In "`"%char (snd kv)) l ->
            In "`"%char (fold_left (fun out kv => replace (fst kv) (snd kv) out) l x) ->
            In "`"%char x).
  { induction l as [|kv l IH]; intros x Hl H; [exact H|].
    cbn [fold_left] in H. inversion Hl as [|? ? Hkv Hl']; subst.
    apply IH in H; [|exact Hl']. apply replace_go_chars in H as [H | H]; [exact H | easy]. }
  apply Hfold. unfold DbServer._FMT_MAP.
  repeat constructor; cbn; intros H; repeat destruct H as [H | H]; try discriminate H; exact H.
Qed.

Ltac split_chars H :=
  repeat (apply in_app_iff in H; destruct H as [H | H]);
  try (apply in_strip in H); try (apply in_lower_backtick in H);
  try (apply map_datefmt_backtick in H);
  try (cbn in H; repeat destruct H as [H | H]; try discriminate H; contradiction).

Lemma rules_clean : Forall (fun rule => clean (snd rule)) DbServer.RULES.
Proof.
  unfold DbServer.RULES, clean.
  repeat constructor; cbn [snd]; intros m H;
    unfold DbServer._date_sub, DbServer._date_add, DbServer._date_arith,
      DbServer._if_to_case, DbServer._date_format, DbServer._str_to_date,
      DbServer._fmt_call in H;
    split_chars H; eauto.
Qed.

Lemma sub_keeps_clean r repl s :
  clean repl -> ~ In "`"%char s -> ~ In "`"%char (sub r repl s).
Proof.
  intros Hc Hs H. apply sub_go_chars in H as [H | (m & Hm & H)]; [easy|].
  apply Hc in H as (n & H). apply matches_in_sound in Hm as (Hw & _ & Hg).
  apply Hs. apply (within_in _ _ _ Hw). now apply (within_in _ _ _ (Hg n)).
Qed.

Lemma must_have_paren :
  forallb (fun rule => must_have "(" (fst rule)) (removelast DbServer.RULES) = true.
Proof. vm_compute. reflexivity. Qed.

Lemma rules_without_paren rules s :
  forallb (fun rule => must_have "(" (fst rule)) rules = true ->
  has_char "(" s = false -> fold_left DbServer.apply_rule rules s = s.
Proof.
  intros Hall Hs. induction rules as [|rule rules IH]; [reflexivity|].
  cbn [forallb] in Hall. apply andb_true_iff in Hall as [Hr Hall].
  cbn [fold_left]. unfold DbServer.apply_rule at 2.
  rewrite (sub_without _ _ "("%char s Hr Hs). now apply IH.
Qed.

(** X10 -- a statement without back-tick and without parenthesis is touched
    by the LIMIT rule alone, and is returned as it is when it has no comma
    either. *)
Theorem normalize_plain_statement (s : str) :
  has_char "`" s = false -> has_char "(" s = false ->
  DbServer.normalize_sql s
  = sub DbServer.RE_LIMIT (fun m => "LIMIT " ++ group 2 m ++ " OFFSET " ++ group 1 m) s /\
  (has_char "," s = false -> DbServer.normalize_sql s = s).
Proof.
  intros Hb Hp.
  assert (Hn : DbServer.normalize_sql s
               = sub DbServer.RE_LIMIT
                   (fun m => "LIMIT " ++ group 2 m ++ " OFFSET " ++ group 1 m) s).
  { unfold DbServer.normalize_sql. rewrite replace_absent by exact Hb.
    change DbServer.RULES
      with (removelast DbServer.RULES
            ++ [(DbServer.RE_LIMIT,
                 fun m => "LIMIT " ++ group 2 m ++ " OFFSET " ++ group 1 m)]).
    rewrite fold_left_app, (rules_without_paren _ s must_have_paren Hp). reflexivity. }
  split; [exact Hn|]. intros Hc. rewrite Hn.
  apply (sub_without _ _ ","%char); [vm_compute; reflexivity | exact Hc].
Qed.

Lemma normalize_plain_statement_witness :
  DbServer.normalize_sql "SELECT a FROM t ORDER BY a LIMIT 20"
  = "SELECT a FROM t ORDER BY a LIMIT 20".
Proof.
  apply (proj2 (normalize_plain_statement "SELECT a FROM t ORDER BY a LIMIT 20"
                  eq_refl eq_refl) eq_refl).
Defined.

(** X11 -- the text that [normalize_sql] returns holds no back-tick. *)
Theorem normalize_no_backtick (s : str) :
  has_char "`" (DbServer.normalize_sql s) = false.
Proof.
  destruct (has_char "`" (DbServer.normalize_sql s)) eqn:E; [|reflexivity].
  exfalso. apply has_char_spec in E. revert E. unfold DbServer.normalize_sql.
  assert (H0 : ~ In "`"%char (replace "`" [dquote] s)).
  { apply replace_char_gone. cbn. intros [H | []]. discriminate H. }
  revert H0. generalize (replace "`" [dquote] s) as t.
  pose proof rules_clean as Hc. revert Hc.
  induction DbServer.RULES as [|rule rules IH]; intros Hc t Ht; [exact Ht|].
  inversion Hc as [|? ? Hr Hc']; subst. cbn [fold_left].
  apply IH; [exact Hc'|]. unfold DbServer.apply_rule. now apply sub_keeps_clean.
Qed.

(** ** Tokens of virtual tables *)

Lemma lower_c_of_upper c : lower_c (upper_c c) = lower_c c.
Proof. destruct c as [[] [] [] [] [] [] [] []]; reflexivity. Qed.

Lemma upper_c_of_lower c : upper_c (lower_c c) = upper_c c.
Proof. destruct c as [[] [] [] [] [] [] [] []]; reflexivity. Qed.

Lemma lower_c_space c : is_space (lower_c c) = is_space c.
Proof. destruct c as [[] [] [] [] [] [] [] []]; reflexivity. Qed.

Lemma lower_c_digit c : is_digit c = true -> lower_c c = c.
Proof. destruct c as [[] [] [] [] [] [] [] []]; simpl; intros H; try reflexivity; discriminate H. Qed.

Lemma lower_digits ds : forallb is_digit ds = true -> lower ds = ds.
Proof.
  induction ds as [|d ds IH]; [reflexivity|]. cbn [forallb]. intros H.
  apply andb_true_iff in H as [Hd H]. cbn [lower map].
  rewrite (lower_c_digit d Hd). f_equal. now apply IH.
Qed.

Lemma lang_liti s : forall w, lang (liti s) w -> lower w = lower s.
Proof.
  induction s as [|c s IH]; intros w H.
  - cbn in H. now subst.
  - destruct H as (w1 & w2 & -> & (x & -> & Hx) & H2).
    apply Ascii.eqb_eq in Hx. cbn [app lower map]. f_equal.
    + now rewrite <- (lower_c_of_upper x), Hx, lower_c_of_upper.
    + now apply IH.
Qed.

(** A word of the alias pattern: the letters of [query_result] in any
    case, then nothing or an underscore and digits. *)
Lemma lang_alias w :
  lang DbServer.RE_ALIAS w ->
  exists a b, w = a ++ b /\ lower a = "query_result" /\
    (b = [] \/ exists ds, b = "_" ++ ds /\ ds <> [] /\ forallb is_digit ds = true).
Proof.
  intros (w0 & w1 & -> & H0 & a & w2 & -> & Ha & b & w3 & -> & Hb & w4 & w5 & -> & H4 & H5).
  cbn in H0, H4, H5. subst w0 w4 w5. rewrite app_nil_r. cbn [app].
  exists a, b. split; [reflexivity|]. split; [now apply lang_liti in Ha|].
  destruct Hb as [-> | (u & v & -> & (x & -> & Hx) & ds & e & -> & (Hlen & Hall) & He)];
    [now left|].
  cbn in He. subst e. rewrite app_nil_r. apply Ascii.eqb_eq in Hx. subst x.
  right. exists ds. split; [reflexivity|]. split; [|exact Hall].
  intros ->. cbn in Hlen. lia.
Qed.

Lemma rep_greedy_all p l : forall n prev caps k res,
  forallb p l = true -> n <= length l ->
  k (MState (last_or prev l) [] caps) = Some res ->
  rep_greedy p n prev l caps k = Some res.
Proof.
  induction l as [|c t IH]; intros n prev caps k res Hall Hn Hk.
  - cbn in Hn. assert (n = 0) as -> by lia. exact Hk.
  - cbn [forallb] in Hall. apply andb_true_iff in Hall as [Hc Hall].
    cbn [rep_greedy]. rewrite Hc.
    rewrite (IH (pred n) (Some c) caps k res Hall); [reflexivity | cbn in Hn; lia|].
    now rewrite <- last_or_cons with (prev := prev).
Qed.

Lemma virtual_name_digits ds :
  ds <> [] -> forallb is_digit ds = true ->
  DbServer.is_virtual_name ("query_result_" ++ ds) = true.
Proof.
  intros Hne Hall. unfold DbServer.is_virtual_name, re_match, match_at.
  unfold DbServer.RE_VIRTUAL_NAME.
  rewrite rmatch_seq_cons. cbn [rmatch m_prev]. rewrite rmatch_seq_cons, rmatch_lit.
  cbn [app startswith Ascii.eqb Bool.eqb andb length skipn].
  rewrite rmatch_seq_cons. cbn [rmatch m_rest m_caps m_prev seq fold_right chr digits1].
  rewrite Ascii.eqb_refl.
  erewrite rep_greedy_all; [reflexivity | exact Hall | | reflexivity].
  destruct ds; [congruence | cbn; lia].
Qed.

Lemma alias_word_virtual w :
  lang DbServer.RE_ALIAS w -> DbServer.is_virtual_name (lower w) = true.
Proof.
  intros H. apply lang_alias in H as (a & b & -> & Ha & [-> | (ds & -> & Hne & Hall)]).
  - now rewrite app_nil_r, Ha.
  - rewrite !lower_app, Ha, (lower_digits ds Hall). now apply virtual_name_digits.
Qed.

Lemma used_virtual_shape sql u :
  In u (DbServer.used_virtuals sql) ->
  within u sql /\ DbServer.is_virtual_name (lower u) = true.
Proof.
  unfold DbServer.used_virtuals. intros H. apply in_map_iff in H as (m & <- & Hm).
  apply finditer_matches, matches_in_sound in Hm as (Hw & Hl & _).
  split; [exact Hw | now apply alias_word_virtual].
Qed.

(** X8 -- every name that [db_query] reports as a missing virtual table is
    the lower-case spelling of a piece of the injected SQL and has the form
    of a virtual table name; no backed virtual table of the context has it. *)
Theorem missing_virtuals_are_virtual_names (sql : str) (tables : ChartContext) (m : str) :
  In m (DbServer.missing_virtuals sql tables) ->
  DbServer.is_virtual_name m = true /\
  (exists u, within u sql /\ lower u = m) /\
  ~ In m (DbServer.available_virtuals tables).
Proof.
  intros H. apply missing_virtuals_spec in H as (u & Hu & -> & Hn).
  apply used_virtual_shape in Hu as [Hw Hv].
  split; [exact Hv|]. split; [now exists u|].
  intros Ha. apply Hn. apply in_map_iff. exists (lower u). split; [apply lower_idem | exact Ha].
Qed.

Lemma missing_virtuals_are_virtual_names_witness :
  DbServer.is_virtual_name "query_result_2" = true /\
  (exists u, within u "SELECT * FROM Query_Result_2 q" /\ lower u = "query_result_2") /\
  ~ In "query_result_2" (DbServer.available_virtuals ctx_two_real).
Proof.
  apply (missing_virtuals_are_virtual_names "SELECT * FROM Query_Result_2 q" ctx_two_real).
  vm_compute. now left.
Defined.

(** ** The guards: modes, letter case, and what reaches the executor *)

Lemma lstrip_of_map (f : ascii -> ascii) p s :
  (forall c, p (f c) = p c) -> lstrip_of p (map f s) = map f (lstrip_of p s).
Proof.
  intros Hf. induction s as [|c s IH]; [reflexivity|].
  cbn [map lstrip_of]. rewrite Hf. destruct (p c); [exact IH | reflexivity].
Qed.

Lemma rstrip_of_map (f : ascii -> ascii) p s :
  (forall c, p (f c) = p c) -> rstrip_of p (map f s) = map f (rstrip_of p s).
Proof.
  intros Hf. unfold rstrip_of. now rewrite <- map_rev, lstrip_of_map, map_rev.
Qed.

Lemma strip_lower s : strip (lower s) = lower (strip s).
Proof.
  unfold strip, lstrip, rstrip, lower.
  now rewrite lstrip_of_map, rstrip_of_map by apply lower_c_space.
Qed.

Lemma strip_upper s : strip (upper s) = upper (strip s).
Proof.
  unfold strip, lstrip, rstrip, upper.
  now rewrite lstrip_of_map, rstrip_of_map by apply upper_c_space.
Qed.

Lemma upper_lower s : upper (lower s) = upper s.
Proof. unfold upper, lower. rewrite map_map. apply map_ext, upper_c_of_lower. Qed.

Lemma upper_idem s : upper (upper s) = upper s.
Proof. unfold upper. rewrite map_map. apply map_ext, upper_c_idem. Qed.

Lemma lstrip_of_padding p l s : forallb p l = true -> lstrip_of p (l ++ s) = lstrip_of p s.
Proof.
  induction l as [|c l IH]; [reflexivity|]. cbn [forallb app lstrip_of]. intros H.
  apply andb_true_iff in H as [-> H]. now apply IH.
Qed.

Lemma rstrip_of_padding p s r : forallb p r = true -> rstrip_of p (s ++ r) = rstrip_of p s.
Proof.
  intros H. unfold rstrip_of. rewrite rev_app_distr, lstrip_of_padding; [reflexivity|].
  rewrite forallb_forall in *. intros x Hx. apply H. now apply in_rev.
Qed.

Lemma lstrip_of_app_keep p a b :
  lstrip_of p a <> [] -> lstrip_of p (a ++ b) = lstrip_of p a ++ b.
Proof.
  induction a as [|c a IH]; [easy|]. cbn [app lstrip_of].
  destruct (p c); [exact IH | reflexivity].
Qed.

Lemma strip_padding l s r :
  forallb is_space l = true -> forallb is_space r = true ->
  strip (l ++ s ++ r) = strip s.
Proof.
  intros Hl Hr. unfold strip, lstrip, rstrip.
  rewrite lstrip_of_padding by exact Hl.
  destruct (lstrip_of is_space s) as [|c t] eqn:E.
  - assert (Hs : forallb is_space s = true).
    { destruct (lstrip_of_suffix is_space s) as (l' & Hs & Hall).
      rewrite E, app_nil_r in Hs. now subst. }
    assert (Hsr : lstrip_of is_space (s ++ r) = []).
    { rewrite lstrip_of_padding by exact Hs.
      destruct (lstrip_of_suffix is_space r) as (l' & Hs' & Hall').
      destruct (lstrip_of is_space r) as [|x t] eqn:Er; [reflexivity|].
      exfalso. rewrite Hs', forallb_app in Hr. apply andb_true_iff in Hr as [_ Hr].
      cbn [forallb] in Hr. apply andb_true_iff in Hr as [Hx _].
      clear -Er Hx. induction r as [|y r IH]; [discriminate|].
      cbn [lstrip_of] in Er. destruct (is_space y) eqn:Ey; [now apply IH|].
      injection Er as -> _. congruence. }
    now rewrite Hsr.
  - rewrite lstrip_of_app_keep by (rewrite E; discriminate).
    rewrite E. now apply rstrip_of_padding.
Qed.

(** X1 -- [enforce_readonly] reads the statement without its surrounding
    white space and in upper case: the verdict, message included, is the
    same for any letter case of the statement and for any white space added
    around a non-empty one. *)
Theorem readonly_ignores_case_and_padding (env : option str) (sql l r : str) :
  Db.enforce_readonly env (lower sql) = Db.enforce_readonly env sql /\
  Db.enforce_readonly env (upper sql) = Db.enforce_readonly env sql /\
  (sql <> [] -> forallb is_space l = true -> forallb is_space r = true ->
   Db.enforce_readonly env (l ++ sql ++ r) = Db.enforce_readonly env sql).
Proof.
  unfold Db.enforce_readonly, Db.enforce_readonly_mode. split; [|split].
  - rewrite strip_lower, upper_lower. now destruct sql.
  - rewrite strip_upper, upper_idem. now destruct sql.
  - intros Hne Hl Hr. rewrite (strip_padding l sql r Hl Hr).
    destruct sql as [|c t]; [congruence|]. now destruct l.
Qed.

Lemma readonly_ignores_case_and_padding_witness :
  Db.enforce_readonly None ("  " ++ "select 1" ++ [nl]) = Db.enforce_readonly None "select 1".
Proof.
  apply (proj2 (proj2 (readonly_ignores_case_and_padding None "select 1" "  " [nl]))).
  - discriminate.
  - reflexivity.
  - reflexivity.
Defined.

(** X2 -- what strict read-only mode accepts, every setting of
    DB_READONLY_STRICT accepts. *)
Theorem readonly_strict_is_stricter (strict_env env : option str) (sql : str) :
  env_flag strict_env = true ->
  Db.enforce_readonly strict_env sql = Allowed ->
  Db.enforce_readonly env sql = Allowed.
Proof.
  unfold Db.enforce_readonly. intros -> H.
  destruct (env_flag env); [exact H|].
  unfold Db.enforce_readonly_mode in *.
  destruct (negb (truthy sql)); [discriminate|].
  destruct (is_some _); [discriminate|].
  destruct (has_char _ _); [discriminate|].
  cbn [existsb].
  destruct (startswith (upper (strip sql)) "(") eqn:Ep.
  - now rewrite !orb_true_r.
  - destruct (startswith (upper (strip sql)) "SELECT"); [reflexivity|].
    destruct (startswith (upper (strip sql)) "WITH"); [reflexivity|].
    discriminate.
Qed.

Lemma readonly_strict_is_stricter_witness :
  Db.enforce_readonly None "(SELECT 1)" = Allowed.
Proof.
  apply (readonly_strict_is_stricter (Some " TRUE ") None "(SELECT 1)"); reflexivity.
Defined.

(** *** Tables that the strict allowlist reads *)

Lemma within_strip (s : str) : within (strip s) s.
Proof. destruct (strip_decompose s) as (l & r & Hs & _). now exists l, r. Qed.

Lemma within_tl (s : str) : within (tl s) s.
Proof. destruct s as [|c s]; [apply within_nil|]. exists [c], []. cbn. now rewrite app_nil_r. Qed.

Lemma within_removelast (s : str) : within (removelast s) s.
Proof.
  destruct (decide (s = [])) as [-> | Hne]; [apply within_nil|].
  exists [], [List.last s "000"%char]. cbn [app]. now apply app_removelast_last.
Qed.

Lemma within_strip_quotes x : within (Db._strip_quotes x) x.
Proof.
  unfold Db._strip_quotes.
  assert (H : within (removelast (tl (strip x))) x).
  { eapply within_trans; [apply within_removelast|].
    eapply within_trans; [apply within_tl | apply within_strip]. }
  destruct (_ && _); [exact H|]. destruct (_ && _); [exact H | apply within_strip].
Qed.

Lemma split_pieces sep s :
  exists w ws rest, split sep s = w :: ws /\ s = w ++ rest /\
                    ~ In sep w /\
                    forall x, In x ws -> within x rest /\ ~ In sep x.
Proof.
  induction s as [|c t (w & ws & rest & Hs & Ht & Hw & Hws)]; cbn [split].
  - exists [], [], []. repeat split; easy.
  - destruct (Ascii.eqb c sep) eqn:E.
    + exists [], (w :: ws), (c :: t). split; [now rewrite Hs|]. split; [reflexivity|].
      split; [easy|]. intros x [<- | Hx].
      * split; [|exact Hw]. exists [c], rest. cbn. now rewrite Ht.
      * destruct (Hws x Hx) as [Hin Hno]. split; [|exact Hno].
        rewrite Ht. apply (within_app_r x (c :: w)). exact Hin.
    + rewrite Hs. exists (c :: w), ws, rest. split; [reflexivity|].
      split; [cbn; now rewrite Ht|]. split; [|exact Hws].
      intros [-> | H]; [now rewrite Ascii.eqb_refl in E | easy].
Qed.

Lemma split_piece sep s x : In x (split sep s) -> within x s /\ ~ In sep x.
Proof.
  destruct (split_pieces sep s) as (w & ws & rest & -> & -> & Hw & Hws).
  intros [<- | H].
  - split; [|exact Hw]. exists [], rest. reflexivity.
  - destruct (Hws x H) as [Hin Hno]. split; [now apply within_app_r | exact Hno].
Qed.

Lemma last_split sep s : In (List.last (split sep s) []) (split sep s).
Proof.
  destruct (split_pieces sep s) as (w & ws & rest & Hs & _).
  rewrite Hs. clear Hs. revert w. induction ws as [|y ws IH]; intros w; [now left|].
  right. apply (IH y).
Qed.

Lemma within_lower x s : within x s -> within (lower x) (lower s).
Proof. intros (a & b & ->). exists (lower a), (lower b). now rewrite !lower_app. Qed.

Lemma lower_c_dot c : lower_c c = "."%char -> c = "."%char.
Proof. destruct c as [[] [] [] [] [] [] [] []]; simpl; intros H; try reflexivity; discriminate H. Qed.

Lemma in_uniq x l : In x (uniq l) <-> In x l.
Proof.
  induction l as [|y l IH]; [easy|]. cbn [uniq In]. rewrite List.filter_In, IH.
  destruct (decide (y = x)) as [-> | Hne]; [tauto|].
  assert (str_eqb y x = false).
  { destruct (str_eqb y x) eqn:E; [|reflexivity]. apply str_eqb_spec in E. congruence. }
  rewrite H. cbn. tauto.
Qed.

Lemma nodup_uniq l : List.NoDup (uniq l).
Proof.
  induction l as [|y l IH]; [constructor|]. cbn [uniq]. apply List.NoDup_cons.
  - rewrite List.filter_In. intros [_ H]. apply negb_true_iff in H.
    now rewrite (proj2 (str_eqb_spec y y) eq_refl) in H.
  - now apply List.NoDup_filter.
Qed.

Lemma table_of_match_spec r sql m :
  matches_in r sql m ->
  within (Db.table_of_match m) (lower sql) /\
  lower (Db.table_of_match m) = Db.table_of_match m /\
  ~ In "."%char (Db.table_of_match m).
Proof.
  intros Hm. apply matches_in_sound in Hm as (Hw & _ & Hg).
  unfold Db.table_of_match.
  destruct (split_piece "." (Db._strip_quotes (group 1 m)) _ (last_split _ _)) as [Hin Hdot].
  split; [|split].
  - apply within_lower. eapply within_trans; [exact Hin|].
    eapply within_trans; [apply within_strip_quotes|].
    eapply within_trans; [apply (Hg 1) | exact Hw].
  - apply lower_idem.
  - intros H. apply Hdot. unfold lower in H. apply in_map_iff in H as (c & Hc & H).
    apply lower_c_dot in Hc. now subst.
Qed.

Lemma extract_tables_spec sql t :
  In t (Db._extract_tables sql) ->
  within t (lower sql) /\ lower t = t /\ ~ In "."%char t.
Proof.
  unfold Db._extract_tables. rewrite in_uniq, in_flat_map.
  intros (pat & _ & H). apply in_map_iff in H as (m & <- & Hm).
  apply finditer_matches in Hm. now apply (table_of_match_spec pat).
Qed.

(** X4 -- the tables that strict allowlist mode reads after FROM and JOIN
    are distinct, in lower case, without a dot (the schema prefix is cut
    off), and each is a piece of the lower-cased statement. *)
Theorem extract_tables_names (sql : str) :
  List.NoDup (Db._extract_tables sql) /\
  Forall (fun t => lower t = t /\ has_char "." t = false /\ contains t (lower sql) = true)
         (Db._extract_tables sql).
Proof.
  split; [apply nodup_uniq|]. apply List.Forall_forall. intros t Ht.
  apply extract_tables_spec in Ht as (Hw & Hl & Hd).
  split; [exact Hl|]. split; [|now apply within_contains].
  destruct (has_char "." t) eqn:E; [|reflexivity]. now apply has_char_spec in E.
Qed.

Lemma allowed_tables_truthy ctx t : In t (Db.allowed_tables ctx) -> truthy t = true.
Proof.
  unfold Db.allowed_tables. rewrite in_map_iff. intros (x & <- & Hx).
  apply List.filter_In in Hx as [_ Hx]. now destruct (t_name x).
Qed.

(** X3 -- what strict allowlist mode accepts, relaxed mode accepts. *)
Theorem allowlist_strict_is_stricter (strict_env env : option str) (sql : str)
    (ctx : ChartContext) :
  env_flag strict_env = true ->
  Db.enforce_allowlist strict_env sql ctx = Allowed ->
  Db.enforce_allowlist env sql ctx = Allowed.
Proof.
  unfold Db.enforce_allowlist. intros -> H.
  destruct (env_flag env); [exact H|].
  unfold Db.enforce_allowlist_mode in *.
  destruct ctx as [|t0 ctx]; [reflexivity|].
  destruct (Db.allowed_tables (t0 :: ctx)) as [|a0 al] eqn:Ea; [reflexivity|].
  cbn [negb] in *. rewrite <- Ea in *. rewrite allowed_tables_lower in H.
  destruct (contains " from " _); [|reflexivity]. cbn [negb].
  destruct (Db._extract_tables sql) as [|r0 rl] eqn:Er; [discriminate|].
  destruct (find _ (r0 :: rl)) as [bad|] eqn:Ef; [discriminate|].
  pose proof (find_none _ _ Ef r0 (or_introl eq_refl)) as Hr0.
  apply negb_false_iff, mem_spec in Hr0.
  assert (Hin : In r0 (Db._extract_tables sql)) by (rewrite Er; now left).
  apply extract_tables_spec in Hin as (Hw & _).
  assert (Hex : existsb (fun t => truthy t && contains t (lower sql))
                  (Db.allowed_tables (t0 :: ctx)) = true).
  { apply existsb_exists. exists r0. split; [exact Hr0|].
    rewrite (allowed_tables_truthy _ _ Hr0). now apply within_contains. }
  now rewrite Hex.
Qed.

Lemma allowlist_strict_is_stricter_witness :
  Db.enforce_allowlist None ("SELECT * FROM public." ++ "Prices p") ctx_prices = Allowed.
Proof.
  apply (allowlist_strict_is_stricter (Some "on") None); reflexivity.
Defined.

(** *** What reaches the executor *)

Lemma guarded_query_calls env_ro env_allow execute normalized tables params q p :
  In (DbServer.CallQuery q p)
     (fst (DbServer.guarded_query env_ro env_allow execute normalized tables params)) ->
  q = normalized /\ p = params /\
  fst (DbServer.guarded_query env_ro env_allow execute normalized tables params)
  = [DbServer.CallEnforceReadonly q; DbServer.CallEnforceAllowlist q; DbServer.CallQuery q p] /\
  Db.enforce_readonly env_ro q = Allowed /\
  Db.enforce_allowlist env_allow q tables = Allowed /\
  (DbServer.missing_virtuals q tables = [] \/ length (DbServer.real_tables tables) = 1).
Proof.
  unfold DbServer.guarded_query.
  destruct (truthy_list _ && _) eqn:Eg; [intros []|].
  destruct (Db.enforce_readonly env_ro normalized) eqn:Er;
    [|cbn; intros [H | []]; discriminate H].
  destruct (Db.enforce_allowlist env_allow normalized tables) eqn:Ea;
    [|cbn; intros [H | [H | []]]; discriminate H].
  cbv zeta. destruct (execute normalized params) as [rows|msg]; cbn [fst In];
    (intros [H | [H | [H | []]]]; try discriminate H;
     injection H as <- <-;
     split; [reflexivity|]; split; [reflexivity|]; split; [reflexivity|];
     split; [exact Er|]; split; [exact Ea|];
     apply andb_false_iff in Eg as [Eg | Eg];
     [left; now destruct (DbServer.missing_virtuals normalized tables)
     | right; apply negb_false_iff, Nat.eqb_eq in Eg; exact Eg]).
Qed.

Lemma guarded_query_rows env_ro env_allow execute normalized tables params rows :
  snd (DbServer.guarded_query env_ro env_allow execute normalized tables params)
  = DbServer.QRows rows ->
  execute normalized params = inl rows /\
  In (DbServer.CallQuery normalized params)
     (fst (DbServer.guarded_query env_ro env_allow execute normalized tables params)).
Proof.
  unfold DbServer.guarded_query.
  destruct (truthy_list _ && _); [discriminate|].
  destruct (Db.enforce_readonly env_ro normalized); [|discriminate].
  destruct (Db.enforce_allowlist env_allow normalized tables); [|discriminate].
  cbv zeta. destruct (execute normalized params) as [rows'|msg]; cbn [fst snd]; [|discriminate].
  intros [= ->]. split; [reflexivity|]. right. right. now left.
Qed.

(** X5 -- [db_query] hands a statement to the executor only as its last
    call, after the read-only guard and the allowlist guard, in this order,
    accepted the same statement: the normalised and injected SQL, which holds
    no blocked keyword as a whole word.  Rows in the result come from that
    call. *)
Theorem db_query_executes_only_guarded
    (env_ro env_allow : option str) (execute : str -> json -> json + str)
    (sql : str) (ctx : ChartContext) (params : json)
    (calls : list DbServer.call) (res : DbServer.query_result) :
  DbServer.db_query env_ro env_allow execute sql ctx params = Some (calls, res) ->
  (forall q p, In (DbServer.CallQuery q p) calls ->
     DbServer._inject_virtual_table (DbServer.normalize_sql sql) ctx = Some q /\
     p = params /\
     (exists logs, forallb is_log logs = true /\
        calls = logs ++ [DbServer.CallEnforceReadonly q; DbServer.CallEnforceAllowlist q;
                         DbServer.CallQuery q p]) /\
     Db.enforce_readonly env_ro q = Allowed /\
     Db.enforce_allowlist env_allow q ctx = Allowed /\
     ~ has_keyword q) /\
  (forall rows, res = DbServer.QRows rows ->
     exists q, In (DbServer.CallQuery q params) calls /\ execute q params = inl rows).
Proof.
  unfold DbServer.db_query.
  destruct (DbServer._inject_virtual_table _ ctx) as [injected|] eqn:Ei; [|discriminate].
  destruct (DbServer.guarded_query env_ro env_allow execute injected ctx params)
    as [gcalls gres] eqn:Eg.
  intros [= <- <-]. split.
  - intros q p Hin.
    assert (Hg : In (DbServer.CallQuery q p)
                   (fst (DbServer.guarded_query env_ro env_allow execute injected ctx params))).
    { rewrite Eg. cbn [fst]. apply in_app_iff in Hin as [Hin | Hin]; [|exact Hin].
      destruct (negb _); [|destruct Hin]. destruct Hin as [H | []]. discriminate H. }
    apply guarded_query_calls in Hg as (-> & -> & Hcalls & Hro & Hal & _).
    rewrite Eg in Hcalls. cbn [fst] in Hcalls. subst gcalls.
    split; [reflexivity|]. split; [reflexivity|]. split; [|split; [exact Hro|split; [exact Hal|]]].
    + eexists. split; [|reflexivity]. now destruct (negb _).
    + intros Hk. apply keyword_blocked_spec in Hk.
      unfold Db.enforce_readonly, Db.enforce_readonly_mode in Hro.
      destruct (negb (truthy injected)); [discriminate|].
      unfold keyword_blocked in Hk. rewrite Hk in Hro. discriminate.
  - intros rows ->.
    pose proof (guarded_query_rows env_ro env_allow execute injected ctx params rows) as H.
    rewrite Eg in H. cbn [fst snd] in H. destruct (H eq_refl) as [Hex Hin].
    exists injected. split; [|exact Hex]. apply in_app_iff. now right.
Qed.

Lemma db_query_executes_only_guarded_witness :
  ~ has_keyword "SELECT * FROM prices LIMIT 5 OFFSET 0" /\
  Db.enforce_allowlist None "SELECT * FROM prices LIMIT 5 OFFSET 0" ctx_prices = Allowed.
Proof.
  pose proof (db_query_executes_only_guarded None None (fun _ _ => inl (JList []))
                "SELECT * FROM prices LIMIT 0, 5" ctx_prices JNull) as H.
  specialize (H _ _ ltac:(vm_compute; reflexivity)). destruct H as [H _].
  destruct (H "SELECT * FROM prices LIMIT 5 OFFSET 0" JNull) as (_ & _ & _ & _ & Ha & Hk).
  - vm_compute. do 3 right. now left.
  - split; [exact Hk | exact Ha].
Defined.

(** ** The date-format table *)

Lemma format_text_app a b : format_text (a ++ b) = format_text a ++ format_text b.
Proof. unfold format_text. now rewrite map_app, concat_app. Qed.

Lemma format_text_plain s : format_text (map Plain s) = s.
Proof. induction s as [|c s IH]; [reflexivity|]. cbn. f_equal. exact IH. Qed.

Lemma token_ok_plain s : has_char "%" s = false -> forallb token_ok (map Plain s) = true.
Proof.
  induction s as [|c s IH]; [reflexivity|]. cbn [has_char existsb map forallb token_ok].
  intros H. apply orb_false_iff in H as [Hc H]. rewrite Ascii.eqb_sym, Hc. now apply IH.
Qed.

Lemma retoken_other x new t :
  token_text t <> ["%"%char; x] -> retoken ["%"%char; x] new t = [t].
Proof.
  intros H. unfold retoken. destruct (str_eqb _ _) eqn:E; [|reflexivity].
  now apply str_eqb_spec in E.
Qed.

Lemma retoken_same x new :
  retoken ["%"%char; x] new (Directive x) = map Plain new.
Proof.
  unfold retoken. cbn [token_text].
  now rewrite (proj2 (str_eqb_spec ["%"%char; x] ["%"%char; x]) eq_refl).
Qed.

(** One [str.replace] of a directive is one pass over the tokens. *)
Lemma replace_tokens x new ts :
  forallb token_ok ts = true ->
  replace ["%"%char; x] new (format_text ts)
  = format_text (flat_map (retoken ["%"%char; x] new) ts).
Proof.
  unfold replace. induction ts as [|t ts IH]; [reflexivity|].
  cbn [forallb]. intros H. apply andb_true_iff in H as [Ht H]. specialize (IH H).
  cbn [flat_map]. rewrite format_text_app, <- IH. clear IH.
  destruct t as [k|c]; cbn [token_ok] in Ht; apply negb_true_iff in Ht.
  - change (format_text (Directive k :: ts)) with ("%"%char :: k :: format_text ts).
    cbn [replace_go startswith length Nat.sub]. rewrite Ascii.eqb_refl. cbn [andb].
    destruct (Ascii.eqb x k) eqn:E.
    + apply Ascii.eqb_eq in E. subst k. cbn [andb].
      now rewrite retoken_same, format_text_plain.
    + cbn [andb]. rewrite retoken_other.
      * cbn [replace_go startswith]. rewrite Ascii.eqb_sym, Ht. reflexivity.
      * cbn. intros [= ->]. now rewrite Ascii.eqb_refl in E.
  - change (format_text (Plain c :: ts)) with (c :: format_text ts).
    cbn [replace_go startswith]. rewrite Ascii.eqb_sym, Ht. cbn [andb].
    rewrite retoken_other by discriminate. reflexivity.
Qed.

Lemma retoken_ok x new ts :
  has_char "%" new = false -> forallb token_ok ts = true ->
  forallb token_ok (flat_map (retoken ["%"%char; x] new) ts) = true.
Proof.
  intros Hnew. induction ts as [|t ts IH]; [reflexivity|].
  cbn [forallb flat_map]. intros H. apply andb_true_iff in H as [Ht H].
  rewrite forallb_app, (IH H), andb_true_r. unfold retoken.
  destruct (str_eqb _ _); [now apply token_ok_plain | cbn; now rewrite Ht].
Qed.

Lemma fmt_map_directives : directive_table DbServer._FMT_MAP.
Proof. unfold DbServer._FMT_MAP. repeat constructor; cbn [fst]; eauto. Qed.

Lemma fold_replace_tokens m : forall ts,
  directive_table m -> forallb token_ok ts = true ->
  fold_left (fun out kv => replace (fst kv) (snd kv) out) m (format_text ts)
  = format_text (fold_left (fun ts kv => flat_map (retoken (fst kv) (snd kv)) ts) m ts).
Proof.
  induction m as [|[key new] m IH]; intros ts Hm Hts; [reflexivity|].
  inversion Hm as [|? ? [(x & Hx) Hnew] Hm']; subst. cbn [fst snd] in *. subst key.
  cbn [fold_left fst snd]. rewrite replace_tokens by exact Hts.
  apply IH; [exact Hm' | now apply retoken_ok].
Qed.

Lemma fold_retoken_app m : forall a b,
  fold_left (fun ts kv => flat_map (retoken (fst kv) (snd kv)) ts) m (a ++ b)
  = fold_left (fun ts kv => flat_map (retoken (fst kv) (snd kv)) ts) m a
    ++ fold_left (fun ts kv => flat_map (retoken (fst kv) (snd kv)) ts) m b.
Proof.
  induction m as [|kv m IH]; intros a b; [reflexivity|].
  cbn [fold_left]. now rewrite flat_map_app, IH.
Qed.

Lemma fold_retoken_plain m c :
  directive_table m ->
  fold_left (fun ts kv => flat_map (retoken (fst kv) (snd kv)) ts) m [Plain c] = [Plain c].
Proof.
  induction 1 as [|[key new] m [(x & Hx) _] _ IH]; [reflexivity|].
  cbn [fst snd] in *. subst key. cbn [fold_left flat_map fst snd].
  rewrite retoken_other by discriminate. exact IH.
Qed.

Lemma fold_retoken_directive k :
  format_text (fold_left (fun ts kv => flat_map (retoken (fst kv) (snd kv)) ts)
                 DbServer._FMT_MAP [Directive k])
  = token_mapped (Directive k).
Proof. destruct k as [[] [] [] [] [] [] [] []]; vm_compute; reflexivity. Qed.

(** X12 -- [_map_datefmt] on a format made of directives [%k] and of other
    characters than [%]: every directive that [_FMT_MAP] lists is replaced
    by its PostgreSQL text, every other token is kept, each for itself and
    in one pass. *)
Theorem map_datefmt_by_token (ts : list fmt_token) :
  forallb token_ok ts = true ->
  DbServer._map_datefmt (format_text ts) = concat (map token_mapped ts).
Proof.
  intros Hts. unfold DbServer._map_datefmt.
  rewrite fold_replace_tokens by (exact fmt_map_directives || exact Hts).
  clear Hts. induction ts as [|t ts IH]; [reflexivity|].
  change (t :: ts) with ([t] ++ ts) at 1.
  rewrite fold_retoken_app, format_text_app, IH. cbn [map concat]. f_equal.
  destruct t as [k|c]; [apply fold_retoken_directive|].
  now rewrite (fold_retoken_plain _ c fmt_map_directives).
Qed.

Lemma map_datefmt_by_token_witness :
  DbServer._map_datefmt "%Y-%m-%d %H:%i:%s %W" = "YYYY-MM-DD HH24:MI:SS %W".
Proof.
  apply (map_datefmt_by_token
           [Directive "Y"; Plain "-"; Directive "m"; Plain "-"; Directive "d"; Plain " ";
            Directive "H"; Plain ":"; Directive "i"; Plain ":"; Directive "s"; Plain " ";
            Directive "W"]).
  reflexivity.
Defined.

(** ** The chunks of a tool result *)

Lemma slices_go_step size s : forall cur room,
  1 <= room -> s <> [] ->
  Agent.slices_go size s cur room
  = (rev cur ++ firstn room s) :: Agent.slices_go size (skipn room s) [] size.
Proof.
  induction s as [|c t IH]; intros cur room Hroom Hne; [congruence|].
  destruct room as [|[|r]]; [lia | |].
  - cbn [Agent.slices_go firstn skipn rev]. reflexivity.
  - cbn [Agent.slices_go]. destruct t as [|d t'].
    + cbn. reflexivity.
    + rewrite IH by (lia || discriminate). cbn [rev firstn skipn].
      now rewrite <- app_assoc.
Qed.

Lemma slices_step size s :
  1 <= size -> s <> [] ->
  Agent.slices size s = firstn size s :: Agent.slices size (skipn size s).
Proof. intros Hs Hne. unfold Agent.slices. now rewrite slices_go_step. Qed.

Lemma range_slices_step size s :
  1 <= size -> s <> [] ->
  range_slices size s = firstn size s :: range_slices size (skipn size s).
Proof.
  intros Hs Hne. unfold range_slices.
  assert (Hlen : 1 <= length s) by (destruct s; [congruence | cbn; lia]).
  assert (Hcount : (length s + size - 1) / size
                   = S ((length (skipn size s) + size - 1) / size)).
  { rewrite length_skipn. destruct (le_lt_dec (length s) size) as [Hle | Hgt].
    - replace (length s - size) with 0 by lia.
      rewrite (Nat.div_small (0 + size - 1) size) by lia.
      symmetry. apply (Nat.div_unique _ _ 1 (length s - 1)); lia.
    - replace (length s + size - 1) with (length s - size + size - 1 + 1 * size) by lia.
      rewrite Nat.div_add by lia. lia. }
  rewrite Hcount. cbn [List.seq map]. f_equal.
  rewrite <- seq_shift, map_map. apply map_ext. intros i.
  rewrite skipn_skipn. do 2 f_equal. lia.
Qed.

Lemma slices_as_range size : forall s, 1 <= size -> Agent.slices size s = range_slices size s.
Proof.
  intros s Hs. remember (length s) as n eqn:Hn. revert s Hn.
  induction n as [n IH] using lt_wf_ind. intros s Hn.
  destruct s as [|c t].
  { unfold range_slices. cbn [length]. now rewrite Nat.div_small by lia. }
  rewrite slices_step, range_slices_step by (exact Hs || discriminate). f_equal.
  apply (IH (length (skipn size (c :: t)))); [|reflexivity].
  subst n. rewrite length_skipn. cbn [length]. lia.
Qed.

Lemma slices_go_concat size s : forall cur room,
  concat (Agent.slices_go size s cur room) = rev cur ++ s.
Proof.
  induction s as [|c t IH]; intros cur room; cbn [Agent.slices_go].
  - destruct cur; cbn; [reflexivity | now rewrite !app_nil_r].
  - destruct room as [|[|r]]; cbn [concat]; rewrite ?IH; cbn [rev app];
      now rewrite <- ?app_assoc.
Qed.

Lemma slices_bounds size : forall s x,
  1 <= size -> In x (Agent.slices size s) -> 1 <= length x <= size.
Proof.
  intros s x Hs. remember (length s) as n eqn:Hn. revert s Hn.
  induction n as [n IH] using lt_wf_ind. intros s Hn Hx.
  destruct s as [|c t]; [now destruct size|].
  rewrite slices_step in Hx by (exact Hs || discriminate).
  destruct Hx as [<- | Hx].
  - rewrite length_firstn. cbn [length]. lia.
  - apply (IH (length (skipn size (c :: t)))) in Hx; [exact Hx | | reflexivity].
    subst n. rewrite length_skipn. cbn [length]. lia.
Qed.

(** X21 -- the chunks of a tool result are the slices [s[i:i+size]] for
    [i] in [range(0, len(s), size)]: they put together give the text, and
    each has between one and [size] characters. *)
Theorem slices_reassemble (size : nat) (s : str) :
  1 <= size ->
  Agent.slices size s = range_slices size s /\
  concat (Agent.slices size s) = s /\
  Forall (fun x => 1 <= length x <= size) (Agent.slices size s).
Proof.
  intros Hs. split; [now apply slices_as_range|]. split.
  - unfold Agent.slices. now rewrite slices_go_concat.
  - apply List.Forall_forall. intros x Hx. now apply (slices_bounds size s).
Qed.

Lemma slices_reassemble_witness :
  Agent.slices 4 "0123456789" = ["0123"; "4567"; "89"] /\
  concat (Agent.slices 4 "0123456789") = "0123456789".
Proof.
  destruct (slices_reassemble 4 "0123456789" ltac:(lia)) as (Hr & Hc & _).
  split; [rewrite Hr; reflexivity | exact Hc].
Defined.

(** ** The events of a round of tool calls *)

Lemma tool_chunk_text_app a b :
  tool_chunk_text (a ++ b) = tool_chunk_text a ++ tool_chunk_text b.
Proof.
  induction a as [|e a IH]; [reflexivity|].
  destruct e; cbn [app tool_chunk_text]; try exact IH.
  now rewrite IH, app_assoc.
Qed.

Lemma tool_chunk_text_chunks name rid l :
  tool_chunk_text (map (fun d => Agent.Ev_tool_chunk name d rid) l) = concat l.
Proof. induction l as [|d l IH]; [reflexivity|]. cbn. now rewrite IH. Qed.

Lemma terminal_chunks name rid l :
  existsb is_terminal (map (fun d => Agent.Ev_tool_chunk name d rid) l) = false.
Proof. induction l as [|d l IH]; [reflexivity | exact IH]. Qed.

Lemma run_tools_events rid calls :
  fst (Agent.run_tools rid calls)
  = flat_map (call_events rid) (running calls)
    ++ (if snd (Agent.run_tools rid calls) then []
        else match skipn (length (running calls)) calls with
             | Agent.ToolFails msg :: _ => [Agent.Ev_error msg None]
             | _ => []
             end) /\
  (snd (Agent.run_tools rid calls) = true <-> running calls = calls) /\
  (snd (Agent.run_tools rid calls) = false ->
   exists msg rest, calls = running calls ++ Agent.ToolFails msg :: rest).
Proof.
  induction calls as [|c calls (IHe & IHs & IHf)]; [cbn; split; [|split]; easy|].
  destruct c as [name args norm inj result result_str | msg]; cbn [Agent.run_tools running].
  - destruct (Agent.run_tools rid calls) as [evs ok]. cbn [fst snd] in *.
    split; [|split].
    + cbn [flat_map call_events length skipn]. rewrite IHe.
      rewrite <- slices_as_range by lia. cbn [app]. f_equal.
      now rewrite <- !app_assoc.
    + rewrite IHs. split; [now intros -> | now intros [= ->]].
    + intros Hok. destruct (IHf Hok) as (msg & rest & Hc). exists msg, rest.
      cbn [app]. now rewrite <- Hc.
  - cbn [fst snd flat_map app length skipn]. split; [reflexivity|]. split; [easy|].
    intros _. now exists msg, calls.
Qed.

(** X22 -- a round of tool calls yields, for each call that runs and in
    order, its start, the chunks of the JSON text of its result, and its
    result; the chunks of the round put together are those texts one after
    the other.  The round goes on to the next completion iff every call
    runs; otherwise one error event follows the events of the calls that
    ran. *)
Theorem tool_round_events (rid : str) (calls : list Agent.tool_step) :
  let evs := fst (Agent.run_tools rid calls) in
  let ok := snd (Agent.run_tools rid calls) in
  tool_chunk_text evs = results_text calls /\
  (ok = true <-> forallb tool_runs calls = true) /\
  (ok = true -> evs = flat_map (call_events rid) calls) /\
  (ok = false ->
   exists msg rest,
     calls = running calls ++ Agent.ToolFails msg :: rest /\
     evs = flat_map (call_events rid) (running calls) ++ [Agent.Ev_error msg None]).
Proof.
  cbv zeta. destruct (run_tools_events rid calls) as (He & Hs & Hf).
  split; [|split; [|split]].
  - clear. induction calls as [|c calls IH]; [reflexivity|].
    destruct c as [name args norm inj result result_str | msg]; cbn [Agent.run_tools];
      [|reflexivity].
    destruct (Agent.run_tools rid calls) as [evs ok]. cbn [fst] in *.
    cbn [tool_chunk_text results_text].
    rewrite tool_chunk_text_app, tool_chunk_text_chunks. cbn [tool_chunk_text].
    rewrite IH. unfold Agent.slices. now rewrite slices_go_concat.
  - rewrite Hs. clear. induction calls as [|c calls IH]; [easy|].
    destruct c; cbn [running forallb tool_runs andb]; [|easy].
    rewrite <- IH. split; [now intros [= ->] | now intros ->].
  - intros Hok. rewrite He, Hok, app_nil_r. now rewrite (proj1 Hs Hok).
  - intros Hok. destruct (Hf Hok) as (msg & rest & Hc). exists msg, rest.
    split; [exact Hc|]. rewrite He, Hok. f_equal.
    remember (running calls) as r eqn:Hr. clear Hr. rewrite Hc.
    rewrite skipn_app, skipn_all, Nat.sub_diag. reflexivity.
Qed.

Lemma tool_round_events_witness :
  fst (Agent.run_tools "r1"
         [Agent.ToolRuns (Some "db_describe") (JDict []) None None (JList []) "[]"])
  = [Agent.Ev_tool_call_started (Some "db_describe") (JDict []) "r1" None None;
     Agent.Ev_tool_chunk (Some "db_describe") "[]" "r1";
     Agent.Ev_tool_result (Some "db_describe") (JList []) "r1"].
Proof.
  apply (proj1 (proj2 (proj2 (tool_round_events "r1"
           [Agent.ToolRuns (Some "db_describe") (JDict []) None None (JList []) "[]"])))).
  reflexivity.
Defined.

(** ** The end of a run *)

Lemma terminal_app a b : existsb is_terminal (a ++ b) = existsb is_terminal a || existsb is_terminal b.
Proof. apply existsb_app. Qed.

Lemma call_events_not_terminal rid calls :
  existsb is_terminal (flat_map (call_events rid) calls) = false.
Proof.
  induction calls as [|c calls IH]; [reflexivity|]. cbn [flat_map].
  rewrite terminal_app, IH, orb_false_r.
  destruct c; [|reflexivity]. cbn [call_events existsb is_terminal orb].
  now rewrite terminal_app, terminal_chunks.
Qed.

Lemma stream_loop_not_terminal rid stream assembled :
  existsb is_terminal (fst (Agent.stream_loop rid stream assembled)) = false.
Proof.
  revert assembled. induction stream as [|d stream IH]; intros assembled;
    cbn [Agent.stream_loop]; [reflexivity|].
  destruct (negb (truthy_opt d)); [apply IH|].
  specialize (IH (assembled ++ default "" d)).
  destruct (Agent.stream_loop rid stream _). exact IH.
Qed.

Lemma fallback_loop_not_terminal pieces assembled :
  existsb is_terminal (fst (Agent.fallback_loop pieces assembled)) = false.
Proof.
  revert assembled. induction pieces as [|p pieces IH]; intros assembled;
    cbn [Agent.fallback_loop]; [reflexivity|].
  specialize (IH (assembled ++ p)). destruct (Agent.fallback_loop pieces _). exact IH.
Qed.

Lemma run_tools_shape rid calls :
  exists body tail,
    fst (Agent.run_tools rid calls) = body ++ tail /\
    existsb is_terminal body = false /\ length tail <= 1 /\
    (snd (Agent.run_tools rid calls) = true -> tail = []).
Proof.
  destruct (run_tools_events rid calls) as (He & _).
  eexists _, _. split; [exact He|]. split; [apply call_events_not_terminal|].
  destruct (snd (Agent.run_tools rid calls)); [cbn; split; [lia | reflexivity]|].
  split; [|discriminate].
  destruct (skipn _ calls) as [|[] ?]; cbn; lia.
Qed.

(** A run is a body without [done] and [error], then at most one event. *)
Lemma run_rounds_shape rid script :
  exists body tail, Agent.run_rounds rid script = body ++ tail /\
                    existsb is_terminal body = false /\ length tail <= 1.
Proof.
  induction script as [|c script (body & tail & Hr & Hb & Ht)].
  - exists [], []. cbn. repeat split; lia.
  - destruct c as [calls | stream failure | msg]; cbn [Agent.run_rounds].
    + destruct (run_tools_shape rid calls) as (tb & tt & He & Htb & Htt & Hok).
      destruct (Agent.run_tools rid calls) as [evs ok]. cbn [fst snd] in *.
      destruct ok.
      * rewrite (Hok eq_refl), app_nil_r in He. subst evs.
        exists (tb ++ body), tail. rewrite Hr, app_assoc. split; [reflexivity|].
        split; [|exact Ht]. now rewrite terminal_app, Hb, Htb.
      * exists tb, tt. easy.
    + pose proof (stream_loop_not_terminal rid stream "") as Hs.
      destruct (Agent.stream_loop rid stream "") as [evs assembled]. cbn [fst] in Hs.
      destruct failure; eexists _, _; (split; [reflexivity|]); split; try exact Hs; cbn; lia.
    + exists [], [Agent.Ev_error msg None]. cbn. repeat split; lia.
Qed.

Lemma terminal_is_last (body tail pre post : list Agent.event) e :
  existsb is_terminal body = false -> length tail <= 1 ->
  body ++ tail = pre ++ e :: post -> is_terminal e = true -> post = [].
Proof.
  revert pre. induction body as [|b body IH]; intros pre Hb Ht Heq He.
  - cbn in Heq. destruct tail as [|t [|t' tail]]; [now destruct pre | | cbn in Ht; lia].
    destruct pre as [|p pre]; cbn in Heq; [now injection Heq as _ <-|].
    injection Heq as _ Heq. now destruct pre.
  - cbn [existsb] in Hb. apply orb_false_iff in Hb as [Hb1 Hb].
    destruct pre as [|p pre]; cbn in Heq.
    + injection Heq as -> _. congruence.
    + injection Heq as _ Heq. now apply (IH pre).
Qed.

(** X23 -- a [done] or [error] event ends the run: in every run of
    [run_agent_stream] nothing follows such an event, so that a run has at
    most one of them and never both. *)
Theorem stream_ends_once (configured : bool) (rid : str) (script : list Agent.completion)
    (pre post : list Agent.event) (e : Agent.event) :
  Agent.run_agent_stream configured rid script = pre ++ e :: post ->
  is_terminal e = true ->
  post = [] /\ existsb is_terminal pre = false.
Proof.
  intros Heq He.
  assert (Hshape : exists body tail,
            Agent.run_agent_stream configured rid script = body ++ tail /\
            existsb is_terminal body = false /\ length tail <= 1).
  { unfold Agent.run_agent_stream. destruct configured; cbn [negb].
    - apply run_rounds_shape.
    - pose proof (fallback_loop_not_terminal Agent.FAKE "") as Hf.
      destruct (Agent.fallback_loop Agent.FAKE "") as [evs assembled]. cbn [fst] in Hf.
      eexists _, _. split; [reflexivity|]. split; [exact Hf | cbn; lia]. }
  destruct Hshape as (body & tail & Hr & Hb & Ht). rewrite Hr in Heq.
  pose proof (terminal_is_last body tail pre post e Hb Ht Heq He) as ->.
  split; [reflexivity|].
  destruct (existsb is_terminal pre) eqn:Ep; [|reflexivity]. exfalso.
  apply existsb_exists in Ep as (x & Hx & Hxt).
  apply in_split in Hx as (p1 & p2 & ->).
  rewrite <- app_assoc in Heq. cbn [app] in Heq.
  pose proof (terminal_is_last body tail p1 (p2 ++ [e]) x Hb Ht Heq Hxt) as Hnil.
  now destruct p2.
Qed.

Lemma stream_ends_once_witness :
  existsb is_terminal (removelast (Agent.run_agent_stream true "r1" script_three_tools))
  = false.
Proof.
  apply (stream_ends_once true "r1" script_three_tools
           (removelast (Agent.run_agent_stream true "r1" script_three_tools))
           [] (Agent.Ev_done "final answer" (Some "r1"))); reflexivity.
Defined.

(** ** The two validators, and the context they read *)

(** X13 -- the agent's [_tool_plot_render] and the server's [plot_render]
    give the same result on every spec that is a dict or has a truth value;
    on a falsy spec that is no dict (None, for one) the server's reads
    [spec.get] and reports the exception, while the agent's, which reads
    [(spec or {}).get], reports a valid chart. *)
Theorem plot_render_shim_agrees (str_of : json -> str) (spec : json) (tables : ChartContext) :
  ((exists d, spec = JDict d) \/ json_truthy spec = true ->
   Agent._tool_plot_render str_of spec tables = DbServer.plot_render str_of spec tables) /\
  ((forall d, spec <> JDict d) -> json_truthy spec = false ->
   DbServer.plot_render str_of spec tables
   = DbServer.Crashed ["'" ++ type_name spec ++ "' object has no attribute 'get'"] /\
   DbServer.vr_ok (Agent._tool_plot_render str_of spec tables) = true /\
   DbServer.vr_issues (Agent._tool_plot_render str_of spec tables) = []).
Proof.
  unfold Agent._tool_plot_render, DbServer.plot_render, DbServer.validate_body.
  split.
  - intros [(d & ->) | Ht].
    + unfold DbServer.or_empty_get, DbServer.plain_get.
      destruct (DbServer.encoding_items (JDict d)); [|reflexivity].
      destruct d; reflexivity.
    + unfold DbServer.or_empty_get, DbServer.plain_get. rewrite Ht. cbn [negb].
      reflexivity.
  - intros Hnd Hf. unfold DbServer.encoding_items, DbServer.or_empty_get, DbServer.plain_get.
    rewrite Hf. cbn [negb json_truthy].
    destruct spec as [| | | | |d]; try (cbn; now repeat split).
    now contradiction (Hnd d).
Qed.

Lemma plot_render_shim_agrees_witness :
  Agent._tool_plot_render (fun _ => "?") spec_candle_no_low ctx_ohlc
  = DbServer.plot_render (fun _ => "?") spec_candle_no_low ctx_ohlc /\
  DbServer.plot_render (fun _ => "?") JNull ctx_ohlc
  = DbServer.Crashed ["'NoneType' object has no attribute 'get'"] /\
  DbServer.vr_ok (Agent._tool_plot_render (fun _ => "?") JNull ctx_ohlc) = true.
Proof.
  split.
  - apply (proj1 (plot_render_shim_agrees (fun _ => "?") spec_candle_no_low ctx_ohlc)).
    left. eexists. reflexivity.
  - destruct (proj2 (plot_render_shim_agrees (fun _ => "?") JNull ctx_ohlc)
                ltac:(discriminate) eq_refl) as (Hc & Hok & _).
    split; [exact Hc | exact Hok].
Defined.

Lemma field_ok_monotone str_of ctx ctx' v :
  incl ctx ctx' -> List.NoDup (map t_name ctx') ->
  field_ok str_of ctx v = true -> field_ok str_of ctx' v = true.
Proof.
  intros Hincl Hnd. unfold field_ok.
  destruct (negb (json_truthy (DbServer.extract_field v))); [easy|].
  destruct (has_char "." _).
  - destruct (DbServer.allowed_by_alias ctx !! _) as [cols|] eqn:E; [|discriminate].
    intros Hm. apply allowed_by_alias_some in E as (t & Hin & Hn & Hne & ->).
    rewrite <- Hn in *.
    now rewrite (allowed_by_alias_unique ctx' t Hnd (Hincl t Hin) Hne).
  - intros Hm. apply mem_spec in Hm. apply mem_spec.
    apply in_columns_union in Hm as (t & c & Ht & Hc & Hx).
    apply in_columns_union. exists t, c. split; [now apply Hincl | easy].
Qed.

Lemma channel_issue_monotone str_of ctx ctx' k v x :
  incl ctx ctx' -> List.NoDup (map t_name ctx') ->
  In x (channel_issue str_of ctx' k v) -> In x (channel_issue str_of ctx k v).
Proof.
  intros Hincl Hnd. unfold channel_issue.
  destruct (field_ok str_of ctx v) eqn:E.
  - now rewrite (field_ok_monotone str_of ctx ctx' v Hincl Hnd E).
  - destruct (field_ok str_of ctx' v); [easy | exact id].
Qed.

(** X14 -- with distinct table names in the larger context, a chart spec
    has no issue in a context with more tables that it had not in the
    smaller one: every issue reported for the larger context is reported
    for the smaller, and a spec valid in the smaller is valid in the
    larger. *)
Theorem plot_render_monotone (str_of : json -> str) (spec : json) (ctx ctx' : ChartContext) :
  incl ctx ctx' -> List.NoDup (map t_name ctx') ->
  incl (DbServer.vr_issues (DbServer.plot_render str_of spec ctx'))
       (DbServer.vr_issues (DbServer.plot_render str_of spec ctx)) /\
  (DbServer.vr_ok (DbServer.plot_render str_of spec ctx) = true ->
   DbServer.vr_ok (DbServer.plot_render str_of spec ctx') = true).
Proof.
  intros Hincl Hnd.
  assert (Hi : incl (DbServer.vr_issues (DbServer.plot_render str_of spec ctx'))
                    (DbServer.vr_issues (DbServer.plot_render str_of spec ctx))).
  { unfold DbServer.plot_render.
    destruct (DbServer.encoding_items spec) as [enc|e] eqn:Eenc;
      [|unfold DbServer.validate_body; rewrite Eenc; apply incl_refl].
    destruct (DbServer.plain_get spec "mark") as [mark|e] eqn:Emark;
      [|unfold DbServer.validate_body; rewrite Eenc, Emark; apply incl_refl].
    destruct (validate_issues str_of DbServer.plain_get spec ctx enc mark Eenc Emark)
      as (c1 & a1 & b1 & f1 & ->).
    destruct (validate_issues str_of DbServer.plain_get spec ctx' enc mark Eenc Emark)
      as (c2 & a2 & b2 & f2 & ->).
    cbn [DbServer.catch_all DbServer.vr_issues]. intros x Hx.
    apply in_app_iff in Hx. apply in_app_iff. destruct Hx as [Hx | Hx].
    - left. unfold encoding_issues in *. apply in_flat_map in Hx as (kv & Hkv & Hx).
      apply in_flat_map. exists kv. split; [exact Hkv|].
      now apply (channel_issue_monotone str_of ctx ctx').
    - right. destruct (DbServer.is_candlestick mark); [|exact Hx].
      unfold candlestick_issues in *. apply in_flat_map in Hx as (k & Hk & Hx).
      apply in_flat_map. exists k. split; [exact Hk|].
      destruct (assoc k enc); [|exact Hx].
      now apply (channel_issue_monotone str_of ctx ctx'). }
  split; [exact Hi|]. intros Hok. apply vr_ok_issues in Hok. apply vr_ok_issues.
  rewrite Hok in Hi. destruct (DbServer.vr_issues _) as [|x l]; [reflexivity|].
  now destruct (Hi x (or_introl eq_refl)).
Qed.

Lemma plot_render_monotone_witness :
  DbServer.vr_ok (DbServer.plot_render (fun _ => "?")
                    (chart_spec "line" [("y", JStr "prices.close")]) ctx_two_real) = true.
Proof.
  apply (proj2 (plot_render_monotone (fun _ => "?")
                  (chart_spec "line" [("y", JStr "prices.close")]) ctx_prices ctx_two_real
                  ltac:(intros t [<- | []]; now left)
                  ltac:(repeat constructor; cbn; intuition discriminate))).
  reflexivity.
Defined.

(** ** Datasets: names as a set, keys as written *)

Lemma build_lookup names prior k v :
  Agent._build_datasets_from_prior_queries names prior !! k = Some v <->
  Agent.accumulate prior !! k = Some v /\
  (names = [] \/ kept_for (Agent.accumulate prior) names k).
Proof.
  unfold Agent._build_datasets_from_prior_queries.
  destruct prior as [|q qs].
  - change (Agent.accumulate []) with (∅ : gmap str (list json)).
    rewrite lookup_empty. split; [discriminate | now intros [H _]].
  - destruct names as [|n l].
    + split; [intros H; split; [exact H | now left] | now intros [H _]].
    + rewrite fold_keep_referenced by (intros k' v'; now rewrite lookup_empty).
      rewrite lookup_empty. split.
      * intros [Hk [[w Hw] | Hl]]; [discriminate | tauto].
      * intros [Hk [Hl | Hl]]; [discriminate | tauto].
Qed.

Lemma kept_for_same_names (ds : gmap str (list json)) l l' k :
  (forall n, In n l <-> In n l') -> kept_for ds l k -> kept_for ds l' k.
Proof.
  intros Hl [Hin | (Hk & n & Hn & Hrest)].
  - left. now apply Hl.
  - right. split; [exact Hk|]. exists n. split; [now apply Hl | exact Hrest].
Qed.

(** X19 -- the datasets that [_build_datasets_from_prior_queries] returns
    depend on the referenced names as a set only: two lists with the same
    elements, in any order and with any repetition, give the same
    mapping. *)
Theorem build_datasets_names_as_set (names names' : list str)
    (prior : list Agent.QueryRecord) :
  (forall n, In n names <-> In n names') ->
  Agent._build_datasets_from_prior_queries names prior
  = Agent._build_datasets_from_prior_queries names' prior.
Proof.
  intros Hl. apply map_eq. intros k. apply option_eq. intros v.
  rewrite !build_lookup.
  assert (Hnil : names = [] <-> names' = []).
  { split; intros ->.
    - destruct names' as [|n l]; [reflexivity|]. now destruct (proj2 (Hl n) (or_introl eq_refl)).
    - destruct names as [|n l]; [reflexivity|]. now destruct (proj1 (Hl n) (or_introl eq_refl)). }
  split; intros [Hk [Hn | Hkept]]; (split; [exact Hk|]).
  - left. now apply Hnil.
  - right. now apply (kept_for_same_names _ names names').
  - left. now apply Hnil.
  - right. apply (kept_for_same_names _ names' names); [|exact Hkept].
    intros n. symmetry. apply Hl.
Qed.

Lemma build_datasets_names_as_set_witness :
  Agent._build_datasets_from_prior_queries
    ["query_result_2"; "query_result"; "query_result_2"] [query_plain; query_second]
  = Agent._build_datasets_from_prior_queries
      ["query_result"; "query_result_2"] [query_plain; query_second].
Proof.
  apply build_datasets_names_as_set. intros n. cbn [In]. tauto.
Defined.

Lemma latest_rows_some prior k v :
  latest_rows prior k = Some v ->
  exists q, In q prior /\ binds q k = true /\ Agent.rows_of (Agent.q_result q) = Some v.
Proof.
  unfold latest_rows. destruct (find _ _) as [q|] eqn:E; [|discriminate].
  intros Hv. apply find_some in E as [Hin Hb]. exists q.
  split; [now apply in_rev | easy].
Qed.

(** X20 -- every dataset that [_build_datasets_from_prior_queries] returns
    holds the rows of one of the prior queries, under a key that is either
    the bare [query_result] or a token written in the SQL text of that
    query; so that every key is, letter case apart, the name of a virtual
    table. *)
Theorem dataset_keys_come_from_sql (names : list str) (prior : list Agent.QueryRecord)
    (k : str) (rows : list json) :
  Agent._build_datasets_from_prior_queries names prior !! k = Some rows ->
  DbServer.is_virtual_name (lower k) = true /\
  exists q, In q prior /\ Agent.rows_of (Agent.q_result q) = Some rows /\
            (k = "query_result" \/ within k (Agent.sql_text_of q)).
Proof.
  intros H. apply build_lookup in H as [H _]. rewrite accumulate_latest in H.
  apply latest_rows_some in H as (q & Hin & Hb & Hrows).
  unfold binds in Hb. apply andb_true_iff in Hb as [_ Hb].
  apply orb_true_iff in Hb as [Hb | Hb].
  - apply mem_spec in Hb.
    apply (used_virtual_shape (Agent.sql_text_of q) k) in Hb as [Hw Hv].
    split; [exact Hv|]. exists q. split; [exact Hin|]. split; [exact Hrows | now right].
  - apply andb_true_iff in Hb as [_ Hb]. apply str_eqb_spec in Hb. subst k.
    split; [reflexivity|]. exists q. split; [exact Hin|]. split; [exact Hrows | now left].
Qed.

Lemma dataset_keys_come_from_sql_witness :
  DbServer.is_virtual_name (lower "query_result_2") = true /\
  exists q, In q [query_plain; query_second] /\
            Agent.rows_of (Agent.q_result q) = Some [JStr "B"] /\
            ("query_result_2" = "query_result" \/
             within "query_result_2" (Agent.sql_text_of q)).
Proof.
  apply (dataset_keys_come_from_sql ["query_result_2"] [query_plain; query_second]).
  apply build_lookup. split.
  - rewrite accumulate_latest. vm_compute. reflexivity.
  - right. left. now left.
Defined.

(** ** Chart contexts of tool calls *)

Lemma dict_get_list_assoc d k l : dict_get d k = JList l -> assoc k d = Some (JList l).
Proof.
  unfold dict_get. destruct (assoc k d) as [v|]; simpl; [now intros -> | discriminate].
Qed.

Lemma valid_context_truthy d tbls : dict_get d "tables" = JList tbls -> d <> [].
Proof. intros H ->. discriminate H. Qed.

Lemma ensure_valid a f : valid_context (Agent._ensure_chart_context a f).
Proof.
  assert (Hf : valid_context
                 match f with
                 | JDict fd =>
                     match dict_get fd "tables" with
                     | JList _ => f
                     | _ => JDict [("tables", JList [])]
                     end
                 | _ => JDict [("tables", JList [])]
                 end).
  { destruct f as [| | | | |fd]; try (now exists [("tables", JList [])], []).
    destruct (dict_get fd "tables") eqn:E; try (now exists [("tables", JList [])], []).
    now exists fd, l. }
  unfold Agent._ensure_chart_context.
  destruct a as [| | | | |d]; try exact Hf.
  destruct (dict_get d "tables") eqn:E; try (now exists d, l);
    (destruct (dict_get d "query_result"); try exact Hf; eexists _, _; split; reflexivity).
Qed.

Lemma ensure_of_valid a f : valid_context a -> Agent._ensure_chart_context a f = a.
Proof. intros (d & tbls & -> & H). unfold Agent._ensure_chart_context. now rewrite H. Qed.

(** X16 -- [_ensure_chart_context] always returns a context of the valid
    shape, a dict with a list under [tables]; it returns a valid context of
    the arguments as it is, whatever the fallback, and so changes nothing
    when applied again. *)
Theorem ensure_chart_context_shape (a f : json) :
  valid_context (Agent._ensure_chart_context a f) /\
  (valid_context a -> Agent._ensure_chart_context a f = a) /\
  (~ valid_context a -> (forall d q, a = JDict d -> dict_get d "query_result" <> JDict q) ->
   valid_context f -> Agent._ensure_chart_context a f = f) /\
  (forall g, Agent._ensure_chart_context (Agent._ensure_chart_context a f) g
             = Agent._ensure_chart_context a f).
Proof.
  split; [apply ensure_valid|]. split; [apply ensure_of_valid|]. split.
  - intros Ha Hq (fd & ftbls & -> & Hf). unfold Agent._ensure_chart_context. rewrite Hf.
    destruct a as [| | | | |d]; try reflexivity.
    destruct (dict_get d "tables") as [| | | |tbls|td] eqn:E;
      try (destruct (dict_get d "query_result") as [| | | | |qd] eqn:Eq; try reflexivity;
           now contradiction (Hq d qd eq_refl)).
    contradiction Ha. now exists d, tbls.
  - intros g. apply ensure_of_valid, ensure_valid.
Qed.

Lemma ensure_chart_context_shape_witness :
  Agent._ensure_chart_context (JDict [("tables", JList [])]) JNull
  = JDict [("tables", JList [])] /\
  Agent._ensure_chart_context (JStr "x") (JDict [("tables", JList [JNull])])
  = JDict [("tables", JList [JNull])].
Proof.
  split.
  - apply (proj1 (proj2 (ensure_chart_context_shape (JDict [("tables", JList [])]) JNull))).
    now exists [("tables", JList [])], [].
  - apply (proj1 (proj2 (proj2 (ensure_chart_context_shape
                                   (JStr "x") (JDict [("tables", JList [JNull])]))))).
    + intros (d & tbls & H & _). discriminate H.
    + intros d q H. discriminate H.
    + now exists [("tables", JList [JNull])], [JNull].
Defined.

(** X15 -- [db_describe] returns a list for every context, the one that
    [_ensure_chart_context] with an empty fallback puts under [tables]; and
    on every context that [_ensure_chart_context] returns, the agent's
    [_tool_db_describe] returns the same list. *)
Theorem db_describe_spec (a f : json) :
  (exists l, DbServer.db_describe a = JList l) /\
  (exists d, Agent._ensure_chart_context a EMPTY_CONTEXT = JDict d /\
             dict_get d "tables" = DbServer.db_describe a) /\
  Agent._tool_db_describe (Agent._ensure_chart_context a f)
  = DbServer.db_describe (Agent._ensure_chart_context a f).
Proof.
  split; [|split].
  - unfold DbServer.db_describe. destruct a as [| | | | |d]; eauto.
    destruct (dict_get d "tables"); eauto; destruct (dict_get d "query_result"); eauto.
  - unfold DbServer.db_describe, Agent._ensure_chart_context, EMPTY_CONTEXT.
    cbn [dict_get assoc].
    destruct a as [| | | | |d]; try (now exists [("tables", JList [])]).
    destruct (dict_get d "tables") eqn:E; try (now exists d);
      (destruct (dict_get d "query_result");
       try (now exists [("tables", JList [])]); eexists; split; reflexivity).
  - destruct (ensure_valid a f) as (d & tbls & -> & Ht).
    unfold Agent._tool_db_describe, DbServer.db_describe. rewrite Ht.
    cbn [json_truthy]. destruct d as [|e d]; [discriminate Ht|]. cbn [negb].
    now rewrite (dict_get_list_assoc _ _ _ Ht).
Qed.

(** ** Dataset names of a spec and the datasets of a plot *)

Lemma visit_dict d :
  Agent.visit (JDict d)
  = (match dict_get d "data" with
     | JDict dd =>
         match dict_get dd "name" with
         | JStr nm => [nm]
         | _ => []
         end
     | _ => []
     end)
    ++ match dict_get d "layer" with
       | JList lyr => flat_map Agent.visit lyr
       | _ => []
       end.
Proof.
  cbn [Agent.visit]. f_equal. unfold dict_get.
  induction d as [|[k v] d IH]; [reflexivity|].
  cbn [assoc]. destruct (str_eqb "layer" k); [|exact IH].
  simpl. destruct v as [| | | |lyr|]; reflexivity.
Qed.

Lemma assoc_in {A} k (d : list (str * A)) v : assoc k d = Some v -> In (k, v) d.
Proof.
  induction d as [|[k' v'] d IH]; [discriminate|]. cbn [assoc].
  destruct (str_eqb k k') eqn:E.
  - apply str_eqb_spec in E. intros [= ->]. subst. now left.
  - intros H. right. now apply IH.
Qed.

Lemma dict_get_in d k v : dict_get d k = v -> v <> JNull -> In (k, v) d.
Proof.
  unfold dict_get. destruct (assoc k d) as [w|] eqn:E; simpl.
  - intros -> _. now apply assoc_in.
  - intros <- H. now contradiction H.
Qed.

Lemma json_values_ind (P : json -> Prop) :
  P JNull -> (forall b, P (JBool b)) -> (forall n, P (JNum n)) -> (forall s, P (JStr s)) ->
  (forall l, Forall P l -> P (JList l)) ->
  (forall d, Forall (fun kv => P (snd kv)) d -> P (JDict d)) ->
  forall j, P j.
Proof.
  intros HN HB HZ HS HL HD.
  refine (fix IH (j : json) : P j :=
            match j with
            | JNull => HN
            | JBool b => HB b
            | JNum n => HZ n
            | JStr s => HS s
            | JList l =>
                HL l ((fix go (l : list json) : Forall P l :=
                         match l with
                         | [] => @List.Forall_nil _ P
                         | x :: t => @List.Forall_cons _ P x t (IH x) (go t)
                         end) l)
            | JDict d =>
                HD d ((fix go (d : list (str * json)) : Forall (fun kv => P (snd kv)) d :=
                         match d with
                         | [] => @List.Forall_nil _ (fun kv => P (snd kv))
                         | kv :: t =>
                             @List.Forall_cons _ (fun kv => P (snd kv)) kv t
                               (IH (snd kv)) (go t)
                         end) d)
            end).
Qed.

Lemma visit_names s nm : In nm (Agent.visit s) <-> names_in s nm.
Proof.
  revert nm.
  enough (H : (forall nm, In nm (Agent.visit s) <-> names_in s nm) /\
              match s with
              | JList l => Forall (fun x => forall nm, In nm (Agent.visit x) <-> names_in x nm) l
              | _ => True
              end) by apply H.
  pattern s. apply json_values_ind; clear s;
    try (intros; split; [intros nm; split; [intros [] | intros H; inversion H] | exact I]).
  - intros l IH. split.
    + intros nm. split; [intros [] | intros H; inversion H].
    + eapply List.Forall_impl; [|exact IH]. now intros x [Hx _].
  - intros d IH. split; [|exact I]. intros nm. rewrite visit_dict, in_app_iff. split.
    + intros [H | H].
      * destruct (dict_get d "data") as [| | | | |dd] eqn:Ed; try (now destruct H).
        destruct (dict_get dd "name") as [| | |s| |] eqn:En; try (now destruct H).
        destruct H as [<- | []]. now apply (name_here d dd).
      * destruct (dict_get d "layer") as [| | | |lyr|] eqn:El; try (now destruct H).
        apply in_flat_map in H as (sub & Hsub & H).
        apply (name_in_layer d lyr sub); [exact El | exact Hsub|].
        apply dict_get_in in El; [|discriminate].
        rewrite List.Forall_forall in IH. destruct (IH _ El) as [_ Hl]. cbn [snd] in Hl.
        rewrite List.Forall_forall in Hl. now apply Hl.
    + intros H. inversion H as [d' dd nm' Hd Hn | d' lyr sub nm' Hl Hsub Hnm]; subst.
      * left. rewrite Hd, Hn. now left.
      * right. rewrite Hl. apply in_flat_map. exists sub. split; [exact Hsub|].
        apply dict_get_in in Hl as Hin; [|discriminate].
        rewrite List.Forall_forall in IH. destruct (IH _ Hin) as [_ Hall]. cbn [snd] in Hall.
        rewrite List.Forall_forall in Hall. now apply Hall.
Qed.

Lemma names_in_truthy s nm : names_in s nm -> py_or s (JDict []) = s.
Proof.
  intros H. inversion H as [d dd nm' Hd Hn | d lyr sub nm' Hl Hsub Hnm]; subst;
    destruct d; [discriminate Hd | reflexivity | discriminate Hl | reflexivity].
Qed.

Lemma collect_names spec nm :
  In nm (Agent._collect_dataset_names_from_spec spec) <-> names_in spec nm.
Proof.
  unfold Agent._collect_dataset_names_from_spec. rewrite in_dedup, visit_names.
  unfold py_or. destruct (json_truthy spec) eqn:E; [reflexivity|].
  split; intros H.
  - inversion H as [d dd nm' Hd Hn | d lyr sub nm' Hl Hsub Hnm]; subst; discriminate.
  - apply names_in_truthy in H as Hp. unfold py_or in Hp. rewrite E in Hp. subst spec.
    exact H.
Qed.

(** X17 -- [_collect_dataset_names_from_spec] returns, each once, the
    strings under [data.name] of the spec and of the specs of its [layer]
    lists, at any depth; none for a spec that is no dict. *)
Theorem collected_names_spec (spec : json) :
  (forall nm, In nm (Agent._collect_dataset_names_from_spec spec) <-> names_in spec nm) /\
  List.NoDup (Agent._collect_dataset_names_from_spec spec) /\
  ((forall d, spec <> JDict d) -> Agent._collect_dataset_names_from_spec spec = []) /\
  (forall nm layers,
     spec = layered_spec nm layers ->
     forall x, In x (Agent._collect_dataset_names_from_spec spec) <->
               x = nm \/ exists sub, In sub layers /\
                                     In x (Agent._collect_dataset_names_from_spec sub)).
Proof.
  split; [intros nm; apply collect_names|]. split; [apply nodup_dedup|]. split.
  - intros Hnd. destruct (Agent._collect_dataset_names_from_spec spec) as [|x l] eqn:E;
      [reflexivity|].
    assert (Hx : names_in spec x) by (apply collect_names; rewrite E; now left).
    inversion Hx; subst; now contradiction (Hnd d).
  - intros nm layers -> x. rewrite collect_names. split.
    + intros H. inversion H as [d dd nm' Hd Hn | d lyr sub nm' Hl Hsub Hnm]; subst.
      * left. cbn in Hd. injection Hd as <-. cbn in Hn. now injection Hn as <-.
      * right. cbn in Hl. injection Hl as <-. exists sub. split; [exact Hsub|].
        now apply collect_names.
    + intros [-> | (sub & Hsub & Hx)].
      * now apply (name_here _ [("name", JStr nm)]).
      * apply (name_in_layer _ layers sub); [reflexivity | exact Hsub|].
        now apply collect_names.
Qed.

Lemma collected_names_spec_witness :
  Agent._collect_dataset_names_from_spec (JStr "query_result") = [] /\
  forall x,
    In x (Agent._collect_dataset_names_from_spec
            (layered_spec "query_result" [layered_spec "query_result_2" []])) <->
    x = "query_result" \/
    exists sub, In sub [layered_spec "query_result_2" []] /\
                In x (Agent._collect_dataset_names_from_spec sub).
Proof.
  split.
  - apply (proj1 (proj2 (proj2 (collected_names_spec (JStr "query_result"))))).
    discriminate.
  - apply (proj2 (proj2 (proj2 (collected_names_spec
             (layered_spec "query_result" [layered_spec "query_result_2" []]))))
             "query_result" [layered_spec "query_result_2" []] eq_refl).
Defined.

(** X18 -- the datasets that the agent adds to the result of a
    [plot_render] call: only to a result that is a dict, and never an empty
    mapping; a key is bound to the rows that the prior queries give it, and
    is there iff the spec names no dataset at all, or names this key, or the
    key is [query_result] and the spec names it in another letter case that
    no prior query wrote. *)
Theorem plot_datasets_spec (args : list (str * json)) (result : json)
    (prior : list Agent.QueryRecord) (ds : gmap str (list json)) :
  Agent.plot_datasets args result prior = Some ds ->
  let spec := py_or (dict_get args "spec") (JDict []) in
  (exists d, result = JDict d) /\ ds <> ∅ /\
  forall k rows,
    ds !! k = Some rows <->
    Agent.accumulate prior !! k = Some rows /\
    ((forall n, ~ names_in spec n) \/ names_in spec k \/
     (k = "query_result" /\
      exists n, names_in spec n /\ lower n = "query_result" /\
                Agent.accumulate prior !! n = None)).
Proof.
  intros H spec. unfold Agent.plot_datasets in H. cbv zeta in H. fold spec in H.
  destruct result as [| | | | |d]; try discriminate.
  destruct (bool_decide _) eqn:E; [discriminate|]. injection H as <-.
  apply bool_decide_eq_false in E.
  split; [now exists d|]. split; [exact E|].
  intros k rows. rewrite build_lookup. unfold kept_for.
  split; intros [Hk Hcase]; (split; [exact Hk|]).
  - destruct Hcase as [Hnil | [Hin | (Hq & n & Hn & Hl & Hu)]].
    + left. intros n Hn. apply collect_names in Hn. rewrite Hnil in Hn. destruct Hn.
    + right. left. now apply collect_names.
    + right. right. split; [exact Hq|]. exists n. split; [now apply collect_names | easy].
  - destruct Hcase as [Hnone | [Hin | (Hq & n & Hn & Hl & Hu)]].
    + left. destruct (Agent._collect_dataset_names_from_spec spec) as [|x l] eqn:Ec;
        [reflexivity|].
      exfalso. apply (Hnone x). apply collect_names. rewrite Ec. now left.
    + right. left. now apply collect_names.
    + right. right. split; [exact Hq|]. exists n. split; [now apply collect_names | easy].
Qed.

Lemma plot_datasets_spec_witness :
  Agent.plot_datasets
    [("spec", layered_spec "query_result_2" [])] (JDict [("ok", JBool true)])
    [query_plain; query_second] = Some {[ "query_result_2" := [JStr "B"] ]} /\
  ({[ "query_result_2" := [JStr "B"] ]} : gmap str (list json)) <> ∅.
Proof.
  assert (H : Agent.plot_datasets
                [("spec", layered_spec "query_result_2" [])] (JDict [("ok", JBool true)])
                [query_plain; query_second] = Some {[ "query_result_2" := [JStr "B"] ]}).
  { unfold Agent.plot_datasets.
    replace (Agent._collect_dataset_names_from_spec _) with ["query_result_2"]
      by (vm_compute; reflexivity).
    unfold Agent._build_datasets_from_prior_queries. cbn [fold_left].
    unfold Agent.keep_referenced.
    replace (Agent.accumulate [query_plain; query_second] !! "query_result_2")
      with (Some [JStr "B"]) by (rewrite accumulate_latest; vm_compute; reflexivity).
    rewrite insert_empty. rewrite bool_decide_eq_false_2; [reflexivity|].
    apply (map_non_empty_singleton (M := gmap str)). }
  split; [exact H|].
  exact (proj1 (proj2 (plot_datasets_spec _ _ _ _ H))).
Defined.

(** ** What injection and the shim keep *)

Lemma has_keyword_words sql :
  has_keyword sql ->
  exists pre x w post, sql = pre ++ (x :: w) ++ post /\ In (upper (x :: w)) Db.BLOCKED /\
                       forallb is_word (x :: w) = true /\ word_bounded pre post.
Proof.
  intros (pre & w & post & -> & Hin & Hb).
  pose proof blocked_words as HW. rewrite List.Forall_forall in HW.
  destruct (HW _ Hin) as [Hne Hall]. rewrite forallb_word_upper in Hall.
  destruct w as [|x w]; [now contradiction Hne|]. now exists pre, x, w, post.
Qed.

Lemma last_app_nonword (a pre : str) :
  is_word_opt (last a) = false -> is_word_opt (last pre) = false ->
  is_word_opt (last (a ++ pre)) = false.
Proof.
  intros Ha Hp. destruct pre as [|c pre]; [now rewrite app_nil_r|].
  now rewrite last_app_ne by discriminate.
Qed.

Lemma head_app_nonword (post b : str) :
  is_word_opt (head post) = false -> is_word_opt (head b) = false ->
  is_word_opt (head (post ++ b)) = false.
Proof. intros Hp Hb. now destruct post. Qed.

(** A keyword of a text is a keyword of a larger text, when no word
    character touches the text on either side. *)
Lemma has_keyword_embed a x b :
  has_keyword x -> is_word_opt (last a) = false -> is_word_opt (head b) = false ->
  has_keyword (a ++ x ++ b).
Proof.
  intros (pre & w & post & -> & Hin & Hl & Hh) Ha Hb.
  exists (a ++ pre), w, (post ++ b). split; [now rewrite <- !app_assoc|].
  split; [exact Hin|]. split; [now apply last_app_nonword | now apply head_app_nonword].
Qed.

Lemma has_keyword_strip sql : has_keyword sql -> has_keyword (strip sql).
Proof.
  intros H. apply has_keyword_words in H as (pre & x & w & post & -> & Hin & Hall & Hl & Hh).
  rewrite strip_around_word by (discriminate || exact Hall).
  exists (lstrip pre), (x :: w), (rstrip post). split; [reflexivity|]. split; [exact Hin|].
  split.
  - unfold lstrip. destruct (lstrip_of is_space pre) eqn:E; [reflexivity|].
    rewrite <- E, last_lstrip_of by (rewrite E; discriminate). exact Hl.
  - unfold rstrip. destruct (rstrip_of is_space post) eqn:E; [reflexivity|].
    rewrite <- E, head_rstrip_of by (rewrite E; discriminate). exact Hh.
Qed.

Lemma blocked_first_letter w x :
  In (upper (x :: w)) Db.BLOCKED -> upper_c x <> "W"%char.
Proof.
  cbn [upper map]. intros H Hx. rewrite Hx in H. unfold Db.BLOCKED in H.
  repeat (destruct H as [H | H]; [discriminate H|]). destruct H.
Qed.

Lemma upper_c_is_word c : is_word (upper_c c) = true -> is_word c = true.
Proof. now rewrite upper_c_word. Qed.

(** A keyword of a statement that begins with WITH and a blank lies
    behind these five characters. *)
Lemma has_keyword_after_with s :
  startswith (upper s) "WITH " = true -> has_keyword s ->
  has_keyword (lstrip (skipn 5 s)).
Proof.
  intros Hw H. apply has_keyword_words in H as (pre & x & w & post & Hs & Hin & Hall & Hl & Hh).
  apply startswith_spec in Hw as (t & Ht).
  pose proof (blocked_first_letter w x Hin) as Hx.
  cbn [forallb] in Hall. apply andb_true_iff in Hall as [Hxw Hall].
  assert (Hxs : is_space x = false) by now apply word_not_space.
  destruct s as [|c0 [|c1 [|c2 [|c3 [|c4 s']]]]]; try discriminate Ht.
  cbn [upper map app] in Ht. injection Ht as H0 H1 H2 H3 H4 _.
  assert (Hw0 : is_word c0 = true) by (apply upper_c_is_word; now rewrite H0).
  assert (Hw1 : is_word c1 = true) by (apply upper_c_is_word; now rewrite H1).
  assert (Hw2 : is_word c2 = true) by (apply upper_c_is_word; now rewrite H2).
  assert (Hw3 : is_word c3 = true) by (apply upper_c_is_word; now rewrite H3).
  assert (Hw4 : is_word c4 = false) by (rewrite <- upper_c_word, H4; reflexivity).
  destruct pre as [|p0 [|p1 [|p2 [|p3 [|p4 pre']]]]]; cbn [app] in Hs.
  - injection Hs as -> _. congruence.
  - injection Hs as -> _. cbn in Hl. congruence.
  - injection Hs as _ -> _. cbn in Hl. congruence.
  - injection Hs as _ _ -> _. cbn in Hl. congruence.
  - injection Hs as _ _ _ -> Hx4. congruence.
  - injection Hs as -> -> -> -> -> ->. cbn [skipn]. unfold lstrip.
    rewrite skipn_O. rewrite lstrip_of_nonclass by exact Hxs.
    exists (lstrip_of is_space pre'), (x :: w), post. split; [reflexivity|].
    split; [exact Hin|]. split; [|exact Hh].
    destruct (lstrip_of is_space pre') eqn:E; [reflexivity|].
    rewrite <- E, last_lstrip_of by (rewrite E; discriminate).
    destruct pre' as [|y pre']; [discriminate E|].
    exact Hl.
Qed.

Lemma join_holds sep x l : In x l -> exists a b, join sep l = a ++ x ++ b.
Proof.
  induction l as [|y l IH]; [easy|]. intros [-> | H].
  - destruct l as [|z l]; [exists [], []; cbn; now rewrite app_nil_r|].
    exists [], (sep ++ join sep (z :: l)). reflexivity.
  - destruct (IH H) as (a & b & Hj). destruct l as [|z l]; [destruct H|].
    exists (y ++ sep ++ a), b. change (join sep (y :: z :: l)) with (y ++ sep ++ join sep (z :: l)).
    rewrite Hj. now rewrite <- !app_assoc.
Qed.

Lemma last_snoc_char (a : str) c : last (a ++ [c]) = Some c.
Proof. apply last_snoc. Qed.

(** X6 -- injection hides no keyword from the read-only guard.  With a
    backed virtual table in the context, a blocked keyword of the statement
    or of the [base_sql] of a backed virtual table is a keyword of the
    injected SQL, which [enforce_readonly] rejects, so that [db_query] does
    not execute it; without one, a statement that is returned stripped keeps
    its keywords. *)
Theorem injection_keeps_keywords (sql : str) (tables : ChartContext) (q : str) :
  DbServer._inject_virtual_table sql tables = Some q ->
  (existsb is_backed tables = true ->
   has_keyword sql \/
   (exists t base, In t tables /\ is_backed t = true /\ t_base_sql t = Some base /\
                   has_keyword base) ->
   has_keyword q /\
   (forall env, Db.enforce_readonly env q = Rejected "Only read-only queries are permitted") /\
   (forall env_ro env_allow execute params q' p,
      ~ In (DbServer.CallQuery q' p)
           (fst (DbServer.guarded_query env_ro env_allow execute q tables params)))) /\
  (q = strip sql -> has_keyword sql -> has_keyword q).
Proof.
  intros Hq. split; [|intros ->; apply has_keyword_strip].
  intros Hb Hkw.
  assert (Hk : has_keyword q).
  { unfold DbServer._inject_virtual_table in Hq. cbv zeta in Hq.
    destruct (DbServer.backed_virtuals tables) as [|v vs] eqn:Ev.
    { apply backed_virtuals_nil in Ev. congruence. }
    cbv beta iota in Hq. rewrite <- Ev in Hq.
    remember (join ("," ++ [nl])
                (map (fun ab => fst ab ++ " AS (" ++ snd ab ++ ")")
                     (DbServer.backed_virtuals tables))) as prefix eqn:Hp.
    destruct Hkw as [Hs | (t & base & Ht & Htb & Hbase & Hk)].
    - apply has_keyword_strip in Hs.
      destruct (startswith (upper (strip sql)) "WITH ") eqn:Ew; injection Hq as <-.
      + apply (has_keyword_after_with _ Ew) in Hs.
        apply (has_keyword_embed ("WITH " ++ prefix ++ "," ++ [nl]) _ []) in Hs;
          [|now rewrite !app_assoc, last_snoc_char | reflexivity].
        rewrite app_nil_r, <- !app_assoc in Hs. exact Hs.
      + apply (has_keyword_embed ("WITH " ++ prefix ++ [nl]) _ []) in Hs;
          [|now rewrite !app_assoc, last_snoc_char | reflexivity].
        rewrite app_nil_r, <- !app_assoc in Hs. exact Hs.
    - assert (Hin : In (t_name t ++ " AS (" ++ base ++ ")")
                       (map (fun ab => fst ab ++ " AS (" ++ snd ab ++ ")")
                            (DbServer.backed_virtuals tables))).
      { rewrite backed_virtuals_filter, map_map. apply in_map_iff. exists t.
        cbn [fst snd]. rewrite Hbase. split; [reflexivity|].
        apply List.filter_In. now split. }
      apply (join_holds ("," ++ [nl])) in Hin as (a & b & Hj). rewrite <- Hp in Hj.
      assert (Hform : forall rest, has_keyword ("WITH " ++ prefix ++ rest)).
      { intros rest.
        apply (has_keyword_embed ("WITH " ++ a ++ t_name t ++ " AS " ++ ["("%char]) _
                 (")" ++ b ++ rest)) in Hk;
          [|now rewrite !app_assoc, last_snoc_char | reflexivity].
        rewrite Hj. rewrite <- !app_assoc in Hk. rewrite <- !app_assoc. exact Hk. }
      destruct (startswith (upper (strip sql)) "WITH "); injection Hq as <-; apply Hform. }
  split; [exact Hk|].
  assert (Hrej : forall env,
            Db.enforce_readonly env q = Rejected "Only read-only queries are permitted").
  { intros env. apply keyword_blocked_spec in Hk as Hkb.
    unfold Db.enforce_readonly, Db.enforce_readonly_mode.
    unfold keyword_blocked in Hkb. rewrite Hkb.
    destruct q as [|c q']; [|reflexivity].
    destruct Hk as (pre & w & post & Hnil & Hin & _).
    symmetry in Hnil. apply app_eq_nil in Hnil as [_ Hnil].
    apply app_eq_nil in Hnil as [-> _]. cbn in Hin.
    repeat (destruct Hin as [Hin | Hin]; [discriminate Hin|]). destruct Hin. }
  split; [exact Hrej|].
  intros env_ro env_allow execute params q' p Hin.
  apply guarded_query_calls in Hin as (-> & _ & _ & Hro & _). rewrite Hrej in Hro.
  discriminate.
Qed.

Lemma injection_keeps_keywords_witness :
  has_keyword "WITH query_result AS (DELETE FROM prices RETURNING *)
SELECT * FROM query_result" /\
  Db.enforce_readonly None "WITH query_result AS (DELETE FROM prices RETURNING *)
SELECT * FROM query_result" = Rejected "Only read-only queries are permitted".
Proof.
  destruct (proj1 (injection_keeps_keywords "SELECT * FROM query_result"
                     [mkTable "query_result" ["close"]
                        (Some "DELETE FROM prices RETURNING *")]
                     _ eq_refl) eq_refl) as (Hk & Hr & _).
  - right. exists (mkTable "query_result" ["close"] (Some "DELETE FROM prices RETURNING *")),
             "DELETE FROM prices RETURNING *".
    split; [now left|]. split; [reflexivity|]. split; [reflexivity|].
    exists [], "DELETE", " FROM prices RETURNING *". split; [reflexivity|].
    split; [cbn; tauto | split; reflexivity].
  - split; [exact Hk | exact (Hr None)].
Defined.

Lemma guarded_query_no_log env_ro env_allow execute normalized tables params :
  List.filter (fun c => negb (is_log c))
    (fst (DbServer.guarded_query env_ro env_allow execute normalized tables params))
  = fst (DbServer.guarded_query env_ro env_allow execute normalized tables params).
Proof.
  unfold DbServer.guarded_query.
  destruct (truthy_list _ && _); [reflexivity|].
  destruct (Db.enforce_readonly env_ro normalized); [|reflexivity].
  destruct (Db.enforce_allowlist env_allow normalized tables); [|reflexivity].
  cbv zeta. now destruct (execute normalized params).
Qed.

(** X7 -- the agent's [_tool_db_query] returns what the server's
    [db_query] returns and makes the same calls to the guards and to the
    executor, on the same SQL; it writes no log line, and it passes an empty
    list for missing (falsy) parameters. *)
Theorem tool_db_query_agrees
    (env_ro env_allow : option str) (execute : str -> json -> json + str)
    (sql : str) (ctx : ChartContext) (params : json) :
  Agent._tool_db_query env_ro env_allow execute sql ctx params
  = match DbServer.db_query env_ro env_allow execute sql ctx (py_or params (JList [])) with
    | Some (calls, res) => Some (List.filter (fun c => negb (is_log c)) calls, res)
    | None => None
    end.
Proof.
  unfold Agent._tool_db_query, DbServer.db_query.
  destruct (DbServer._inject_virtual_table _ ctx) as [injected|]; [|reflexivity].
  pose proof (guarded_query_no_log env_ro env_allow execute injected ctx
                (py_or params (JList []))) as Hf.
  destruct (DbServer.guarded_query _ _ _ injected ctx _) as [calls res].
  cbn [fst] in Hf. rewrite List.filter_app, Hf.
  now destruct (negb (str_eqb sql (DbServer.normalize_sql sql))).
Qed.

(** ** Names of virtual tables *)

Lemma lang_lit s : forall w, lang (lit s) w -> w = s.
Proof.
  induction s as [|c s IH]; intros w H.
  - exact H.
  - destruct H as (w1 & w2 & -> & (x & -> & Hx) & H2).
    apply Ascii.eqb_eq in Hx. subst x. cbn [app]. f_equal. now apply IH.
Qed.

Lemma rep_greedy_stop p l rest : forall n prev caps k res,
  forallb p l = true ->
  (rest = [] \/ exists c r, rest = c :: r /\ p c = false) ->
  n <= length l ->
  k (MState (last_or prev l) rest caps) = Some res ->
  rep_greedy p n prev (l ++ rest) caps k = Some res.
Proof.
  induction l as [|x l IH]; intros n prev caps k res Hall Hrest Hn Hk.
  - cbn in Hn. assert (n = 0) as -> by lia. cbn [app].
    destruct Hrest as [-> | (c & r & -> & Hc)]; cbn [rep_greedy]; [exact Hk|].
    now rewrite Hc.
  - cbn [forallb] in Hall. apply andb_true_iff in Hall as [Hx Hall].
    cbn [app rep_greedy]. rewrite Hx.
    rewrite (IH (pred n) (Some x) caps k res Hall Hrest); [reflexivity | cbn in Hn; lia|].
    now rewrite <- last_or_cons with (prev := prev).
Qed.

Lemma virtual_name_digits_tail ds tail :
  ds <> [] -> forallb is_digit ds = true -> tail = [] \/ tail = [nl] ->
  DbServer.is_virtual_name ("query_result_" ++ ds ++ tail) = true.
Proof.
  intros Hne Hall Htail. unfold DbServer.is_virtual_name, re_match, match_at.
  unfold DbServer.RE_VIRTUAL_NAME.
  rewrite rmatch_seq_cons. cbn [rmatch m_prev]. rewrite rmatch_seq_cons, rmatch_lit.
  cbn [app startswith Ascii.eqb Bool.eqb andb length skipn].
  rewrite rmatch_seq_cons. cbn [rmatch m_rest m_caps m_prev seq fold_right chr digits1].
  rewrite Ascii.eqb_refl.
  erewrite rep_greedy_stop; [reflexivity | exact Hall | | |].
  - destruct Htail as [-> | ->]; [now left|]. right. now exists nl, [].
  - destruct ds; [congruence | cbn; lia].
  - destruct Htail as [-> | ->]; reflexivity.
Qed.

(** X9 -- the names that count as virtual tables: [query_result], or
    [query_result_] and one or more digits, in lower case; and, since [$]
    also matches before a final line break, such a name with a line break
    after it. *)
Theorem virtual_name_spec (n : str) :
  DbServer.is_virtual_name n = true <->
  exists base, virtual_base base /\ (n = base \/ n = base ++ [nl]).
Proof.
  split.
  - unfold DbServer.is_virtual_name, re_match, match_at, DbServer.RE_VIRTUAL_NAME.
    destruct (rmatch _ _ Some) as [res|] eqn:E; [intros _ | discriminate].
    rewrite rmatch_seq_cons in E.
    apply rmatch_sound in E as (st1 & w1 & n1 & E & Hr1 & Hl1 & _).
    rewrite rmatch_seq_cons in E.
    apply rmatch_sound in E as (st2 & w2 & n2 & E & Hr2 & Hl2 & _).
    rewrite rmatch_seq_cons in E.
    apply rmatch_sound in E as (st3 & w3 & n3 & E & Hr3 & Hl3 & _).
    cbn [m_rest] in Hr1. cbn in Hl1. subst w1. apply lang_lit in Hl2. subst w2.
    assert (Htail : m_rest st3 = [] \/ m_rest st3 = [nl]).
    { cbn [seq fold_right rmatch] in E.
      destruct (m_rest st3) as [|c [|d t]]; [now left | | discriminate].
      destruct (Ascii.eqb c nl) eqn:Ec; [|discriminate].
      apply Ascii.eqb_eq in Ec. subst c. now right. }
    assert (Hn : n = "query_result" ++ w3 ++ m_rest st3).
    { rewrite Hr1. cbn [app]. rewrite Hr2, Hr3. reflexivity. }
    destruct Hl3 as [-> | (u & v & -> & (x & -> & Hx) & ds & e & -> & (Hlen & Hall) & He)].
    + exists "query_result". split; [now left|].
      destruct Htail as [Ht | Ht]; rewrite Ht in Hn; [left | right]; exact Hn.
    + cbn in He. subst e. apply Ascii.eqb_eq in Hx. subst x.
      exists ("query_result_" ++ ds). split.
      * right. exists ds. split; [reflexivity|]. split; [|exact Hall].
        intros ->. cbn in Hlen. lia.
      * rewrite app_nil_r in Hn.
        destruct Htail as [Ht | Ht]; rewrite Ht in Hn; [left | right]; rewrite Hn.
        -- now rewrite app_nil_r.
        -- now rewrite <- !app_assoc.
  - intros (base & [-> | (ds & -> & Hne & Hall)] & [-> | ->]); try reflexivity.
    + rewrite <- (app_nil_r ds). now apply virtual_name_digits_tail; [| |left].
    + rewrite <- app_assoc. now apply virtual_name_digits_tail; [| |right].
Qed.

(** ** What the events of a run carry *)

Lemma run_tools_deltas rid calls : Forall delta_ok (fst (Agent.run_tools rid calls)).
Proof.
  induction calls as [|c calls IH]; [constructor|].
  destruct c as [name args norm inj result result_str | msg]; cbn [Agent.run_tools].
  - destruct (Agent.run_tools rid calls) as [evs ok]. cbn [fst] in *.
    constructor; [exact I|]. apply Forall_app. split; [|constructor; [exact I | exact IH]].
    apply List.Forall_forall. intros e He. apply in_map_iff in He as (d & <- & Hd).
    cbn [delta_ok]. apply (slices_bounds 2048 result_str d); [lia | exact Hd].
  - repeat constructor.
Qed.

Lemma stream_loop_deltas rid stream assembled :
  Forall delta_ok (fst (Agent.stream_loop rid stream assembled)).
Proof.
  revert assembled. induction stream as [|d stream IH]; intros assembled;
    cbn [Agent.stream_loop]; [constructor|].
  destruct (truthy_opt d) eqn:Ed; cbn [negb]; [|apply IH].
  specialize (IH (assembled ++ default "" d)).
  destruct (Agent.stream_loop rid stream _) as [evs final]. cbn [fst] in *.
  constructor; [|exact IH]. cbn [delta_ok]. now destruct d as [[|c s]|].
Qed.

Lemma run_rounds_deltas rid script : Forall delta_ok (Agent.run_rounds rid script).
Proof.
  induction script as [|c script IH]; [constructor|].
  destruct c as [calls | stream failure | msg]; cbn [Agent.run_rounds].
  - pose proof (run_tools_deltas rid calls) as Ht.
    destruct (Agent.run_tools rid calls) as [evs ok]. cbn [fst] in Ht.
    destruct ok; [apply Forall_app; now split | exact Ht].
  - pose proof (stream_loop_deltas rid stream "") as Hs.
    destruct (Agent.stream_loop rid stream "") as [evs assembled]. cbn [fst] in Hs.
    destruct failure; apply Forall_app; (split; [exact Hs | repeat constructor]).
  - repeat constructor.
Qed.

(** X24 -- no event of a run carries an empty piece: the delta of every
    [chunk] event has text, and the delta of every [tool_chunk] event has
    between one and 2048 characters. *)
Theorem stream_deltas_not_empty (configured : bool) (rid : str)
    (script : list Agent.completion) :
  Forall delta_ok (Agent.run_agent_stream configured rid script).
Proof.
  unfold Agent.run_agent_stream. destruct configured; cbn [negb].
  - apply run_rounds_deltas.
  - cbn. repeat constructor; discriminate.
Qed.

(** ** Two tables of one name *)

Lemma allowed_by_alias_last tables alias :
  alias <> [] ->
  DbServer.allowed_by_alias tables !! alias
  = option_map (fun t => map lower (t_columns t))
      (find (fun t => str_eqb (t_name t) alias) (rev tables)).
Proof.
  intros Hne. induction tables as [|t tables IH] using rev_ind.
  - unfold DbServer.allowed_by_alias. cbn. apply lookup_empty.
  - rewrite allowed_by_alias_snoc, rev_app_distr. cbn [rev app find].
    destruct (str_eqb (t_name t) alias) eqn:E.
    + apply str_eqb_spec in E. rewrite E.
      now destruct alias as [|c a]; [contradiction Hne|].
    + rewrite andb_false_r. exact IH.
Qed.

(** X25 -- when several tables of the context have the same name, the
    last one alone decides an [alias.column] field, while a bare field is
    looked up in the columns of all tables: [alias.column] has no issue iff
    the last table named [alias] has the column, letter case apart. *)
Theorem alias_last_table_wins (str_of : json -> str) (tables : ChartContext)
    (k alias col : str) :
  alias <> [] -> has_char "." alias = false ->
  DbServer.allowed_by_alias tables !! alias
  = option_map (fun t => map lower (t_columns t))
      (find (fun t => str_eqb (t_name t) alias) (rev tables)) /\
  (channel_issue str_of tables k (JStr (alias ++ "." ++ col)) = [] <->
   exists t, find (fun t => str_eqb (t_name t) alias) (rev tables) = Some t /\
             In (lower col) (map lower (t_columns t))).
Proof.
  intros Hne Hdot. split; [now apply allowed_by_alias_last|].
  unfold channel_issue, field_ok.
  cbn [DbServer.extract_field json_truthy DbServer.py_str].
  assert (Ht : truthy (alias ++ "." ++ col) = true) by (destruct alias; easy).
  rewrite Ht, has_char_qualified, split1_qualified by exact Hdot. cbn [negb fst snd].
  rewrite allowed_by_alias_last by exact Hne.
  destruct (find _ (rev tables)) as [t|]; cbn [option_map].
  - destruct (mem (lower col) (map lower (t_columns t))) eqn:Em.
    + split; [intros _ | reflexivity]. exists t. split; [reflexivity | now apply mem_spec].
    + split; [discriminate|]. intros (t' & [= <-] & Hin). apply mem_spec in Hin. congruence.
  - split; [discriminate|]. now intros (t' & Hf & _).
Qed.

Lemma alias_last_table_wins_witness :
  channel_issue (fun _ => "?")
    [mkTable "prices" ["close"] None; mkTable "prices" ["open"] None]
    "y" (JStr ("prices" ++ "." ++ "close")) <> [] /\
  channel_issue (fun _ => "?")
    [mkTable "prices" ["close"] None; mkTable "prices" ["open"] None]
    "y" (JStr "close") = [].
Proof.
  split; [|reflexivity]. intros H.
  apply (proj2 (alias_last_table_wins (fun _ => "?")
                  [mkTable "prices" ["close"] None; mkTable "prices" ["open"] None]
                  "y" "prices" "close" ltac:(discriminate) eq_refl)) in H.
  destruct H as (t & Hf & Hin). vm_compute in Hf. injection Hf as <-.
  cbn in Hin. destruct Hin as [Hin | []]. discriminate Hin.
Defined.

(** ** The alias pattern, position by position *)

Lemma rmatch_liti w : forall prev rest caps k,
  rmatch (liti w) (MState prev rest caps) k =
  if startswith (upper rest) (upper w)
  then k (MState (last_or prev (firstn (length w) rest)) (skipn (length w) rest) caps)
  else None.
Proof.
  induction w as [|a w IH]; intros prev rest caps k; [reflexivity|].
  unfold liti. cbn [map]. rewrite rmatch_seq_cons. cbn [rmatch chri m_rest m_caps].
  destruct rest as [|b rest]; [reflexivity|].
  cbn [upper map startswith length firstn skipn].
  rewrite (Ascii.eqb_sym (upper_c a)).
  destruct (Ascii.eqb (upper_c b) (upper_c a)); [|reflexivity]. cbn [andb].
  fold (liti w). fold (upper rest). fold (upper w). rewrite IH.
  now rewrite last_or_cons.
Qed.

Lemma digit_is_word c : is_digit c = true -> is_word c = true.
Proof. unfold is_word. now intros ->. Qed.

(** Digits, greedily, then a boundary: all the digits, or nothing. *)
Lemma digits_then_boundary l : forall n prev caps,
  is_word_opt prev = true ->
  rep_greedy is_digit n prev l caps at_end =
  if (n <=? length (digit_prefix l)) &&
     negb (is_word_opt (head (skipn (length (digit_prefix l)) l)))
  then Some (MState (last_or prev (digit_prefix l))
                    (skipn (length (digit_prefix l)) l) caps)
  else None.
Proof.
  induction l as [|c t IH]; intros n prev caps Hp; cbn [rep_greedy digit_prefix].
  - cbn. unfold at_end, at_boundary. cbn. rewrite Hp. now destruct n.
  - destruct (is_digit c) eqn:Hc.
    + rewrite IH by (cbn; now apply digit_is_word).
      cbn [length skipn]. rewrite last_or_cons.
      destruct (negb (is_word_opt (head (skipn (length (digit_prefix t)) t)))) eqn:Hb.
      * rewrite !andb_true_r.
        destruct (pred n <=? length (digit_prefix t)) eqn:Hn.
        -- apply Nat.leb_le in Hn.
           now rewrite (proj2 (Nat.leb_le n (S (length (digit_prefix t)))) ltac:(lia)).
        -- apply Nat.leb_gt in Hn.
           rewrite (proj2 (Nat.leb_gt n (S (length (digit_prefix t)))) ltac:(lia)).
           destruct n; [cbn in Hn; lia | reflexivity].
      * rewrite !andb_false_r. destruct n; [|reflexivity].
        unfold at_end, at_boundary. cbn. rewrite Hp, (digit_is_word c Hc). reflexivity.
    + cbn [length skipn head]. unfold last_or. cbn.
      destruct n; [|reflexivity].
      unfold at_end, at_boundary. cbn. rewrite Hp. now destruct (is_word c).
Qed.

Lemma word_prefix_digits t :
  forallb is_digit (word_prefix t)
  = negb (is_word_opt (head (skipn (length (digit_prefix t)) t))) /\
  (forallb is_digit (word_prefix t) = true -> word_prefix t = digit_prefix t).
Proof.
  induction t as [|c t [IH1 IH2]]; [now split|].
  cbn [word_prefix digit_prefix]. destruct (is_digit c) eqn:Hc.
  - rewrite (digit_is_word c Hc). cbn [forallb length skipn]. rewrite Hc. cbn [andb].
    split; [exact IH1|]. intros H. now rewrite IH2.
  - cbn [length skipn head is_word_opt]. destruct (is_word c); cbn [forallb negb].
    + rewrite Hc. now split.
    + now split.
Qed.

Lemma word_prefix_app_word q s :
  forallb is_word q = true -> word_prefix (q ++ s) = q ++ word_prefix s.
Proof.
  induction q as [|c q IH]; [reflexivity|]. cbn [forallb app word_prefix].
  intros H. apply andb_true_iff in H as [-> H]. now rewrite IH.
Qed.

Lemma word_prefix_nil_app x r :
  word_prefix r = [] -> word_prefix (x ++ r) = word_prefix x.
Proof.
  intros Hr. induction x as [|c x IH]; [exact Hr|].
  cbn [app word_prefix]. now rewrite IH.
Qed.

Lemma word_prefix_head r : word_prefix r = [] <-> is_word_opt (head r) = false.
Proof.
  destruct r as [|c r]; cbn; [easy|]. destruct (is_word c); easy.
Qed.

Lemma word_prefix_split s : exists r, s = word_prefix s ++ r /\ word_prefix r = [].
Proof.
  induction s as [|c s (r & Hs & Hr)]; [now exists []|].
  cbn [word_prefix]. destruct (is_word c) eqn:Hc.
  - exists r. split; [cbn; now f_equal | exact Hr].
  - exists (c :: s). split; [reflexivity|]. cbn. now rewrite Hc.
Qed.

Lemma word_prefix_words s : forallb is_word (word_prefix s) = true.
Proof.
  induction s as [|c s IH]; [reflexivity|]. cbn [word_prefix].
  destruct (is_word c) eqn:Hc; [cbn; now rewrite Hc | reflexivity].
Qed.

Lemma startswith_upper_split s q :
  startswith (upper s) (upper q) = true ->
  s = firstn (length q) s ++ skipn (length q) s /\
  upper (firstn (length q) s) = upper q /\ length (firstn (length q) s) = length q.
Proof.
  revert s. induction q as [|a q IH]; intros s H; [now split|].
  destruct s as [|b s]; [discriminate H|]. cbn [upper map startswith] in H.
  apply andb_true_iff in H as [Hab H]. apply Ascii.eqb_eq in Hab.
  destruct (IH s H) as (H1 & H2 & H3). cbn [length firstn skipn app upper map].
  split; [now rewrite <- H1|]. split; [|now rewrite H3].
  f_equal; [now symmetry | exact H2].
Qed.

Lemma startswith_word_prefix s q :
  forallb is_word q = true ->
  startswith (upper (word_prefix s)) (upper q) = startswith (upper s) (upper q).
Proof.
  revert s. induction q as [|a q IH]; intros s Hq; [reflexivity|].
  cbn [forallb] in Hq. apply andb_true_iff in Hq as [Ha Hq].
  destruct s as [|b s]; [reflexivity|]. cbn [word_prefix].
  destruct (is_word b) eqn:Hb.
  - cbn [upper map startswith]. fold (upper (word_prefix s)) (upper s) (upper q).
    now rewrite IH.
  - cbn [upper map startswith].
    destruct (Ascii.eqb (upper_c a) (upper_c b)) eqn:E; [|reflexivity].
    apply Ascii.eqb_eq in E.
    assert (is_word b = is_word a) by (now rewrite <- (upper_c_word b), <- E, upper_c_word).
    congruence.
Qed.

Lemma upper_words a b : upper a = upper b -> forallb is_word a = forallb is_word b.
Proof.
  intros H. now rewrite <- (forallb_word_upper a), H, forallb_word_upper.
Qed.

(** Where the alias pattern matches: after a character that is no word
    character, on the longest run of word characters, when this run is an
    alias word. *)
Lemma alias_match_at prev s :
  match_at DbServer.RE_ALIAS prev s =
  if negb (is_word_opt prev) && alias_word (word_prefix s)
  then Some (MatchObj (word_prefix s) [])
  else None.
Proof.
  unfold match_at, DbServer.RE_ALIAS, alias_word.
  rewrite rmatch_seq_cons. cbn [rmatch m_prev m_rest].
  rewrite rmatch_seq_cons, rmatch_liti.
  assert (Hp : startswith (upper (word_prefix s)) "QUERY_RESULT"
               = startswith (upper s) (upper "query_result")).
  { exact (startswith_word_prefix s "query_result" eq_refl). }
  rewrite Hp. clear Hp.
  destruct (startswith (upper s) (upper "query_result")) eqn:Hq.
  2:{ rewrite andb_false_r. now destruct (at_boundary prev s). }
  apply startswith_upper_split in Hq as (Hs & Hu & Hlen).
  set (q := firstn (length "query_result") s) in *.
  set (s1 := skipn (length "query_result") s) in *.
  assert (Hw : forallb is_word q = true) by (now rewrite (upper_words _ _ Hu)).
  assert (Hne : q <> []) by (intros E; now rewrite E in Hlen).
  rewrite Hs. rewrite (at_boundary_word_r prev q s1 Hne Hw).
  rewrite (word_prefix_app_word q s1 Hw).
  change 12 with (length "query_result"). rewrite <- Hlen, skipn_length_app.
  destruct (is_word_opt prev); [reflexivity|]. cbn [negb andb].
  rewrite rmatch_seq_cons. cbn [rmatch].
  change (fun st' : mstate => rmatch (seq [WordB]) st' Some) with at_end.
  assert (Hend : at_end (MState (last_or prev q) s1 [])
                 = if negb (is_word_opt (head s1))
                   then Some (MState (last_or prev q) s1 []) else None).
  { unfold at_end. cbn [m_prev m_rest]. now rewrite (at_boundary_word_l prev q s1 Hne Hw). }
  change (rmatch (seq [WordB]) (MState (last_or prev q) s1 []) Some)
    with (at_end (MState (last_or prev q) s1 [])).
  rewrite Hend. clear Hend. clearbody q s1. clear Hs.
  destruct s1 as [|c t].
  - cbn. rewrite !app_nil_r. now rewrite <- (app_nil_r q) at 1; rewrite consumed_app.
  - rewrite rmatch_seq_cons. cbn [rmatch chr m_rest m_caps m_prev].
    cbn [word_prefix head is_word_opt].
    destruct (Ascii.eqb "_" c) eqn:Ec.
    + apply Ascii.eqb_eq in Ec. subst c.
      change (is_word "_") with true. cbn [Ascii.eqb Bool.eqb andb negb].
      change (rmatch (seq [digits1]) (MState (Some "_"%char) t []) at_end)
        with (rep_greedy is_digit 1 (Some "_"%char) t [] at_end).
      rewrite digits_then_boundary by reflexivity.
      destruct (word_prefix_digits t) as [Hd1 Hd2]. rewrite <- Hd1.
      destruct (forallb is_digit (word_prefix t)) eqn:Hall.
      * rewrite <- (Hd2 eq_refl). rewrite !andb_true_r.
        destruct (1 <=? length (word_prefix t)) eqn:Hn; [|reflexivity].
        cbn [m_rest m_caps]. f_equal. f_equal.
        destruct (word_prefix_split t) as (r & Ht & Hr).
        remember (word_prefix t) as w eqn:Ew. clear Ew. subst t.
        rewrite skipn_length_app.
        replace (q ++ "_"%char :: w ++ r)
          with ((q ++ "_"%char :: w) ++ r) by now rewrite <- app_assoc.
        apply consumed_app.
      * rewrite !andb_false_r. reflexivity.
    + destruct (is_word c) eqn:Hc; cbn [negb].
      * rewrite Ascii.eqb_sym, Ec. reflexivity.
      * cbn [m_rest m_caps]. rewrite app_nil_r. now rewrite consumed_app.
Qed.

Lemma alias_word_nonempty w : alias_word w = true -> w <> [].
Proof. now intros H ->. Qed.

Lemma alias_none_after_word prev s :
  is_word_opt prev = true -> match_at DbServer.RE_ALIAS prev s = None.
Proof. intros H. now rewrite alias_match_at, H. Qed.

Lemma alias_none_no_word prev s :
  word_prefix s = [] -> match_at DbServer.RE_ALIAS prev s = None.
Proof. intros H. rewrite alias_match_at, H. now rewrite andb_false_r. Qed.

Lemma alias_match_local p p' s s' :
  is_word_opt p = is_word_opt p' -> word_prefix s = word_prefix s' ->
  match_at DbServer.RE_ALIAS p s = match_at DbServer.RE_ALIAS p' s'.
Proof. intros Hp Hs. now rewrite !alias_match_at, Hp, Hs. Qed.

Lemma alias_match_some prev s m :
  match_at DbServer.RE_ALIAS prev s = Some m ->
  m = MatchObj (word_prefix s) [] /\ is_word_opt prev = false /\
  alias_word (word_prefix s) = true.
Proof.
  rewrite alias_match_at. destruct (is_word_opt prev); [discriminate|].
  cbn [negb andb]. destruct (alias_word (word_prefix s)); [|discriminate].
  now intros [= <-].
Qed.

Lemma sub_go_skip r repl a : forall prev b,
  sub_go r repl prev (a ++ b) (length a) = sub_go r repl (last_or prev a) b 0.
Proof.
  induction a as [|c a IH]; intros prev b; [reflexivity|].
  cbn [app length sub_go]. now rewrite IH, last_or_cons.
Qed.

Lemma finditer_go_skip r a : forall prev b,
  finditer_go r prev (a ++ b) (length a) = finditer_go r (last_or prev a) b 0.
Proof.
  induction a as [|c a IH]; intros prev b; [reflexivity|].
  cbn [app length finditer_go]. now rewrite IH, last_or_cons.
Qed.

(** One step of the rewriting at an alias: the whole word is replaced and
    the rewriting goes on after it. *)
Lemma sub_alias_step repl prev s m :
  match_at DbServer.RE_ALIAS prev s = Some m ->
  exists r, s = word_prefix s ++ r /\ word_prefix r = [] /\
    sub_go DbServer.RE_ALIAS repl prev s 0
    = repl m ++ sub_go DbServer.RE_ALIAS repl (last_or prev (word_prefix s)) r 0.
Proof.
  intros Hm. pose proof (alias_match_some _ _ _ Hm) as (-> & _ & Ha).
  apply alias_word_nonempty in Ha.
  destruct (word_prefix_split s) as (r & Hs & Hr). exists r.
  split; [exact Hs|]. split; [exact Hr|].
  destruct (word_prefix s) as [|c w] eqn:Ew; [congruence|]. clear Ha.
  rewrite Hs at 1. cbn [app]. cbn [sub_go].
  rewrite <- Hs at 1. rewrite Hm. cbn [group0 length]. f_equal.
  now rewrite sub_go_skip, last_or_cons.
Qed.

Lemma finditer_alias_step prev s m :
  match_at DbServer.RE_ALIAS prev s = Some m ->
  exists r, s = word_prefix s ++ r /\ word_prefix r = [] /\
    finditer_go DbServer.RE_ALIAS prev s 0
    = m :: finditer_go DbServer.RE_ALIAS (last_or prev (word_prefix s)) r 0.
Proof.
  intros Hm. pose proof (alias_match_some _ _ _ Hm) as (-> & _ & Ha).
  apply alias_word_nonempty in Ha.
  destruct (word_prefix_split s) as (r & Hs & Hr). exists r.
  split; [exact Hs|]. split; [exact Hr|].
  destruct (word_prefix s) as [|c w] eqn:Ew; [congruence|]. clear Ha.
  rewrite Hs at 1. cbn [app]. cbn [finditer_go].
  rewrite <- Hs at 1. rewrite Hm. cbn [group0 length Nat.sub]. f_equal.
  rewrite Nat.sub_0_r. now rewrite finditer_go_skip, last_or_cons.
Qed.

(** After a word character the rewriting leaves the run of word
    characters as it is. *)
Lemma sub_alias_word_prefix repl s : forall prev,
  is_word_opt prev = true ->
  word_prefix (sub_go DbServer.RE_ALIAS repl prev s 0) = word_prefix s.
Proof.
  induction s as [|c s IH]; intros prev Hp; cbn [sub_go];
    rewrite (alias_none_after_word prev _ Hp); [reflexivity|].
  cbn [word_prefix]. destruct (is_word c) eqn:Hc; [|reflexivity].
  now rewrite IH.
Qed.

Lemma alias_free_nil prev : alias_free prev [].
Proof. unfold alias_free. cbn [finditer_go]. now rewrite alias_none_no_word. Qed.

Lemma alias_free_cons prev c x :
  alias_free prev (c :: x) <->
  match_at DbServer.RE_ALIAS prev (c :: x) = None /\ alias_free (Some c) x.
Proof.
  unfold alias_free. cbn [finditer_go].
  destruct (match_at DbServer.RE_ALIAS prev (c :: x)); [split; [discriminate | now intros [? _]]|].
  tauto.
Qed.

(** What precedes a text that starts with no word character does not
    count. *)
Lemma alias_free_any_prev p p' x :
  word_prefix x = [] -> alias_free p x -> alias_free p' x.
Proof.
  intros Hx. destruct x as [|c x]; [intros _; apply alias_free_nil|].
  rewrite !alias_free_cons. intros [_ H]. split; [now apply alias_none_no_word | exact H].
Qed.

Lemma alias_free_app x : forall p0 p r,
  is_word_opt p0 = is_word_opt p -> word_prefix r = [] ->
  alias_free p0 x -> alias_free (last_or p x) r -> alias_free p (x ++ r).
Proof.
  induction x as [|c x IH]; intros p0 p r Hp Hr Hx Hrr; [exact Hrr|].
  apply alias_free_cons in Hx as [Hc Hx]. cbn [app]. apply alias_free_cons. split.
  - rewrite <- Hc. apply alias_match_local; [now symmetry|].
    exact (word_prefix_nil_app (c :: x) r Hr).
  - apply (IH (Some c)); [reflexivity | exact Hr | exact Hx |].
    now rewrite <- last_or_cons with (prev := p).
Qed.

(** The text left by the rewriting holds no alias, when the replacement
    holds none. *)
Lemma sub_alias_free text n : forall s prev prev',
  length s <= n -> is_word_opt prev' = is_word_opt prev ->
  alias_free None text ->
  alias_free prev' (sub_go DbServer.RE_ALIAS (fun _ => text) prev s 0).
Proof.
  induction n as [|n IH]; intros s prev prev' Hn Hp Ht.
  - destruct s; [|cbn in Hn; lia]. cbn [sub_go].
    rewrite alias_none_no_word by reflexivity. apply alias_free_nil.
  - destruct (match_at DbServer.RE_ALIAS prev s) as [m|] eqn:Hm.
    + destruct (sub_alias_step (fun _ => text) prev s m Hm) as (r & Hs & Hr & ->).
      pose proof (alias_match_some _ _ _ Hm) as (_ & Hpw & Ha).
      pose proof (alias_word_nonempty _ Ha) as Hne.
      pose proof (word_prefix_words s) as Hw.
      assert (Hlast : is_word_opt (last_or prev (word_prefix s)) = true).
      { unfold last_or. pose proof (word_last _ Hne Hw) as Hl.
        now destruct (last (word_prefix s)). }
      assert (Hlen : length r <= n).
      { rewrite Hs in Hn. rewrite length_app in Hn.
        destruct (word_prefix s); [congruence | cbn in Hn; lia]. }
      assert (Hout : word_prefix (sub_go DbServer.RE_ALIAS (fun _ => text)
                                   (last_or prev (word_prefix s)) r 0) = []).
      { now rewrite sub_alias_word_prefix. }
      apply (alias_free_app text None); [now rewrite Hp, Hpw | exact Hout | exact Ht |].
      apply (alias_free_any_prev (last_or prev (word_prefix s))); [exact Hout|].
      now apply IH.
    + destruct s as [|c s]; cbn [sub_go]; rewrite Hm; [apply alias_free_nil|].
      apply alias_free_cons. split.
      * rewrite <- Hm. apply alias_match_local; [exact Hp|].
        cbn [word_prefix]. destruct (is_word c) eqn:Hc; [|reflexivity].
        now rewrite sub_alias_word_prefix.
      * apply IH; [cbn in Hn; lia | reflexivity | exact Ht].
Qed.

Lemma search_none_finditer r s : forall prev,
  search_from r prev s = None -> finditer_go r prev s 0 = [].
Proof.
  induction s as [|c s IH]; intros prev H; cbn [search_from] in H; cbn [finditer_go];
    destruct (match_at r prev _); try discriminate H; [reflexivity | now apply IH].
Qed.

(** X26 -- the fallback of [_inject_virtual_table] leaves no alias
    behind.  In a context without backed virtual table and with one real
    table, whose name holds no backslash and no alias as a whole word, the
    statement that comes back references no [query_result(_n)] any more,
    whatever the statement was, and [db_query] finds no missing virtual
    table in it. *)
Theorem fallback_leaves_no_alias (sql target : str) (tables : ChartContext) :
  DbServer.backed_virtuals tables = [] ->
  DbServer.real_tables tables = [target] ->
  has_char backslash target = false ->
  DbServer.used_virtuals target = [] ->
  exists r, DbServer._inject_virtual_table sql tables = Some r /\
            DbServer.used_virtuals r = [] /\
            DbServer.missing_virtuals r tables = [].
Proof.
  intros Hb Hr Hs Ht.
  assert (Hgoal : exists r, DbServer._inject_virtual_table sql tables = Some r /\
                            DbServer.used_virtuals r = []).
  { unfold DbServer._inject_virtual_table. rewrite Hb, Hr.
    unfold DbServer.expand_template. rewrite Hs.
    destruct (re_search DbServer.RE_ALIAS (strip sql)) as [m|] eqn:E; cbn [is_some].
    - eexists. split; [reflexivity|].
      assert (H : alias_free None
                    (sub_go DbServer.RE_ALIAS (fun _ => target) None (strip sql) 0)).
      { apply (sub_alias_free target (length (strip sql))); [lia | reflexivity|].
        unfold DbServer.used_virtuals, finditer in Ht. now apply map_eq_nil in Ht. }
      unfold DbServer.used_virtuals, finditer, sub. now rewrite H.
    - eexists. split; [reflexivity|].
      unfold DbServer.used_virtuals, finditer.
      now rewrite (search_none_finditer _ _ None E). }
  destruct Hgoal as (r & Hi & Hu). exists r. split; [exact Hi|]. split; [exact Hu|].
  unfold DbServer.missing_virtuals. now rewrite Hu.
Qed.

Lemma fallback_leaves_no_alias_witness :
  exists r,
    DbServer._inject_virtual_table
      "SELECT * FROM query_result_3 a JOIN Query_Result b ON a.d = b.d"
      [mkTable "prices" ["d"; "close"] None] = Some r /\
    DbServer.used_virtuals r = [] /\
    DbServer.missing_virtuals r [mkTable "prices" ["d"; "close"] None] = [].
Proof.
  apply (fallback_leaves_no_alias _ "prices"); reflexivity.
Defined.

(** The hypothesis on the name is needed: a table named as an alias in
    capitals is a real table, and the rewritten statement still references
    an alias. *)
Lemma fallback_alias_in_capitals :
  DbServer.real_tables [mkTable "QUERY_RESULT" ["d"] None] = ["QUERY_RESULT"] /\
  DbServer._inject_virtual_table "SELECT * FROM query_result"
    [mkTable "QUERY_RESULT" ["d"] None] = Some "SELECT * FROM QUERY_RESULT" /\
  DbServer.used_virtuals "SELECT * FROM QUERY_RESULT" = ["QUERY_RESULT"].
Proof. vm_compute. repeat split. Qed.

(** ** What counts as a reference to a virtual table *)

Lemma alias_word_words w : alias_word w = true -> forallb is_word w = true.
Proof.
  unfold alias_word. intros H. apply andb_true_iff in H as [Hq H].
  change "QUERY_RESULT" with (upper "query_result") in Hq.
  apply startswith_upper_split in Hq as (Hs & Hu & _).
  rewrite Hs, forallb_app, (upper_words _ _ Hu). cbn [andb].
  change (length "query_result") with 12.
  destruct (skipn 12 w) as [|c ds]; [reflexivity|].
  apply andb_true_iff in H as [H Hd]. apply andb_true_iff in H as [Hc _].
  apply Ascii.eqb_eq in Hc. subst c. cbn [forallb].
  change (is_word "_") with true. cbn [andb].
  apply (proj2 (List.forallb_forall _ _)). intros x Hx. apply digit_is_word.
  now apply (proj1 (List.forallb_forall _ _) Hd).
Qed.

Lemma prefix_of_word_last prev a l :
  a <> [] -> forallb is_word (a ++ l) = true -> is_word_opt (last_or prev a) = true.
Proof.
  intros Hne H. rewrite forallb_app in H. apply andb_true_iff in H as [H _].
  unfold last_or. pose proof (word_last a Hne H) as Hl. now destruct (last a).
Qed.

(** The matches that [finditer] lists for the alias pattern: every
    position of the subject where the pattern matches. *)
Lemma finditer_alias_spec n : forall s prev m,
  length s <= n ->
  (In m (finditer_go DbServer.RE_ALIAS prev s 0) <->
   exists a rest, s = a ++ rest /\
     match_at DbServer.RE_ALIAS (last_or prev a) rest = Some m).
Proof.
  induction n as [|n IH]; intros s prev m Hn.
  - destruct s; [|cbn in Hn; lia]. cbn [finditer_go].
    rewrite alias_none_no_word by reflexivity. split; [intros []|].
    intros (a & rest & Hs & Hm). symmetry in Hs. apply app_eq_nil in Hs as [-> ->].
    now rewrite alias_none_no_word in Hm.
  - destruct (match_at DbServer.RE_ALIAS prev s) as [m0|] eqn:Hm0.
    + destruct (finditer_alias_step prev s m0 Hm0) as (r & Hs & Hr & ->).
      pose proof (alias_match_some _ _ _ Hm0) as (_ & _ & Ha).
      pose proof (alias_word_nonempty _ Ha) as Hne.
      assert (Hlen : length r <= n).
      { rewrite Hs, length_app in Hn.
        destruct (word_prefix s); [congruence | cbn in Hn; lia]. }
      split.
      * intros [<- | H]; [now exists [], s|].
        apply (IH r _ m Hlen) in H as (a & rest & -> & Hm).
        exists (word_prefix s ++ a), rest. split; [now rewrite <- app_assoc|].
        now rewrite last_or_app.
      * intros (a & rest & Hab & Hm). rewrite Hs in Hab.
        apply app_eq_app in Hab as (l & [[Hw ->] | [-> ->]]).
        -- destruct a as [|c a].
           ++ left. cbn [app] in *. rewrite <- Hw, <- Hs in Hm.
              rewrite last_or_nil in Hm. congruence.
           ++ exfalso. rewrite alias_none_after_word in Hm; [discriminate|].
              apply (prefix_of_word_last prev (c :: a) l); [discriminate|].
              rewrite <- Hw. apply word_prefix_words.
        -- right. apply (IH _ _ m Hlen). exists l, rest. split; [reflexivity|].
           now rewrite <- last_or_app.
    + destruct s as [|c s]; cbn [finditer_go]; rewrite Hm0.
      * split; [intros []|]. intros (a & rest & Hs & Hm).
        symmetry in Hs. apply app_eq_nil in Hs as [-> ->].
        rewrite last_or_nil in Hm. congruence.
      * rewrite (IH s (Some c) m) by (cbn in Hn; lia). split.
        -- intros (a & rest & -> & Hm). exists (c :: a), rest.
           split; [reflexivity | now rewrite last_or_cons].
        -- intros (a & rest & Hs & Hm). destruct a as [|x a].
           ++ cbn [app] in Hs. subst rest. rewrite last_or_nil in Hm. congruence.
           ++ injection Hs as -> ->. exists a, rest.
              split; [reflexivity | now rewrite <- last_or_cons with (prev := prev)].
Qed.

(** X27 -- what [db_query] and the agent count as a reference to a virtual
    table: the whole words of the statement that are alias words.  [u] is
    listed iff the statement reads [a ++ u ++ b] where [u] is
    [query_result] in any letter case, alone or followed by an underscore
    and digits, [a] does not end and [b] does not start with a letter, a
    digit or an underscore. *)
Theorem used_virtuals_whole_words (sql u : str) :
  In u (DbServer.used_virtuals sql) <->
  exists a b, sql = a ++ u ++ b /\ alias_word u = true /\
              is_word_opt (last a) = false /\ is_word_opt (head b) = false.
Proof.
  unfold DbServer.used_virtuals, finditer. rewrite in_map_iff. split.
  - intros (m & <- & Hm).
    apply (finditer_alias_spec (length sql) sql None m (le_n _)) in Hm
      as (a & rest & -> & Hm).
    apply alias_match_some in Hm as (-> & Hp & Ha). cbn [group0].
    destruct (word_prefix_split rest) as (b & Hrest & Hb).
    exists a, b. split; [now rewrite <- Hrest|]. split; [exact Ha|].
    split; [now rewrite <- last_or_none | now apply word_prefix_head].
  - intros (a & b & -> & Ha & Hp & Hb).
    exists (MatchObj u []). split; [reflexivity|].
    apply (finditer_alias_spec (length (a ++ u ++ b)) _ None _ (le_n _)).
    exists a, (u ++ b). split; [reflexivity|].
    rewrite alias_match_at, last_or_none, Hp.
    rewrite (word_prefix_app_word u b (alias_word_words u Ha)).
    rewrite (proj2 (word_prefix_head b) Hb), app_nil_r, Ha. reflexivity.
Qed.
